(** * myMovieRatingApp: the record collection engine

    A shallow embedding of the movie catalogue of [src/movie.c] and
    [src/main.c], and the properties of it that the specification states:
    record construction, update and display, the slot array with its
    doubling growth, gap-reusing insertion and compacting deletion, and the
    pipe-delimited text file written at shutdown and read at start-up.

    Embedded: [create_movie], [update_movie], [display_movie], [rate_movie],
    [delete_movie], [handle_deletion] (movie.c); [main] with its add dialog,
    [resize_entries], [save_movies_to_file], [load_movies_from_file]
    (main.c); [main_menu] and [display_movie_list_ui] (ui.c); [show_popup]
    (popup.c), which appears as an event where it is called. The TV
    series of tv_series.c, which the program does not use yet, are in
    [Series]. The drawing helpers of ui.c and the unused [edit_movie_ui]
    are not embedded.

    C values are embedded as follows.
    - [int] is a [Z]; arithmetic that can leave the [int] range is written
      with [int_of], which is undefined outside it.
    - [char*] is a [cstr]: [None] is the null pointer. A string argument
      is the text it points to; where it matters that the text lies in
      storage which the function releases ([update_movie]), its place is an
      argument of its own ([Aliased]).
    - [Movie*] stored in the array is a [slot]: null, a pointer to a live
      record, or the indeterminate content of storage never written. The
      array owns its records and no record is reachable twice once an
      operation has returned, so a pointer is embedded as the record it
      points to.
    - [float] is a binary32 value ([spec_float]); [%.1f] is computed on it
      exactly.
    - a statement sequence that may run into undefined behaviour (an access
      outside an array, a null dereference, signed overflow) is a
      computation in [outcome].
    - the results of [malloc], [strdup], [realloc] and [fopen] are chosen by
      the environment and are passed to each function as explicit
      arguments; a block from [malloc] comes with the content its storage
      held before.
    - library functions ([strtok], [strspn], [strcspn], [atoi], [fgets],
      [printf]'s conversions) follow the C standard and glibc.
    - terminal input is passed to each function as the list of the results
      of its own [getch], [wgetch] or [wgetstr] calls; a function that
      waits for input which the list does not hold has no result
      ([None]). *)

From Stdlib Require Import ZArith String Ascii List Lia.
From Stdlib Require Import DecimalString DecimalZ DecimalPos.
From Stdlib Require Import Floats.SpecFloat.
From stdpp Require Import base option list strings.

Open Scope Z_scope.

(** ** The C runtime, as far as the catalogue uses it *)

Module C.

(** A computation either completes with a value or has undefined
    behaviour. *)
Inductive outcome (A : Type) : Type :=
| Done (a : A)
| Undef.
Arguments Done {A} a.
Arguments Undef {A}.

#[global] Instance outcome_ret : MRet outcome := @Done.
#[global] Instance outcome_bind : MBind outcome :=
  λ A B f m, match m with Done a => f a | Undef => Undef end.

Definition INT_MAX : Z := 2147483647.
Definition INT_MIN : Z := -2147483648.

(** The result of signed [int] arithmetic: defined only inside the range. *)
Definition int_of (z : Z) : outcome Z :=
  if decide (INT_MIN ≤ z ≤ INT_MAX) then Done z else Undef.

(** [char*]: a possibly null pointer to a NUL-terminated string. *)
Definition cstr : Type := option string.

(** [strdup]: a fresh copy, or null when the allocation fails. *)
Definition strdup (ok : bool) (s : string) : cstr :=
  if ok then Some s else None.

(** The line feed, written \n in the source. *)
Definition LF : string := String "010" EmptyString.

(** The code of a character constant, as compared with [getch]'s result. *)
Definition chr (c : ascii) : Z := Z.of_N (N_of_ascii c).

(** [printf]'s [%d]. *)
Definition fmt_d (z : Z) : string := NilZero.string_of_int (Z.to_int z).

(** [float]: an IEEE-754 binary32 value. *)
Definition float : Type := spec_float.

(** The conversion of a small [int] to [float] (exact below [2^24]). *)
Definition float_of_int (z : Z) : float := binary_normalize 24 128 z 0 false.

Definition float_zero : float := S754_zero false.

(** Tenths of [m * 2^e], rounded to nearest, ties to even. *)
Definition tenths (m : positive) (e : Z) : Z :=
  if decide (0 ≤ e) then Z.pos m * 2 ^ e * 10
  else
    let den := 2 ^ (- e) in
    let num := Z.pos m * 10 in
    let q := num / den in
    let r := num mod den in
    if decide (2 * r < den) then q
    else if decide (den < 2 * r) then q + 1
    else if Z.even q then q else q + 1.

Definition sign_text (s : bool) : string := if s then "-" else "".

(** [printf]'s [%.1f]. A NaN is printed as [nan]; its sign bit, for
    which glibc prints [-nan], is not part of [spec_float]. *)
Definition fmt_1f (x : float) : string :=
  match x with
  | S754_zero s => sign_text s +:+ "0.0"
  | S754_infinity s => sign_text s +:+ "inf"
  | S754_nan => "nan"
  | S754_finite s m e =>
      let t := tenths m e in
      sign_text s +:+ fmt_d (t / 10) +:+ "." +:+ fmt_d (t mod 10)
  end.

Definition is_finite (x : float) : bool :=
  match x with
  | S754_zero _ | S754_finite _ _ _ => true
  | _ => false
  end.

End C.

Export C.

(** ** Records, movie.c *)

Module Rec.

(** [Movie], movie.h. *)
Record Movie : Type := mkMovie {
  title : cstr;
  director : cstr;
  year : Z;
  rating : float
}.

(** [MovieError], movie.h. *)
Inductive MovieError : Type :=
| MOVIE_SUCCESS
| MOVIE_ERROR_NULL_POINTER
| MOVIE_ERROR_MEMORY_ALLOCATION.

Inductive event : Type :=
| Popup (heading message : string)   (* show_popup(heading, message) *)
| Free_str (s : cstr)                 (* free of a string *)
| Free_movie (m : Movie)              (* free of a record block *)
| Printw (text : string)              (* printw *)
| Stderr (text : string)              (* fprintf(stderr, ...) *)
| Perror (prefix : string).           (* perror(prefix) *)

(** What the allocator answers during one [create_movie]:
    [block] is the result of [malloc(sizeof(Movie))], null or a block whose
    content is whatever the storage held before; the two flags tell whether
    each [strdup] obtains its copy. *)
Record heap : Type := mkHeap {
  block : option Movie;
  title_copy : bool;
  director_copy : bool
}.

(** Field assignments [movie->f = v]. *)
Definition set_title (m : Movie) (v : cstr) : Movie :=
  mkMovie v (Rec.director m) (Rec.year m) (Rec.rating m).
Definition set_director (m : Movie) (v : cstr) : Movie :=
  mkMovie (Rec.title m) v (Rec.year m) (Rec.rating m).
Definition set_year (m : Movie) (v : Z) : Movie :=
  mkMovie (Rec.title m) (Rec.director m) v (Rec.rating m).
Definition set_rating (m : Movie) (v : float) : Movie :=
  mkMovie (Rec.title m) (Rec.director m) (Rec.year m) v.

Definition create_movie (h : heap) (title director : cstr) (year : Z)
  : option Movie * list event :=
  match title, director with
  | Some t, Some d =>
      if decide (year ≤ 1800) then (None, [])
      else
        match block h with
        | None =>
            (None, [Popup "Warning" ("New Movie Allocation Failed." +:+ LF)])
        | Some new_movie =>
            let new_movie := set_title new_movie (strdup (title_copy h) t) in
            if Rec.title new_movie is None then
              (None, [Free_movie new_movie;
                      Popup "Warning" ("Memory Allocation for Title Failed." +:+ LF)])
            else
              let new_movie :=
                set_director new_movie (strdup (director_copy h) d) in
              if Rec.director new_movie is None then
                (None, [Free_str (Rec.title new_movie); Free_movie new_movie;
                        Popup "Warning"
                              ("Memory Allocation for Director Failed." +:+ LF)])
              else
                let new_movie := set_year new_movie year in
                (Some new_movie, [])
        end
  | _, _ => (None, [])
  end.

(** [update_movie] on string arguments that lie outside the record;
    [Aliased.update_movie] below has the arguments that lie in it. *)
Definition update_movie (title_copy director_copy : bool)
    (movie : option Movie) (new_title new_director : cstr) (new_year : Z)
  : MovieError * option Movie * list event :=
  match movie, new_title, new_director with
  | Some m, Some t, Some d =>
      if decide (new_year ≤ 0) then (MOVIE_ERROR_NULL_POINTER, movie, [])
      else
        let frees := [Free_str (Rec.title m); Free_str (Rec.director m)] in
        let m := set_title m (strdup title_copy t) in
        let m := set_director m (strdup director_copy d) in
        let m := set_year m new_year in
        (MOVIE_SUCCESS, Some m, frees)
  | _, _, _ => (MOVIE_ERROR_NULL_POINTER, movie, [])
  end.

(** The argument of a [%s] conversion: a null pointer there is undefined. *)
Definition str_arg (s : cstr) : outcome string :=
  match s with Some s => Done s | None => Undef end.

(** [display_movie]: the text written to the standard output. *)
Definition display_movie (movie : option Movie) : outcome string :=
  match movie with
  | Some m =>
      t ← str_arg (Rec.title m);
      d ← str_arg (Rec.director m);
      Done ("Title: " +:+ t +:+ ",Director: " +:+ d +:+ ",Year: "
              +:+ fmt_d (Rec.year m) +:+ LF)
  | None => Done ("Attempted to Display a NULL movie." +:+ LF)
  end.

(** [EOF], stdio.h. *)
Definition EOF : Z := -1.

Definition rating_prompt (title : string) : event :=
  Printw ("Enter a rating for the movie (" +:+ title +:+ ") from 1 to 5: ").

(** The two loops of [rate_movie] as one pass over the keys that [getch]
    delivers. [flushing] is set while the inner loop
    [while ((ch = getch()) != '\n' && ch != EOF);] drops the rest of
    a rejected line. The result is the accepted rating, or [None] when the
    keys run out with the function still waiting. *)
Fixpoint rate_keys (flushing : bool) (title : string) (keys : list Z)
    (shown : list event) : option (Z * list event) :=
  match keys with
  | [] => None
  | ch :: keys =>
      if flushing then
        if decide (ch ≠ chr "010" ∧ ch ≠ EOF)
        then rate_keys true title keys shown
        else rate_keys false title keys (shown ++ [rating_prompt title])
      else if decide (chr "1" ≤ ch ∧ ch ≤ chr "5") then
        let rating := ch - chr "0" in
        Some (rating, shown)
      else
        rate_keys true title keys
          (shown ++ [Popup "Warning"
                           ("Invalid rating. Please try again." +:+ LF)])
  end.

(** [rate_movie], movie.c. *)
Definition rate_movie (movie : option Movie) (keys : list Z)
  : option (option Movie * list event) :=
  match movie with
  | Some m =>
      match Rec.title m with
      | Some t =>
          '(rating, shown) ← rate_keys false t keys [rating_prompt t];
          Some (Some (set_rating m (float_of_int rating)), shown)
      | None => Some (movie, [Printw ("Invalid movie data." +:+ LF)])
      end
  | None => Some (movie, [Printw ("Invalid movie data." +:+ LF)])
  end.

End Rec.

Export Rec.

(** ** String arguments that lie in the record, movie.c *)

Module Aliased.

(** Where a string handed to [update_movie] lies: in storage of its own,
    or in the storage of the title or of the director of the record that is
    updated, as in [update_movie(m, m->title, d, y)]. *)
Inductive origin : Type :=
| Apart
| In_title
| In_director.

(** [strdup(s)] where [s] lies at [from], after the strings of the record
    have been released: a string of the record is read in storage that
    [free] has given back. *)
Definition strdup_from (ok : bool) (from : origin) (s : string)
  : outcome cstr :=
  match from with
  | Apart => Done (strdup ok s)
  | In_title | In_director => Undef
  end.

(** [update_movie] with the places of its two string arguments. *)
Definition update_movie (title_copy director_copy : bool)
    (movie : option Movie) (new_title new_director : cstr)
    (title_from director_from : origin) (new_year : Z)
  : outcome (MovieError * option Movie * list event) :=
  match movie, new_title, new_director with
  | Some m, Some t, Some d =>
      if decide (new_year ≤ 0) then Done (MOVIE_ERROR_NULL_POINTER, movie, [])
      else
        let frees := [Free_str (Rec.title m); Free_str (Rec.director m)] in
        t' ← strdup_from title_copy title_from t;
        let m := set_title m t' in
        d' ← strdup_from director_copy director_from d;
        let m := set_director m d' in
        let m := set_year m new_year in
        Done (MOVIE_SUCCESS, Some m, frees)
  | _, _, _ => Done (MOVIE_ERROR_NULL_POINTER, movie, [])
  end.

End Aliased.

(** ** The slot array and its operations, movie.c and main.c *)

Module Catalog.

(** One cell of the [Movie**] array. [Wild] is the content of a cell that
    [malloc] or [realloc] handed out and that was never assigned. *)
Inductive slot : Type :=
| Null
| Ptr (m : Movie)
| Wild.

(** [entries[i]] as an rvalue. *)
Definition array_get (entries : list slot) (i : Z) : outcome slot :=
  if decide (0 ≤ i) then
    match entries !! Z.to_nat i with
    | Some s => Done s
    | None => Undef
    end
  else Undef.

(** [entries[i] = v]. *)
Definition array_set (entries : list slot) (i : Z) (v : slot)
  : outcome (list slot) :=
  if decide (0 ≤ i < Z.of_nat (length entries))
  then Done (<[Z.to_nat i := v]> entries)
  else Undef.

(** [p == NULL] (also [!p]): an indeterminate pointer has no usable value. *)
Definition is_null (p : slot) : outcome bool :=
  match p with
  | Null => Done true
  | Ptr _ => Done false
  | Wild => Undef
  end.

(** [*p]. *)
Definition deref (p : slot) : outcome Movie :=
  match p with
  | Ptr m => Done m
  | _ => Undef
  end.

(** [realloc(entries, n * sizeof(void* ))]: null when refused (a negative [n]
    converts to a size no allocator grants), else a block of [n] cells that
    starts with the old content. A request for zero bytes is left
    undefined. *)
Definition realloc (granted : bool) (entries : list slot) (n : Z)
  : outcome (option (list slot)) :=
  if decide (n = 0) then Undef
  else if decide (n < 0) then Done None
  else if granted then Done (Some (resize (Z.to_nat n) Wild entries))
  else Done None.

(** [resize_entries], main.c: the new block (or null) and the capacity as
    left in [*capacity]. *)
Definition resize_entries (granted : bool) (entries : list slot) (capacity : Z)
  : outcome (option (list slot) * Z) :=
  capacity ← int_of (capacity * 2);
  r ← realloc granted entries capacity;
  Done (r, capacity).

(** The loop [for (i = index; i < *count - 1; i++) movies[i] = movies[i+1]]
    of [delete_movie], with [n] iterations left. *)
Fixpoint shift_up (n : nat) (movies : list slot) (i : Z)
  : outcome (list slot) :=
  match n with
  | O => Done movies
  | S n =>
      v ← array_get movies (i + 1);
      movies ← array_set movies i v;
      shift_up n movies (i + 1)
  end.

Definition invalid_index : list event :=
  [Popup "WARNING" ("Invalid index or movie already deleted." +:+ LF)].

(** [delete_movie], movie.c. [ch] is the key that [getch] returns after the
    confirmation popup. The result is the array, [*count] and the effects. *)
Definition delete_movie (movies : list slot) (count index : Z) (ch : Z)
  : outcome (list slot * Z * list event) :=
  if decide (index < 0) then Done (movies, count, invalid_index)
  else if decide (index >= count) then Done (movies, count, invalid_index)
  else
    p ← array_get movies index;
    empty ← is_null p;
    if (empty : bool) then Done (movies, count, invalid_index)
    else
      let ask := Popup "INFO" "Delete selected movie? (y/n): " in
      if decide (ch = chr "y" ∨ ch = chr "Y") then
        m ← deref p;
        let frees :=
          [Free_str (title m); Free_str (director m); Free_movie m] in
        movies ← array_set movies index Null;
        movies ← shift_up (Z.to_nat (count - 1 - index)) movies index;
        movies ← array_set movies (count - 1) Null;
        count ← int_of (count - 1);
        Done (movies, count,
              ask :: frees ++ [Popup "INFO" "Movie deleted successfully!"])
      else if decide (ch = chr "n" ∨ ch = chr "N") then
        Done (movies, count, [ask; Popup "INFO" "Deletion canceled."])
      else
        Done (movies, count,
              [ask; Popup "WARNING" "Invalid input. Deletion canceled."]).

(** [handle_deletion], movie.c. *)
Definition handle_deletion (movies : list slot) (count selected_index : Z)
    (ch : Z) : outcome (list slot * Z * list event) :=
  if decide (selected_index < 0 ∨ selected_index >= count) then
    Done (movies, count,
          [Popup "WARNING"
                 "No movie is selected or the selected movie is invalid."])
  else delete_movie movies count selected_index ch.

End Catalog.

Export Catalog.

(** ** The catalogue held by [main], main.c *)

Module Main.

(** The locals [movies], [movie_count] and [movie_capacity] of [main].
    [movies] is [None] when the pointer is null. *)
Record catalog : Type := mkCatalog {
  movies : option (list slot);
  movie_count : Z;
  movie_capacity : Z
}.

(** The block a non-null array pointer designates. *)
Definition block_of (p : option (list slot)) : outcome (list slot) :=
  match p with
  | Some entries => Done entries
  | None => Undef
  end.

(** [main] starts with [malloc(movie_capacity * sizeof(Movie* ))]. *)
Definition initial (capacity : Z) : catalog :=
  mkCatalog (Some (replicate (Z.to_nat capacity) Wild)) 0 capacity.

(** The scan [for (i = 0; i < movie_count; i++) if (movies[i] == NULL)
    { insert_index = i; break; }] with [n] iterations left; [-1] when the
    loop ends without a hit. *)
Fixpoint first_null (n : nat) (movies : option (list slot)) (i : Z)
  : outcome Z :=
  match n with
  | O => Done (-1)
  | S n =>
      entries ← block_of movies;
      p ← array_get entries i;
      empty ← is_null p;
      if (empty : bool) then Done i else first_null n movies (i + 1)
  end.

(** The second half of the [MENU_MOVIE_ADD] case: gap scan, construction
    and placement. [title], [director] and [year] are what the input loop
    has accepted. *)
Definition insert_movie (h : heap) (title director : string) (year : Z)
    (st : catalog) : outcome (catalog * list event) :=
  insert_index ← first_null (Z.to_nat (movie_count st)) (movies st) 0;
  let '(new_movie, shown) := create_movie h (Some title) (Some director) year in
  match new_movie with
  | Some m =>
      if decide (insert_index ≠ -1) then
        entries ← block_of (movies st);
        entries ← array_set entries insert_index (Ptr m);
        Done (mkCatalog (Some entries) (movie_count st) (movie_capacity st),
              shown)
      else
        entries ← block_of (movies st);
        entries ← array_set entries (movie_count st) (Ptr m);
        count ← int_of (movie_count st + 1);
        Done (mkCatalog (Some entries) count (movie_capacity st), shown)
  | None =>
      Done (st, shown ++ [Popup "ERROR"
                                ("Failed to create a new movie entry." +:+ LF)])
  end.

(** The [MENU_MOVIE_ADD] case of [main]. [granted] tells whether a
    [realloc] issued by this case succeeds. *)
Definition menu_movie_add (granted : bool) (h : heap)
    (title director : string) (year : Z) (st : catalog)
  : outcome (catalog * list event) :=
  if decide (movie_count st = movie_capacity st) then
    '(temp, capacity) ← resize_entries granted (default [] (movies st))
                                       (movie_capacity st);
    match temp with
    | None =>
        Done (mkCatalog (movies st) (movie_count st) capacity,
              [Popup "ERROR" ("Failed to resize movie array." +:+ LF)])
    | Some temp =>
        insert_movie h title director year
                     (mkCatalog (Some temp) (movie_count st) capacity)
    end
  else insert_movie h title director year st.

(** One pass through the [MENU_MOVIE_ADD] case. *)
Record add_request : Type := mkAdd {
  add_granted : bool;
  add_heap : heap;
  add_title : string;
  add_director : string;
  add_year : Z
}.

Definition add (r : add_request) (st : catalog) : outcome catalog :=
  '(st, _) ← menu_movie_add (add_granted r) (add_heap r) (add_title r)
                            (add_director r) (add_year r) st;
  Done st.

(** Successive passes; the result lists the catalogue after each. *)
Fixpoint adds (rs : list add_request) (st : catalog)
  : outcome (list catalog) :=
  match rs with
  | [] => Done []
  | r :: rs =>
      st ← add r st;
      later ← adds rs st;
      Done (st :: later)
  end.

End Main.

Export Main.

(** ** The text file, main.c *)

Module Codec.

Definition NUL : ascii := "000".
Definition newline : ascii := "010".
Definition pipe : ascii := "|".

(** *** Strings in a character buffer

    A buffer is the sequence of characters stored in a [char] array up to
    its last terminator; the terminator itself is left implicit. Earlier
    NUL characters may occur inside it. *)

(** The C string at the start of a buffer. *)
Fixpoint c_str (buf : string) : string :=
  match buf with
  | EmptyString => EmptyString
  | String c rest =>
      if Ascii.eqb c NUL then EmptyString else String c (c_str rest)
  end.

(** [buf + p]. *)
Fixpoint advance (p : nat) (buf : string) : string :=
  match p, buf with
  | S p, String _ rest => advance p rest
  | _, _ => buf
  end.

(** [buf[k] = 0]. At the end of the content this rewrites the terminator. *)
Fixpoint terminate_at (k : nat) (buf : string) : string :=
  match buf with
  | EmptyString => EmptyString
  | String c rest =>
      match k with
      | O => String NUL rest
      | S k => String c (terminate_at k rest)
      end
  end.

(** [buf[p] == 0]. *)
Definition at_end (buf : string) (p : nat) : bool :=
  match advance p buf with
  | String c _ => Ascii.eqb c NUL
  | EmptyString => true
  end.

(** [strspn(s, d)] and [strcspn(s, d)] for a one-character set [d]. *)
Fixpoint strspn (s : string) (d : ascii) : nat :=
  match s with
  | String c rest =>
      if Ascii.eqb c NUL then O
      else if Ascii.eqb c d then S (strspn rest d) else O
  | EmptyString => O
  end.

Fixpoint strcspn (s : string) (d : ascii) : nat :=
  match s with
  | String c rest =>
      if Ascii.eqb c NUL then O
      else if Ascii.eqb c d then O else S (strcspn rest d)
  | EmptyString => O
  end.

(** [strtok] on the buffer [buf], resuming at offset [from] (0 for the call
    that passes the buffer, the saved offset for a call that passes null):
    the offset of the token or null, the buffer as rewritten, and the offset
    saved for the next call. *)
Definition strtok (buf : string) (from : nat) (d : ascii)
  : option nat * string * nat :=
  let s := (from + strspn (advance from buf) d)%nat in
  if at_end buf s then (None, buf, s)
  else
    let e := (s + strcspn (advance s buf) d)%nat in
    if at_end buf e then (Some s, buf, e)
    else (Some s, terminate_at e buf, S e).

(** *** [atoi] *)

Definition isspace (c : ascii) : bool :=
  let n := nat_of_ascii c in
  (n =? 32)%nat || ((9 <=? n)%nat && (n <=? 13)%nat).

Definition isdigit (c : ascii) : bool :=
  let n := nat_of_ascii c in (48 <=? n)%nat && (n <=? 57)%nat.

Fixpoint skip_spaces (s : string) : string :=
  match s with
  | String c rest => if isspace c then skip_spaces rest else s
  | EmptyString => s
  end.

(** The value of the leading decimal digits, continuing from [acc]. *)
Fixpoint digits (acc : Z) (s : string) : Z :=
  match s with
  | String c rest =>
      if isdigit c then digits (acc * 10 + (Z.of_nat (nat_of_ascii c) - 48)) rest
      else acc
  | EmptyString => acc
  end.

(** [atoi]: white space, an optional sign, decimal digits; a value outside
    [int] is undefined. *)
Definition atoi (s : string) : outcome Z :=
  match skip_spaces s with
  | String c rest =>
      if Ascii.eqb c "-" then int_of (- digits 0 rest)
      else if Ascii.eqb c "+" then int_of (digits 0 rest)
      else int_of (digits 0 (String c rest))
  | EmptyString => int_of 0
  end.

(** *** Saving *)

(** One [fprintf(file, "%s|%s|%d|%.1f\n", ...)]. *)
Definition save_line (m : Movie) : outcome string :=
  t ← str_arg (title m);
  d ← str_arg (director m);
  Done (t +:+ "|" +:+ d +:+ "|" +:+ fmt_d (year m) +:+ "|"
          +:+ fmt_1f (rating m) +:+ LF).

(** The loop of [save_movies_to_file] with [n] iterations left; [out] is
    what has been written so far. *)
Fixpoint save_loop (n : nat) (movies : option (list slot)) (i : Z)
    (out : string) : outcome string :=
  match n with
  | O => Done out
  | S n =>
      entries ← block_of movies;
      p ← array_get entries i;
      empty ← is_null p;
      if (empty : bool) then save_loop n movies (i + 1) out
      else
        m ← deref p;
        text ← save_line m;
        save_loop n movies (i + 1) (out +:+ text)
  end.

(** [save_movies_to_file]. [opened] tells whether [fopen(filename, "w")]
    succeeds and [old] is the file before the call ([None]: no such file);
    the result is the file after the call. *)
Definition save_movies_to_file (opened : bool) (old : option string)
    (movies : option (list slot)) (count : Z)
  : outcome (option string * list event) :=
  if opened then
    text ← save_loop (Z.to_nat count) movies 0 EmptyString;
    Done (Some text, [])
  else Done (old, [Perror "Error opening file for writing"]).

(** *** Loading *)

(** [fgets(line, room + 1, file)]: the characters stored and the rest of
    the file. *)
Fixpoint fgets (room : nat) (file : string) : string * string :=
  match room, file with
  | S room, String c rest =>
      if Ascii.eqb c newline then (String c EmptyString, rest)
      else
        let '(line, rest) := fgets room rest in
        (String c line, rest)
  | _, _ => (EmptyString, file)
  end.

(** The body of the [while] loop of [load_movies_from_file] for one line
    as stored by [fgets]. *)
Definition load_line (granted : bool) (h : heap) (line : string)
    (st : catalog) : outcome (catalog * list event) :=
  let line := terminate_at (strcspn line newline) line in
  st ← (if decide (movie_count st = movie_capacity st) then
          '(r, capacity) ← resize_entries granted (default [] (movies st))
                                          (movie_capacity st);
          Done (mkCatalog r (movie_count st) capacity)
        else Done st);
  let '(title, line, saved) := strtok line 0 pipe in
  let '(director, line, saved) := strtok line saved pipe in
  let '(year_str, line, saved) := strtok line saved pipe in
  match title, director, year_str with
  | Some title, Some director, Some year_str =>
      year ← atoi (c_str (advance year_str line));
      let '(movie, shown) :=
        create_movie h (Some (c_str (advance title line)))
                     (Some (c_str (advance director line))) year in
      match movie with
      | Some m =>
          entries ← block_of (movies st);
          entries ← array_set entries (movie_count st) (Ptr m);
          count ← int_of (movie_count st + 1);
          Done (mkCatalog (Some entries) count (movie_capacity st), shown)
      | None => Done (st, shown)
      end
  | _, _, _ =>
      Done (st, [Stderr ("Error parsing line: " +:+ c_str line +:+ LF)])
  end.

(** What the allocator answers while one line is processed. *)
Record line_heap : Type := mkLineHeap {
  line_granted : bool;
  line_block : heap
}.

(** The [while (fgets(line, sizeof(line), file))] loop; [k] counts the
    lines read so far. Every pass consumes at least one character, so a
    [fuel] of the length of the file runs the loop to its end. *)
Fixpoint load_loop (fuel : nat) (env : nat → line_heap) (k : nat)
    (file : string) (st : catalog) (shown : list event)
  : outcome (catalog * list event) :=
  match fuel, file with
  | S fuel, String _ _ =>
      let '(line, rest) := fgets 255 file in
      '(st, more) ← load_line (line_granted (env k)) (line_block (env k))
                              line st;
      load_loop fuel env (S k) rest st (shown ++ more)
  | _, _ => Done (st, shown)
  end.

(** [load_movies_from_file]. [file] is the content of the file, [None]
    when it cannot be opened. *)
Definition load_movies_from_file (file : option string)
    (env : nat → line_heap) (st : catalog)
  : outcome (catalog * list event) :=
  match file with
  | None => Done (st, [Perror "Could not open file for reading"])
  | Some content => load_loop (String.length content) env O content st []
  end.

End Codec.

Export Codec.

(** ** Conditions on a catalogue *)

Module Shape.

(** Cell [k] is the lowest empty cell below [count]. *)
Definition lowest_gap (entries : list slot) (count k : nat) : Prop :=
  (k < count)%nat ∧ entries !! k = Some Null ∧
  ∀ j, (j < k)%nat → entries !! j ≠ Some Null.

(** No cell below [count] is empty. *)
Definition no_gap (entries : list slot) (count : nat) : Prop :=
  ∀ j, (j < count)%nat → entries !! j ≠ Some Null.

(** The state [main] keeps between two menu choices as long as every
    reallocation has been granted: the block has [movie_capacity] cells,
    the count does not exceed it, and the cells below the count have been
    assigned. *)
Definition well_formed (st : catalog) : Prop :=
  0 < movie_capacity st ∧
  0 ≤ movie_count st ≤ movie_capacity st ∧
  ∃ entries,
    movies st = Some entries ∧
    Z.of_nat (length entries) = movie_capacity st ∧
    ∀ j, (j < Z.to_nat (movie_count st))%nat → entries !! j ≠ Some Wild.

(** What one pass through the add case may change, read off two successive
    catalogues: the count never exceeds the capacity, the capacity doubles
    exactly when the pass started with [count = capacity] and is unchanged
    otherwise, and every record keeps its place and its fields. *)
Definition add_effect (before after : catalog) : Prop :=
  movie_count after ≤ movie_capacity after ∧
  (movie_count before = movie_capacity before →
   movie_capacity after = 2 * movie_capacity before) ∧
  (movie_count before ≠ movie_capacity before →
   movie_capacity after = movie_capacity before) ∧
  ∀ entries j m,
    movies before = Some entries →
    (j < Z.to_nat (movie_count before))%nat → entries !! j = Some (Ptr m) →
    ∃ entries', movies after = Some entries' ∧ entries' !! j = Some (Ptr m).

(** [add_effect] along a run. *)
Fixpoint add_effects (st : catalog) (run : list catalog) : Prop :=
  match run with
  | [] => True
  | st' :: run => add_effect st st' ∧ add_effects st' run
  end.

(** The records of the occupied cells, in cell order. *)
Fixpoint occupied (entries : list slot) : list Movie :=
  match entries with
  | [] => []
  | Ptr m :: rest => m :: occupied rest
  | _ :: rest => occupied rest
  end.

(** The line [title|director|year|rating] of the file format, with its
    line feed. *)
Definition record_line (m : Movie) : string :=
  default "" (title m) +:+ "|" +:+ default "" (director m) +:+ "|"
    +:+ fmt_d (year m) +:+ "|" +:+ fmt_1f (rating m) +:+ LF.

(** The lines of a file, one after the other. *)
Definition join (lines : list string) : string :=
  foldr String.append EmptyString lines.

(** [s] consists of decimal digits. *)
Fixpoint all_digits (s : string) : bool :=
  match s with
  | String c rest => isdigit c && all_digits rest
  | EmptyString => true
  end.

(** [s] is decimal digits, a point, and one more digit. *)
Fixpoint digits_point_digit (s : string) : bool :=
  match s with
  | String c rest =>
      if isdigit c then digits_point_digit rest
      else if Ascii.eqb c "." then
        match rest with
        | String d EmptyString => isdigit d
        | _ => false
        end
      else false
  | EmptyString => false
  end.

(** [s] is an optional minus sign, at least one digit, a point, and exactly
    one digit. *)
Definition one_decimal (s : string) : bool :=
  let body :=
    match s with
    | String c rest => if Ascii.eqb c "-" then rest else s
    | EmptyString => s
    end in
  match body with
  | String c rest => isdigit c && digits_point_digit rest
  | EmptyString => false
  end.

(** The fields of [s] between the separators [d]. *)
Fixpoint split_on (d : ascii) (s : string) : list string :=
  match s with
  | EmptyString => [EmptyString]
  | String c rest =>
      if Ascii.eqb c d then EmptyString :: split_on d rest
      else
        match split_on d rest with
        | f :: fs => String c f :: fs
        | [] => [String c EmptyString]
        end
  end.

Definition nonempty (s : string) : bool :=
  match s with
  | EmptyString => false
  | String _ _ => true
  end.

(** The non-empty fields of [s]. *)
Definition tokens (d : ascii) (s : string) : list string :=
  List.filter nonempty (split_on d s).

(** The text of a line as [fgets] stored it: what precedes the line feed
    (or a NUL that the file contains). *)
Fixpoint line_text (raw : string) : string :=
  match raw with
  | String c rest =>
      if Ascii.eqb c NUL || Ascii.eqb c newline then EmptyString
      else String c (line_text rest)
  | EmptyString => EmptyString
  end.

(** [s] contains no NUL. *)
Fixpoint clean (s : string) : bool :=
  match s with
  | String c rest => negb (Ascii.eqb c NUL) && clean rest
  | EmptyString => true
  end.

(** The rest of a buffer after a C string: nothing, or a NUL and more. *)
Definition closes (fin : string) : bool :=
  match fin with
  | String c _ => Ascii.eqb c NUL
  | EmptyString => true
  end.

(** The longest prefix of [s] without [d], and what follows it. *)
Fixpoint word (d : ascii) (s : string) : string :=
  match s with
  | String c rest =>
      if Ascii.eqb c d then EmptyString else String c (word d rest)
  | EmptyString => EmptyString
  end.

Fixpoint after_word (d : ascii) (s : string) : string :=
  match s with
  | String c rest => if Ascii.eqb c d then s else after_word d rest
  | EmptyString => EmptyString
  end.

(** [s] starts, after white space and an optional sign, with a digit. *)
Definition starts_numeric (s : string) : bool :=
  match skip_spaces s with
  | String c rest =>
      if Ascii.eqb c "-" || Ascii.eqb c "+" then
        match rest with
        | String c' _ => isdigit c'
        | EmptyString => false
        end
      else isdigit c
  | EmptyString => false
  end.

(** A cell that [save_movies_to_file] can print: empty, or a record with a
    title, a director and a rating that is a number. *)
Definition printable (p : slot) : Prop :=
  match p with
  | Null => True
  | Ptr m =>
      is_Some (title m) ∧ is_Some (director m) ∧ is_finite (rating m) = true
  | Wild => False
  end.

End Shape.

Export Shape.

(** ** Sample data *)

Module Sample.

(** An allocator that grants everything and hands out zeroed storage. *)
Definition fresh : heap :=
  mkHeap (Some (mkMovie None None 0 float_zero)) true true.

(** An allocator that hands out storage used before, for instance the
    block of a record rated 5 and released since: [free] leaves the bytes of
    [year] and [rating] in place. *)
Definition recycled : heap :=
  mkHeap (Some (mkMovie None None 1999 (float_of_int 5))) true true.

Definition movie_a : Movie := mkMovie (Some "A") (Some "a") 2001 float_zero.
Definition movie_b : Movie :=
  mkMovie (Some "B") (Some "b") 2002 (float_of_int 3).
Definition movie_c : Movie :=
  mkMovie (Some "C") (Some "c") 2003 (float_of_int 5).

(** A block of four cells, three in use. *)
Definition shelf : list slot := [Ptr movie_a; Ptr movie_b; Ptr movie_c; Wild].

(** A full catalogue of two. *)
Definition full : catalog :=
  mkCatalog (Some [Ptr movie_a; Ptr movie_b]) 2 2.

(** Four cells, three counted, the middle one empty. *)
Definition sparse : list slot := [Ptr movie_a; Null; Ptr movie_b; Wild].

(** Four cells, three counted, two records and an empty cell behind. *)
Definition sparse_tail : list slot := [Ptr movie_a; Ptr movie_b; Null; Wild].

(** Four cells, three counted, the lowest empty one at index 1. *)
Definition gappy : catalog :=
  mkCatalog (Some [Ptr movie_a; Null; Null; Wild]) 3 4.

Definition add_a : add_request := mkAdd true fresh "A" "a" 2001.
Definition add_b : add_request := mkAdd true fresh "B" "b" 2002.

(** A file of one good line and one line without separators. *)
Definition two_lines : string :=
  "Inception|Nolan|2010|4.5" +:+ LF +:+ "BadLine" +:+ LF.

(** A file whose first line has one token and whose second line has a
    year that is no number. *)
Definition bad_lines : string :=
  "BadLine" +:+ LF +:+ "Inception|Nolan|soon|4.5" +:+ LF.

(** Every request granted, every block zeroed. *)
Definition calm (k : nat) : line_heap := mkLineHeap true fresh.

(** Every request granted, every block with left-over content. *)
Definition used (k : nat) : line_heap := mkLineHeap true recycled.

Definition inception : Movie :=
  mkMovie (Some "Inception") (Some "Nolan") 2010 float_zero.

End Sample.

Export Sample.

(** ** Records that survive the file *)

Module Stored.

(** [s] has no NUL and no line feed. *)
Fixpoint plain (s : string) : bool :=
  match s with
  | String c rest =>
      negb (Ascii.eqb c NUL) && negb (Ascii.eqb c newline) && plain rest
  | EmptyString => true
  end.

(** [s] has no separator either. *)
Fixpoint unbroken (s : string) : bool :=
  match s with
  | String c rest =>
      negb (Ascii.eqb c NUL) && negb (Ascii.eqb c newline)
      && negb (Ascii.eqb c pipe) && unbroken rest
  | EmptyString => true
  end.

(** A text that [strtok] hands back as one token. *)
Definition field (s : string) : bool := nonempty s && unbroken s.

(** Four texts separated by [|], followed by [z]. *)
Definition layout (t d y r z : string) : string :=
  t +:+ String pipe (d +:+ String pipe (y +:+ String pipe (r +:+ z))).

(** A record whose line [load_movies_from_file] accepts: title and
    director are fields, the year passes [create_movie], the rating is a
    number and the line fits the buffer of [fgets]. *)
Definition storable (m : Movie) : Prop :=
  ∃ t d,
    title m = Some t ∧ director m = Some d ∧
    field t = true ∧ field d = true ∧
    1800 < year m ≤ INT_MAX ∧
    is_finite (rating m) = true ∧
    (String.length (record_line m) ≤ 255)%nat.

Definition storable_slot (p : slot) : Prop :=
  match p with
  | Null => True
  | Ptr m => storable m
  | Wild => False
  end.

(** The allocator grants everything [create_movie] asks for. *)
Definition grants (h : heap) : Prop :=
  is_Some (block h) ∧ title_copy h = true ∧ director_copy h = true.

(** Two records with the same title, director and year. *)
Definition same_fields (m m' : Movie) : Prop :=
  title m' = title m ∧ director m' = director m ∧ year m' = year m.

(** [m'] is what the loader makes of the line of [m]: the three fields of
    the line, and as rating what a block handed out by the allocator
    held. *)
Definition reread (env : nat → line_heap) (m m' : Movie) : Prop :=
  same_fields m m' ∧
  ∃ j blk, block (line_block (env j)) = Some blk ∧ rating m' = rating blk.

(** [s] does not start with a digit. *)
Definition no_digit_first (s : string) : bool :=
  match s with
  | String c _ => negb (isdigit c)
  | EmptyString => true
  end.

(** An effect that is a popup. *)
Definition is_popup (e : event) : Prop :=
  ∃ heading message, e = Popup heading message.

End Stored.

Export Stored.

(** ** The lines of a file *)

Module Lines.











(** The catalogue after the growth step that precedes the parsing of a
    line, when the reallocation is granted; [e] is the block. *)
Definition grown (st : catalog) (e : list slot) : catalog :=
  if decide (movie_count st = movie_capacity st) then
    mkCatalog (Some (resize (Z.to_nat (2 * movie_capacity st)) Wild e))
              (movie_count st) (2 * movie_capacity st)
  else st.

End Lines.

Export Lines.

(** ** Keys typed at the rating prompt *)

Module Typed.

(** [ch] ends the inner loop of [rate_movie]: a line feed or [EOF]. *)
Definition ends_line (ch : Z) : bool :=
  bool_decide (ch = chr "010") || bool_decide (ch = EOF).

(** [ch] is one of the keys ['1'] to ['5']. *)
Definition is_rating (ch : Z) : bool :=
  bool_decide (chr "1" ≤ ch) && bool_decide (ch ≤ chr "5").

(** Keys up to and including the first one that ends the line. *)
Fixpoint to_line_end (keys : list Z) : bool :=
  match keys with
  | [] => false
  | [ch] => ends_line ch
  | ch :: keys => negb (ends_line ch) && to_line_end keys
  end.

(** A rejected entry at the rating prompt: a first key that is no rating,
    and the keys up to the end of that line (the line feed that was the
    first key does not count: the inner loop reads on behind it). *)
Definition rejected (keys : list Z) : bool :=
  match keys with
  | ch :: keys => negb (is_rating ch) && to_line_end keys
  | [] => false
  end.

(** What [rate_movie] shows for one rejected entry. *)
Definition retry (title : string) : list event :=
  [Popup "Warning" ("Invalid rating. Please try again." +:+ LF);
   rating_prompt title].

End Typed.

Export Typed.

(** ** The add dialog, main.c *)

Module Dialog.

(** A call [mvwprintw(input_win, row, col, text)]. *)
Inductive written : Type :=
| Mvwprintw (row col : Z) (text : string).

(** [wgetstr(input_win, buf)] with [buf] an array of [size] characters.
    [typed] is what the terminal delivers before Enter. The call knows no
    bound: a text that does not fit together with its terminator overruns
    the array. The result is the C string found in the array. *)
Definition wgetstr (size : nat) (typed : string) : outcome string :=
  if decide (String.length typed < size)%nat then Done (c_str typed)
  else Undef.

Definition ask_title : written := Mvwprintw 1 2 "Enter movie title: ".
Definition ask_director : written := Mvwprintw 2 2 "Enter movie director: ".
Definition ask_year : written := Mvwprintw 3 2 "Enter movie year: ".
Definition blank_title : written :=
  Mvwprintw 5 2 "Error: Title cannot be blank.".
Definition blank_director : written :=
  Mvwprintw 5 2 "Error: Director cannot be blank.".
Definition bad_year : written :=
  Mvwprintw 5 2 "Error: Please enter a valid year (after 1800).".

(** The loop [while (!valid_title || !valid_director || !valid_year)] of the
    [MENU_MOVIE_ADD] case, one call of [wgetstr] per step. [title] and
    [director] hold the accepted text once [valid_title] and
    [valid_director] are set; they tell which question comes next. [typed]
    lists the texts entered; the result is [None] when they run out with
    the loop still asking. *)
Fixpoint input_loop (current_year : Z) (typed : list string)
    (title director : option string) (shown : list written)
  : outcome (option (string * string * Z) * list written) :=
  match title, director with
  | None, _ =>
      let shown := shown ++ [ask_title] in
      match typed with
      | [] => Done (None, shown)
      | text :: typed =>
          s ← wgetstr 100 text;
          if decide (String.length s = 0%nat) then
            input_loop current_year typed None director (shown ++ [blank_title])
          else input_loop current_year typed (Some s) director shown
      end
  | Some t, None =>
      let shown := shown ++ [ask_director] in
      match typed with
      | [] => Done (None, shown)
      | text :: typed =>
          s ← wgetstr 100 text;
          if decide (String.length s = 0%nat) then
            input_loop current_year typed title None (shown ++ [blank_director])
          else input_loop current_year typed title (Some s) shown
      end
  | Some t, Some d =>
      let shown := shown ++ [ask_year] in
      match typed with
      | [] => Done (None, shown)
      | text :: typed =>
          year_str ← wgetstr 10 text;
          year ← atoi year_str;
          if decide (String.length year_str = 0%nat ∨ year ≤ 1800
                     ∨ year > current_year) then
            input_loop current_year typed title director (shown ++ [bad_year])
          else Done (Some (t, d, year), shown)
      end
  end.

(** An entry that fits a buffer of [size] characters and leaves an empty
    string in it. *)
Definition blank_entry (size : nat) (typed : string) : bool :=
  bool_decide (String.length typed < size)%nat && negb (nonempty (c_str typed)).

(** An entry that fits a buffer of [size] characters and is accepted as a
    title or director. *)
Definition text_entry (size : nat) (typed : string) : bool :=
  bool_decide (String.length typed < size)%nat && nonempty (c_str typed).

(** An entry at the year prompt, which fits its buffer, that the dialog
    turns down: empty, or a number outside 1801 to [current_year]. *)
Definition refused_year (current_year : Z) (typed : string) : bool :=
  bool_decide (String.length typed < 10)%nat &&
  match atoi (c_str typed) with
  | Done year =>
      negb (nonempty (c_str typed)) || bool_decide (year ≤ 1800)
      || bool_decide (year > current_year)
  | Undef => false
  end.

(** What the flags of the dialog stand for: an accepted text is a non-empty
    C string that fits its buffer. *)
Definition accepted (s : option string) : Prop :=
  match s with
  | Some s => nonempty s = true ∧ clean s = true ∧ (String.length s < 100)%nat
  | None => True
  end.

End Dialog.

Export Dialog.

(** ** The main menu, ui.c *)

Module Menu.

(** [MenuOption], ui.h. *)
Inductive MenuOption : Type :=
| MENU_MOVIE_ADD
| MENU_MOVIE_DISPLAY
| MENU_TV_SERIES_ADD
| MENU_TV_SERIES_DISPLAY
| MENU_EXIT.

(** The enumerator with value [z]; the cast [(MenuOption)z] of another
    value names none. *)
Definition menu_option (z : Z) : option MenuOption :=
  if decide (z = 0) then Some MENU_MOVIE_ADD
  else if decide (z = 1) then Some MENU_MOVIE_DISPLAY
  else if decide (z = 2) then Some MENU_TV_SERIES_ADD
  else if decide (z = 3) then Some MENU_TV_SERIES_DISPLAY
  else if decide (z = 4) then Some MENU_EXIT
  else None.

(** [KEY_DOWN] and [KEY_UP], curses.h (0402 and 0403). *)
Definition KEY_DOWN : Z := 258.
Definition KEY_UP : Z := 259.

(** What the menu puts on the screen: the line of help, a call
    [print_menu(menu_win, highlight)], or the [mvprintw] in line 24 that
    reports an unknown key [c]. *)
Inductive drawn : Type :=
| Help (text : string)
| Print_menu (highlight : Z)
| Pressed (c : Z).

(** The [while (1)] loop of [main_menu]; [keys] are the results of
    [wgetch(menu_win)]. The result is [choice] at the [break], or [None] when
    the keys run out before Enter. *)
Fixpoint menu_loop (keys : list Z) (highlight : Z) (shown : list drawn)
  : option (Z * list drawn) :=
  match keys with
  | [] => None
  | c :: keys =>
      let '(highlight, choice, shown) :=
        if decide (c = KEY_UP) then
          (if decide (highlight = 1) then 5 else highlight - 1, 0, shown)
        else if decide (c = KEY_DOWN) then
          (if decide (highlight = 5) then 1 else highlight + 1, 0, shown)
        else if decide (c = 10) then (highlight, highlight, shown)
        else (highlight, 0, shown ++ [Pressed c]) in
      let shown := shown ++ [Print_menu highlight] in
      if decide (choice ≠ 0) then Some (choice, shown)
      else menu_loop keys highlight shown
  end.

(** [main_menu]: the value [choice - 1] that is cast to [MenuOption]. *)
Definition main_menu (keys : list Z) : option (Z * list drawn) :=
  '(choice, shown) ←
    menu_loop keys 1
      [Help "ARROW KEYS TO NAVIGATE, ENTER TO SELECT A CHOICE"; Print_menu 1];
  Some (choice - 1, shown).

(** How often [k] occurs in [keys]. *)
Definition presses (k : Z) (keys : list Z) : Z :=
  Z.of_nat (length (filter (λ c, c = k) keys)).

End Menu.

Export Menu.

(** ** The list view, ui.c *)

Module View.

(** [ERR], curses.h: what [getch] returns when there is no input. *)
Definition ERR : Z := -1.

(** One key read by [wgetch(movies_win)], with the keys that [getch]
    delivers while it is handled ([ERR] once they are used up). *)
Record press : Type := mkPress {
  key : Z;
  answers : list Z
}.

(** A line of the list: window line, whether [A_REVERSE] is on while it is
    printed, and the text. *)
Inductive row : Type :=
| Row (line : Z) (reverse : bool) (text : string).

(** What appears while the list is shown: the rows of one pass of the
    drawing loop, or an effect of [rate_movie], [handle_deletion] or
    [show_popup]. *)
Inductive output : Type :=
| Frame (rows : list row)
| Said (e : event).

Fixpoint spaces (n : nat) : string :=
  match n with
  | O => EmptyString
  | S n => String " " (spaces n)
  end.

(** The first [n] characters of [s]. *)
Fixpoint prefix (n : nat) (s : string) : string :=
  match n, s with
  | S n, String c s => String c (prefix n s)
  | _, _ => EmptyString
  end.

(** [printf]'s [%4d]. *)
Definition fmt_4d (z : Z) : string :=
  let s := fmt_d z in spaces (4 - String.length s) +:+ s.

(** [printf]'s [%-15.15s]. *)
Definition fmt_15s (s : string) : string :=
  let s := prefix 15 s in s +:+ spaces (15 - String.length s).

(** The text of ["%4d |%-15.15s |%-15.15s |%4d - %.1f/5"]. *)
Definition row_text (number : Z) (m : Movie) : outcome string :=
  t ← str_arg (title m);
  d ← str_arg (director m);
  Done (fmt_4d number +:+ " |" +:+ fmt_15s t +:+ " |" +:+ fmt_15s d +:+ " |"
          +:+ fmt_4d (year m) +:+ " - " +:+ fmt_1f (rating m) +:+ "/5").

(** The locals of [display_movie_list_ui]; [reverse] is the state of the
    attribute [A_REVERSE] of the window. *)
Record view : Type := mkView {
  cells : list slot;
  count : Z;
  current_start : Z;
  current_highlight : Z;
  reverse : bool
}.

(** [display_count]. *)
Definition display_count : Z := 5.

(** The drawing loop [for (i = 0; i < display_count &&
    (i + current_start) < count; i++)] with [n] iterations left. An empty
    cell is skipped by [continue], which also skips the [wattroff]. *)
Fixpoint draw_rows (n : nat) (v : view) (i : Z) (reverse : bool)
    (rows : list row) : outcome (list row * bool) :=
  match n with
  | O => Done (rows, reverse)
  | S n =>
      index ← int_of (i + current_start v);
      if decide (index < count v) then
        let reverse :=
          if decide (i = current_highlight v) then true else reverse in
        current_movie ← array_get (cells v) index;
        empty ← is_null current_movie;
        if (empty : bool) then draw_rows n v (i + 1) reverse rows
        else
          m ← deref current_movie;
          number ← int_of (i + 1 + current_start v);
          text ← row_text number m;
          let rows := rows ++ [Row (i + 2) reverse text] in
          let reverse :=
            if decide (i = current_highlight v) then false else reverse in
          draw_rows n v (i + 1) reverse rows
      else Done (rows, reverse)
  end.

(** The case [KEY_UP]. *)
Definition key_up (v : view) : view :=
  if decide (current_highlight v > 0) then
    mkView (cells v) (count v) (current_start v) (current_highlight v - 1)
           (reverse v)
  else if decide (current_start v > 0) then
    mkView (cells v) (count v) (current_start v - 1) (current_highlight v)
           (reverse v)
  else v.

(** The case [KEY_DOWN]. *)
Definition key_down (v : view) : outcome view :=
  last ← int_of (display_count - 1);
  move ← (if decide (current_highlight v < last) then
            index ← int_of (current_highlight v + current_start v);
            last ← int_of (count v - 1);
            Done (bool_decide (index < last))
          else Done false);
  if (move : bool) then
    highlight ← int_of (current_highlight v + 1);
    Done (mkView (cells v) (count v) (current_start v) highlight (reverse v))
  else
    below ← int_of (current_start v + display_count);
    if decide (below < count v) then
      start ← int_of (current_start v + 1);
      Done (mkView (cells v) (count v) start (current_highlight v) (reverse v))
    else Done v.

(** The case ['r']. [None] stands for a [rate_movie] that does not
    return. *)
Definition key_rate (v : view) (keys : list Z)
  : outcome (option (view * list output)) :=
  enter ← (if decide (count v > 0) then
             index ← int_of (current_highlight v + current_start v);
             Done (bool_decide (index < count v))
           else Done false);
  if (enter : bool) then
    index ← int_of (current_highlight v + current_start v);
    p ← array_get (cells v) index;
    empty ← is_null p;
    movie ← (if (empty : bool) then Done None else m ← deref p; Done (Some m));
    match rate_movie movie keys with
    | Some (Some m, shown) =>
        entries ← array_set (cells v) index (Ptr m);
        Done (Some (mkView entries (count v) (current_start v)
                           (current_highlight v) (reverse v),
                    map Said shown))
    | Some (None, shown) => Done (Some (v, map Said shown))
    | None => Done None
    end
  else Done (Some (v, [])).

(** The case ['d']. *)
Definition key_delete (v : view) (keys : list Z)
  : outcome (view * list output) :=
  if decide (count v > 0 ∧ current_highlight v < count v) then
    index ← int_of (current_highlight v + current_start v);
    '(entries, count, shown) ←
      handle_deletion (cells v) (count v) index (hd ERR keys);
    highlight ← (if decide (current_highlight v >= count)
                 then int_of (count - 1) else Done (current_highlight v));
    let start :=
      if decide (highlight < current_start v) then highlight
      else current_start v in
    let '(highlight, start) :=
      if decide (count = 0) then (0, 0) else (highlight, start) in
    Done (mkView entries count start highlight (reverse v), map Said shown)
  else Done (v, [Said (Popup "WARNING" "No movies to delete.")]).

(** The [while (1)] loop. The result is the array as the function leaves
    it, or [None] when it does not return: the keys run out before [q], or
    [rate_movie] keeps asking. *)
Fixpoint view_loop (presses : list press) (v : view) (shown : list output)
  : outcome (option (list slot * list output)) :=
  '(rows, reverse) ← draw_rows (Z.to_nat display_count) v 0 (reverse v) [];
  let v := mkView (cells v) (count v) (current_start v) (current_highlight v)
                  reverse in
  let shown := shown ++ [Frame rows] in
  match presses with
  | [] => Done None
  | p :: presses =>
      if decide (key p = KEY_UP) then view_loop presses (key_up v) shown
      else if decide (key p = KEY_DOWN) then
        v ← key_down v; view_loop presses v shown
      else if decide (key p = chr "r") then
        r ← key_rate v (answers p);
        match r with
        | Some (v, more) => view_loop presses v (shown ++ more)
        | None => Done None
        end
      else if decide (key p = chr "d") then
        '(v, more) ← key_delete v (answers p);
        view_loop presses v (shown ++ more)
      else if decide (key p = chr "q") then Done (Some (cells v, shown))
      else view_loop presses v shown
  end.

(** [display_movie_list_ui]. [count] is passed by value: what the caller
    gets back is the array alone. *)
Definition display_movie_list_ui (movies : option (list slot)) (count : Z)
    (presses : list press)
  : outcome (option (option (list slot) * list output)) :=
  match movies with
  | None => Done (Some (None, []))
  | Some entries =>
      r ← view_loop presses (mkView entries count 0 0 false) [];
      match r with
      | Some (entries, shown) => Done (Some (Some entries, shown))
      | None => Done None
      end
  end.

(** The records [ms] fill the first cells below [count], and the cells
    behind them, up to [count], are empty. *)
Definition packed (entries : list slot) (count : Z) (ms : list Movie) : Prop :=
  0 ≤ count ≤ Z.of_nat (length entries) ∧
  Z.of_nat (length ms) ≤ count ∧
  take (Z.to_nat count) entries
  = map Ptr ms ++ replicate (Z.to_nat count - length ms) Null.

(** A record with a title and a director. *)
Definition titled (m : Movie) : Prop :=
  is_Some (title m) ∧ is_Some (director m).

(** [ms'] is [ms] with some records taken out and some ratings changed. *)
Definition thinned (ms ms' : list Movie) : Prop :=
  ∃ kept, sublist kept ms ∧ Forall2 same_fields kept ms'.

(** The array as a whole: the records [ms], empty cells up to cell [c0],
    and [tail] behind them. *)
Definition laid_out (c0 : nat) (tail : list slot) (ms : list Movie)
    (entries : list slot) : Prop :=
  (length ms ≤ c0)%nat ∧
  entries = map Ptr ms ++ replicate (c0 - length ms) Null ++ tail.

(** What holds of the locals of the list view between two keys. *)
Definition steady (c0 : nat) (tail : list slot) (ms : list Movie) (v : view)
  : Prop :=
  laid_out c0 tail ms (cells v) ∧ Forall titled ms ∧
  Z.of_nat (length ms) ≤ count v ≤ Z.of_nat c0 ∧
  0 ≤ current_highlight v ≤ 4 ∧ 0 ≤ current_start v ≤ Z.of_nat c0.

(** The key [ch] confirms a deletion. *)
Definition confirms (ch : Z) : bool :=
  bool_decide (ch = chr "y" ∨ ch = chr "Y").

(** How many of the keys are a [d] that is answered by [y] or [Y]. *)
Fixpoint confirmed (presses : list press) : nat :=
  match presses with
  | [] => O
  | p :: presses =>
      ((if bool_decide (key p = chr "d") && confirms (hd ERR (answers p))
        then 1 else 0) + confirmed presses)%nat
  end.

End View.

Export View.

(** ** The popup window, popup.c *)

Module Popup.

(** [MAX_POPUP_WIDTH] and [POPUP_MARGIN]. *)
Definition MAX_POPUP_WIDTH : Z := 60.
Definition POPUP_MARGIN : Z := 3.

(** [strlen] as a number. *)
Definition strlen (s : string) : Z := Z.of_nat (String.length s).

(** [strchr(s, c)] on a string without NUL: the offset of the first [c]. *)
Fixpoint strchr (s : string) (c : ascii) : option nat :=
  match s with
  | EmptyString => None
  | String a rest =>
      if Ascii.eqb a c then Some O else S <$> strchr rest c
  end.

(** What is left of [s] behind its first [k] characters. *)
Fixpoint behind (k : nat) (s : string) : string :=
  match k, s with
  | S k, String _ rest => behind k rest
  | _, _ => s
  end.

(** A call [mvwprintw(popupwin, line, column, ...)] with the text it
    writes. *)
Inductive placed : Type :=
| At (line column : Z) (text : string).

(** The window and what is written into it. *)
Record popup : Type := mkPopup {
  win_length : Z;
  win_width : Z;
  win_starty : Z;
  win_startx : Z;
  heading : option placed;
  body : list placed
}.

(** The conversion of a [size_t] value to [int] (LP64, as gcc does it). *)
Definition int_cast (z : Z) : Z := (z + 2 ^ 31) mod 2 ^ 32 - 2 ^ 31.

(** The [while] loop that places the words, with [n] iterations left. A
    word that does not fit behind the last one starts the next line, and
    is written with a blank behind it. *)
Fixpoint wrap_loop (n : nat) (current_line : string) (line column : Z)
    (message_width : Z) (shown : list placed) : list placed :=
  match n with
  | O => shown
  | S n =>
      let next_line := strchr current_line " " in
      let len :=
        match next_line with
        | Some k => Z.of_nat k
        | None => strlen current_line
        end in
      if bool_decide (next_line = None) && bool_decide (len ≤ 0) then shown
      else
        let text := prefix (Z.to_nat len) current_line in
        let '(line, column, shown) :=
          if decide (column + len < message_width) then
            (line, column + (len + 1), shown ++ [At line column text])
          else
            (line + 1, POPUP_MARGIN + (len + 1),
             shown ++ [At (line + 1) POPUP_MARGIN (text +:+ " ")]) in
        match next_line with
        | None => shown
        | Some k =>
            wrap_loop n (behind (S k) current_line) line column message_width
                      shown
        end
  end.

(** [show_popup] up to the point where it waits for a key. [rows] and
    [cols] are what [getmaxyx] reports and [formatted] is the text that the
    format and its arguments give. *)
Definition show_popup (rows cols : Z) (title : cstr) (formatted : string)
  : outcome popup :=
  let message := c_str (prefix 255 formatted) in
  let width :=
    if decide (strlen message + 2 * POPUP_MARGIN < MAX_POPUP_WIDTH)
    then strlen message + 2 * POPUP_MARGIN else MAX_POPUP_WIDTH in
  let startx := (cols - width) ÷ 2 in
  if decide (width - 2 * POPUP_MARGIN = 0) then Undef
  else
    let message_lines := strlen message / (width - 2 * POPUP_MARGIN) + 1 in
    let length := message_lines + 2 * POPUP_MARGIN in
    let starty := (rows - length) ÷ 2 in
    let heading :=
      match title with
      | Some t =>
          Some (At 1 (int_cast ((width - strlen t) mod 2 ^ 64 / 2)) t)
      | None => None
      end in
    let line := if title is Some _ then 3 else 1 in
    let message_width := width - 2 * POPUP_MARGIN in
    Done (mkPopup length width starty startx heading
            (wrap_loop (S (String.length message)) message line POPUP_MARGIN
                       message_width [])).

(** A text placed inside the frame of a window of the given size: not in
    the border, and behind the line under the title. *)
Definition inside (length width first : Z) (p : placed) : Prop :=
  match p with
  | At line column text =>
      first ≤ line ≤ length - 2 ∧
      1 ≤ column ∧ column + strlen text ≤ width - 1
  end.

(** The words of a message: what stands between its blanks, a blank at
    the end not counting as the start of a word. *)
Fixpoint words (s : string) : list string :=
  match s with
  | EmptyString => []
  | String c rest =>
      if Ascii.eqb c " " then EmptyString :: words rest
      else
        match words rest with
        | [] => [String c EmptyString]
        | w :: ws => String c w :: ws
        end
  end.

(** The words [ws] set out from [line], [column] on: a word goes behind
    the last one when it ends before column [width]; if not, it goes to
    the margin of the next line and gets a blank behind it. Either way the
    next word starts one column behind the end of the word. *)
Fixpoint set_out (width line column : Z) (ps : list placed)
    (ws : list string) : Prop :=
  match ps, ws with
  | [], [] => True
  | p :: ps, w :: ws =>
      if decide (column + strlen w < width) then
        p = At line column w ∧
        set_out width line (column + (strlen w + 1)) ps ws
      else
        p = At (line + 1) POPUP_MARGIN (w +:+ " ") ∧
        set_out width (line + 1) (POPUP_MARGIN + (strlen w + 1)) ps ws
  | _, _ => False
  end.

End Popup.

Export Popup.

(** ** TV series, tv_series.c *)

Module Series.

(** [TV_Series], tv_series.h. *)
Record TV_Series : Type := mkSeries {
  title : cstr;
  creator : cstr;
  seasons : Z;
  episodes : Z
}.

(** [TV_SeriesError], tv_series.h. *)
Inductive TV_SeriesError : Type :=
| TV_SERIES_SUCCESS
| TV_SERIES_ERROR_NULL_POINTER
| TV_SERIES_ERROR_MEMORY_ALLOCATION.

(** [create_tv_series]. [allocated] tells whether [malloc] succeeds, the
    two other flags whether each [strdup] does; their results are stored
    unchecked. *)
Definition create_tv_series (allocated title_copy creator_copy : bool)
    (title creator : cstr) (seasons episodes : Z) : option TV_Series :=
  match title, creator with
  | Some t, Some c =>
      if decide (seasons < 1 ∨ episodes < 1) then None
      else if allocated then
        Some (mkSeries (strdup title_copy t) (strdup creator_copy c)
                       seasons episodes)
      else None
  | _, _ => None
  end.

(** [update_tv_series]. *)
Definition update_tv_series (title_copy creator_copy : bool)
    (series : option TV_Series) (new_title new_creator : cstr)
    (new_seasons new_episodes : Z) : TV_SeriesError * option TV_Series :=
  match series, new_title, new_creator with
  | Some s, Some t, Some c =>
      if decide (new_seasons < 1 ∨ new_episodes < 1) then
        (TV_SERIES_ERROR_NULL_POINTER, series)
      else
        (TV_SERIES_SUCCESS,
         Some (mkSeries (strdup title_copy t) (strdup creator_copy c)
                        new_seasons new_episodes))
  | _, _, _ => (TV_SERIES_ERROR_NULL_POINTER, series)
  end.

(** [display_tv_series]: the text written to the standard output. *)
Definition display_tv_series (series : option TV_Series) : outcome string :=
  match series with
  | Some s =>
      t ← str_arg (title s);
      c ← str_arg (creator s);
      Done ("Title: " +:+ t +:+ LF +:+ "Creator: " +:+ c +:+ LF
              +:+ "Seasons: " +:+ fmt_d (seasons s) +:+ LF
              +:+ "Episodes: " +:+ fmt_d (episodes s) +:+ LF)
  | None => Done EmptyString
  end.

(** The sign of [strcmp(a, b)]: the strings are compared character by
    character as [unsigned char]. *)
Fixpoint strcmp (a b : string) : comparison :=
  match a, b with
  | EmptyString, EmptyString => Eq
  | EmptyString, String _ _ => Lt
  | String _ _, EmptyString => Gt
  | String x a, String y b =>
      match Nat.compare (nat_of_ascii x) (nat_of_ascii y) with
      | Eq => strcmp a b
      | c => c
      end
  end.

(** [series[i]] in an array of pointers, [None] being the null pointer. *)
Definition element (series : list (option TV_Series)) (i : Z)
  : outcome (option TV_Series) :=
  if decide (0 ≤ i) then
    match series !! Z.to_nat i with
    | Some p => Done p
    | None => Undef
    end
  else Undef.

(** [series[i] = p]. *)
Definition store_element (series : list (option TV_Series)) (i : Z)
    (p : option TV_Series) : outcome (list (option TV_Series)) :=
  if decide (0 ≤ i < Z.of_nat (length series))
  then Done (<[Z.to_nat i := p]> series)
  else Undef.

(** [p->title] as an argument of [strcmp]. *)
Definition title_of (p : option TV_Series) : outcome string :=
  match p with
  | Some s => str_arg (title s)
  | None => Undef
  end.

(** The loop of [search_tv_series] with [n] iterations left. *)
Fixpoint search_loop (n : nat) (series : list (option TV_Series)) (i : Z)
    (wanted : cstr) : outcome (option TV_Series) :=
  match n with
  | O => Done None
  | S n =>
      p ← element series i;
      a ← title_of p;
      b ← str_arg wanted;
      if strcmp a b is Eq then Done p
      else search_loop n series (i + 1) wanted
  end.

(** [search_tv_series]. *)
Definition search_tv_series (series : list (option TV_Series)) (count : Z)
    (wanted : cstr) : outcome (option TV_Series) :=
  search_loop (Z.to_nat count) series 0 wanted.

(** The [for] loop of [sort_tv_series] with [n] iterations left. *)
Fixpoint sort_pass (n : nat) (series : list (option TV_Series)) (i : Z)
    (swapped : bool) : outcome (list (option TV_Series) * bool) :=
  match n with
  | O => Done (series, swapped)
  | S n =>
      p ← element series i;
      a ← title_of p;
      q ← element series (i + 1);
      b ← title_of q;
      if strcmp a b is Gt then
        series ← store_element series i q;
        series ← store_element series (i + 1) p;
        sort_pass n series (i + 1) true
      else sort_pass n series (i + 1) swapped
  end.

(** [sort_tv_series]: the [do ... while (swapped)] loop with at most
    [passes] passes; [None] when it has not ended by then. *)
Fixpoint sort_tv_series (passes : nat) (series : list (option TV_Series))
    (count : Z) : outcome (option (list (option TV_Series))) :=
  match passes with
  | O => Done None
  | S passes =>
      last ← int_of (count - 1);
      '(series, swapped) ← sort_pass (Z.to_nat last) series 0 false;
      if (swapped : bool) then sort_tv_series passes series count
      else Done (Some series)
  end.

(** The title of [s] does not come behind that of [s']. *)
Definition in_order (s s' : TV_Series) : Prop :=
  ∃ a b, title s = Some a ∧ title s' = Some b ∧ strcmp a b ≠ Gt.

(** Every record is in order with the next one. *)
Fixpoint ascending (l : list TV_Series) : Prop :=
  match l with
  | s :: (s' :: _) as rest => in_order s s' ∧ ascending rest
  | _ => True
  end.

(** [s] comes behind [s'], by title. *)
Definition behind_of (s s' : TV_Series) : bool :=
  match title s, title s' with
  | Some a, Some b => if strcmp a b is Gt then true else false
  | _, _ => false
  end.

(** The number of pairs of records that stand in the wrong order. *)
Fixpoint disorder (l : list TV_Series) : nat :=
  match l with
  | [] => O
  | s :: l => (length (filter (λ s', behind_of s s' = true) l) + disorder l)%nat
  end.

(** One pass of the sort, on the records themselves: [s] is carried along
    until a record that does not come before it is met. *)
Fixpoint bubble (s : TV_Series) (l : list TV_Series)
  : list TV_Series * bool :=
  match l with
  | [] => ([s], false)
  | s' :: l =>
      if behind_of s s' then
        let '(r, _) := bubble s l in (s' :: r, true)
      else
        let '(r, swapped) := bubble s' l in (s :: r, swapped)
  end.

(** A record with a title. *)
Definition named (s : TV_Series) : Prop := is_Some (title s).

(** Sorted by title: no record comes behind a later one. *)
Definition sorted_by_title (l : list TV_Series) : Prop :=
  ∀ i j s s', (i < j)%nat → l !! i = Some s → l !! j = Some s' →
              in_order s s'.

(** The records with the title [wanted], as [search_tv_series] tests
    them. *)
Definition has_title (wanted : string) (s : TV_Series) : bool :=
  bool_decide (title s = Some wanted).

End Series.

(** ** The program, main.c *)

Module Program.

(** What the environment supplies during one pass of the [do] loop of
    [main]. *)
Record turn : Type := mkTurn {
  menu_keys : list Z;      (* the keys read by [main_menu] *)
  granted : bool;          (* whether [realloc] succeeds in the add case *)
  allocator : heap;        (* what [create_movie] obtains *)
  current_year : Z;        (* the year that [time] and [localtime] give *)
  typed : list string;     (* the entries at the add dialog *)
  list_keys : list press;  (* the keys typed in the list view *)
  opened : bool;           (* whether [fopen] succeeds in the exit case *)
  reopened : bool          (* whether [fopen] succeeds behind the loop *)
}.

(** What [main] keeps between two passes: the catalogue and the flag
    [data_changed]; [disk] is the content of movies.txt. *)
Record session : Type := mkSession {
  store : catalog;
  data_changed : bool;
  disk : option string
}.

(** What the program shows or does, in order. *)
Inductive trace : Type :=
| Menu (d : drawn)
| Dialog (w : written)
| Listed (o : output)
| Effect (e : event)
| Ui_print_error (text : string)
| Free_array.

(** The case [MENU_MOVIE_ADD]. A failed reallocation leaves the [switch] by
    [break], before [data_changed] is set. [None] stands for a dialog that
    is still asking. *)
Definition case_add (t : turn) (s : session)
  : outcome (option (session * list trace)) :=
  let st := store s in
  grown ← (if decide (movie_count st = movie_capacity st) then
             '(temp, capacity) ← resize_entries (granted t)
                                   (default [] (movies st)) (movie_capacity st);
             match temp with
             | None =>
                 Done (inl (mkCatalog (movies st) (movie_count st) capacity))
             | Some temp =>
                 Done (inr (mkCatalog (Some temp) (movie_count st) capacity))
             end
           else Done (inr st));
  match grown with
  | inl st =>
      Done (Some (mkSession st (data_changed s) (disk s),
                  [Effect (Popup "ERROR"
                                 ("Failed to resize movie array." +:+ LF))]))
  | inr st =>
      '(entered, shown) ← input_loop (current_year t) (typed t) None None [];
      match entered with
      | Some (title, director, year) =>
          '(st, said) ← insert_movie (allocator t) title director year st;
          Done (Some (mkSession st true (disk s),
                      map Dialog shown ++ map Effect said))
      | None => Done None
      end
  end.

(** The case [MENU_MOVIE_DISPLAY]. The count stays what it was: the list
    view works on a copy of it. *)
Definition case_display (t : turn) (s : session)
  : outcome (option (session * list trace)) :=
  let st := store s in
  if decide (movie_count st = 0) then
    Done (Some (mkSession st true (disk s),
                [Effect (Popup "WARNING" ("No movies to display!" +:+ LF))]))
  else
    r ← display_movie_list_ui (movies st) (movie_count st) (list_keys t);
    match r with
    | Some (entries, shown) =>
        Done (Some (mkSession (mkCatalog entries (movie_count st)
                                         (movie_capacity st))
                              true (disk s),
                    map Listed shown))
    | None => Done None
    end.

(** The case [MENU_EXIT]. *)
Definition case_exit (t : turn) (s : session)
  : outcome (session * list trace) :=
  if data_changed s then
    '(file, said) ← save_movies_to_file (opened t) (disk s)
                      (movies (store s)) (movie_count (store s));
    Done (mkSession (store s) (data_changed s) file, map Effect said)
  else Done (s, []).

(** The loop [for (i = 0; i < movie_count; ++i) free(movies[i])] with [n]
    iterations left: the record blocks released. *)
Fixpoint release (n : nat) (movies : option (list slot)) (i : Z)
  : outcome (list event) :=
  match n with
  | O => Done []
  | S n =>
      entries ← block_of movies;
      p ← array_get entries i;
      rest ← release n movies (i + 1);
      match p with
      | Null => Done rest
      | Ptr m => Done (Free_movie m :: rest)
      | Wild => Undef
      end
  end.

(** What follows the loop: the file is written once more, the record
    blocks and the array are released, and [main] returns 0. *)
Definition finish (t : turn) (s : session) (shown : list trace)
  : outcome (Z * option string * list trace) :=
  '(file, said) ← save_movies_to_file (reopened t) (disk s)
                    (movies (store s)) (movie_count (store s));
  freed ← release (Z.to_nat (movie_count (store s))) (movies (store s)) 0;
  Done (0, file,
        shown ++ map Effect said ++ map Effect freed
          ++ [Free_array;
              Effect (Popup "WARNING" ("Exiting Program..." +:+ LF))]).

(** The [do ... while (choice != MENU_EXIT)] loop and what follows it, one
    [turn] per pass. The result is the exit status, the file and what was
    shown; [None] when the turns run out before the exit is chosen or a
    pass does not end. *)
Fixpoint main_loop (turns : list turn) (s : session) (shown : list trace)
  : outcome (option (Z * option string * list trace)) :=
  match turns with
  | [] => Done None
  | t :: turns =>
      match main_menu (menu_keys t) with
      | None => Done None
      | Some (choice, drawn) =>
          let shown := shown ++ map Menu drawn in
          match menu_option choice with
          | Some MENU_MOVIE_ADD =>
              r ← case_add t s;
              match r with
              | Some (s, more) => main_loop turns s (shown ++ more)
              | None => Done None
              end
          | Some MENU_MOVIE_DISPLAY =>
              r ← case_display t s;
              match r with
              | Some (s, more) => main_loop turns s (shown ++ more)
              | None => Done None
              end
          | Some MENU_TV_SERIES_ADD | Some MENU_TV_SERIES_DISPLAY =>
              main_loop turns s shown
          | Some MENU_EXIT =>
              '(s, more) ← case_exit t s;
              r ← finish t s (shown ++ more);
              Done (Some r)
          | None =>
              main_loop turns s
                (shown ++ [Ui_print_error "Invalid choice, please try again."])
          end
      end
  end.

(** [main]. [allocated] tells whether the first [malloc] succeeds, [file]
    is movies.txt at the start and [env] what the allocator answers while
    it is loaded. *)
Definition main (allocated : bool) (file : option string)
    (env : nat → line_heap) (turns : list turn)
  : outcome (option (Z * option string * list trace)) :=
  if allocated then
    '(st, said) ← load_movies_from_file file env (initial 10);
    main_loop turns (mkSession st false file) (map Effect said)
  else Done (Some (1, file, [Ui_print_error "Failed to allocate memory."])).

(** The catalogue between two passes when nothing has gone wrong: the
    block has [movie_capacity] cells, of which the first ones hold the
    records [ms] and the others below the count are empty. *)
Definition tidy (st : catalog) (ms : list Movie) : Prop :=
  0 < movie_capacity st ∧ movie_count st ≤ movie_capacity st ∧
  movie_capacity st ≤ Z.max 10 (2 * movie_count st) ∧
  ∃ entries,
    movies st = Some entries ∧
    Z.of_nat (length entries) = movie_capacity st ∧
    packed entries (movie_count st) ms ∧ Forall titled ms.

(** The keys of the pass choose [o] in the menu. *)
Definition chooses (t : turn) (o : MenuOption) : Prop :=
  ∃ choice drawn,
    main_menu (menu_keys t) = Some (choice, drawn) ∧
    menu_option choice = Some o.

(** How the list of records changes from pass to pass, up to the pass that
    leaves the program. A pass that chooses the add case puts one record
    behind the last, with the title, director and year that its dialog
    accepted, or none when the allocator refuses; a pass that chooses the
    list view may rate records anew and take records out, at most one for
    each [d] that is answered by [y] or [Y]; no other pass changes the
    list. *)
Inductive follows : list turn → list Movie → list Movie → Prop :=
| follows_exit (t : turn) (turns : list turn) (ms : list Movie) :
    chooses t MENU_EXIT → follows (t :: turns) ms ms
| follows_add (t : turn) (turns : list turn) (ms ms' : list Movie)
    (m : Movie) (title director : string) (year : Z) (asked : list written) :
    chooses t MENU_MOVIE_ADD →
    input_loop (current_year t) (typed t) None None []
    = Done (Some (title, director, year), asked) →
    grants (allocator t) →
    Rec.title m = Some title → Rec.director m = Some director →
    Rec.year m = year →
    follows turns (ms ++ [m]) ms' → follows (t :: turns) ms ms'
| follows_add_refused (t : turn) (turns : list turn) (ms ms' : list Movie) :
    chooses t MENU_MOVIE_ADD → ¬ grants (allocator t) →
    follows turns ms ms' → follows (t :: turns) ms ms'
| follows_display (t : turn) (turns : list turn) (ms ms1 ms' : list Movie) :
    chooses t MENU_MOVIE_DISPLAY → thinned ms ms1 →
    (length ms ≤ length ms1 + confirmed (list_keys t))%nat →
    follows turns ms1 ms' → follows (t :: turns) ms ms'
| follows_other (t : turn) (turns : list turn) (ms ms' : list Movie) :
    ¬ chooses t MENU_MOVIE_ADD → ¬ chooses t MENU_MOVIE_DISPLAY →
    ¬ chooses t MENU_EXIT →
    follows turns ms ms' → follows (t :: turns) ms ms'.

(** A pass in which the reallocation is granted, the file can be written
    behind the loop, and no entry at the add dialog overruns its buffer. *)
Definition sound (t : turn) : Prop :=
  granted t = true ∧ reopened t = true ∧
  ∃ r, input_loop (current_year t) (typed t) None None [] = Done r.

(** The lines of the file at the start are those of the records [ms];
    no file, no records. *)
Definition holds (file : option string) (ms : list Movie) : Prop :=
  match file with
  | Some text => text = join (map record_line ms)
  | None => ms = []
  end.

(** A cell that [save_movies_to_file] can print. *)
Definition writable (p : slot) : Prop :=
  match p with
  | Null => True
  | Ptr m => titled m
  | Wild => False
  end.

End Program.

Export Program.

(** * Properties *)

(** ** Records *)

Module RecFacts.

Lemma create_movie_Some (h : heap) (t d : cstr) (y : Z) (m : Movie) :
  fst (create_movie h t d y) = Some m →
  ∃ t' d' blk,
    t = Some t' ∧ d = Some d' ∧ 1800 < y ∧ block h = Some blk ∧
    title_copy h = true ∧ director_copy h = true ∧
    m = mkMovie (Some t') (Some d') y (rating blk).
Proof.
  unfold create_movie.
  destruct t as [t'|], d as [d'|]; simpl; try discriminate.
  destruct (decide (y ≤ 1800)) as [Hy|Hy]; simpl; [discriminate|].
  destruct h as [[blk|] [] []]; simpl; try discriminate.
  intros [= <-]. exists t', d', blk. repeat split; try reflexivity. lia.
Qed.

Lemma create_movie_granted (blk : Movie) (t d : string) (y : Z) :
  1800 < y →
  create_movie (mkHeap (Some blk) true true) (Some t) (Some d) y =
    (Some (mkMovie (Some t) (Some d) y (rating blk)), []).
Proof.
  intros Hy. unfold create_movie.
  destruct (decide (y ≤ 1800)); [lia|]. reflexivity.
Qed.

(** C5, as the code has it: construction fails exactly when the title or
    the director pointer is null, the year is at most 1800, or the
    allocator refuses a request; a record that is constructed carries the
    title, the director and the year that were passed in, whatever their
    length. *)
Theorem create_movie_fails_iff (h : heap) (t d : cstr) (y : Z) :
  (fst (create_movie h t d y) = None ↔
     t = None ∨ d = None ∨ y ≤ 1800 ∨
     block h = None ∨ title_copy h = false ∨ director_copy h = false)
  ∧ (∀ m, fst (create_movie h t d y) = Some m →
          title m = t ∧ director m = d ∧ year m = y).
Proof.
  split.
  - split.
    + intros Hnone.
      destruct t as [t'|]; [|tauto]. destruct d as [d'|]; [|tauto].
      destruct (decide (y ≤ 1800)) as [Hy|Hy]; [tauto|].
      destruct h as [[blk|] [] []]; simpl; try tauto.
      rewrite create_movie_granted in Hnone by lia. discriminate.
    + intros Hbad.
      destruct (fst (create_movie h t d y)) as [m|] eqn:E; [|reflexivity].
      apply create_movie_Some in E
        as (t' & d' & blk & -> & -> & Hy & Hb & Ht & Hd & _).
      rewrite Hb, Ht, Hd in Hbad.
      destruct Hbad as [?|[?|[?|[?|[?|?]]]]]; try discriminate. lia.
  - intros m E.
    apply create_movie_Some in E as (t' & d' & blk & -> & -> & _ & _ & _ & _ & ->).
    auto.
Qed.

(** C5 fails as stated: an empty title is accepted and stored. *)
Lemma create_movie_empty_title :
  create_movie fresh (Some "") (Some "Nolan") 2010
  = (Some (mkMovie (Some "") (Some "Nolan") 2010 float_zero), []).
Proof. reflexivity. Qed.

Lemma update_movie_apart (tc dc : bool) (movie : option Movie)
    (nt nd : cstr) (ny : Z) :
  Aliased.update_movie tc dc movie nt nd Aliased.Apart Aliased.Apart ny
  = Done (update_movie tc dc movie nt nd ny).
Proof.
  unfold Aliased.update_movie, update_movie.
  destruct movie as [m|], nt as [t|], nd as [d|]; try reflexivity.
  destruct (decide (ny ≤ 0)); reflexivity.
Qed.

(** C6, as the code is meant: with a record at hand, an update is refused,
    leaving the record as it was and releasing nothing, when the new title
    or the new director pointer is null or the new year is at most 0,
    wherever the strings lie and whatever the allocator answers; otherwise,
    when the two new strings lie outside the record and both copies are
    obtained, it succeeds, releases the old strings, stores the copies of
    the new title and director and the new year, and keeps the rating. *)
Theorem update_movie_spec (m : Movie) (nt nd : cstr)
    (ft fd : Aliased.origin) (ny : Z) :
  (∀ tc dc, nt = None ∨ nd = None ∨ ny ≤ 0 →
     Aliased.update_movie tc dc (Some m) nt nd ft fd ny
     = Done (MOVIE_ERROR_NULL_POINTER, Some m, []))
  ∧ (∀ t d, nt = Some t → nd = Some d → 0 < ny →
       ft = Aliased.Apart → fd = Aliased.Apart →
       Aliased.update_movie true true (Some m) nt nd ft fd ny
       = Done (MOVIE_SUCCESS,
               Some (mkMovie (Some t) (Some d) ny (rating m)),
               [Free_str (title m); Free_str (director m)])).
Proof.
  split.
  - intros tc dc Hbad. unfold Aliased.update_movie.
    destruct nt as [t|]; [|reflexivity].
    destruct nd as [d|]; [|reflexivity].
    destruct (decide (ny ≤ 0)); [reflexivity|].
    destruct Hbad as [?|[?|?]]; try discriminate. lia.
  - intros t d -> -> Hy -> ->. unfold Aliased.update_movie.
    destruct (decide (ny ≤ 0)); [lia|]. reflexivity.
Qed.

(** C6 fails as stated: an empty new title is accepted and replaces the
    old one. *)
Lemma update_movie_empty_title :
  update_movie true true
    (Some inception) (Some "") (Some "Nolan") 2010
  = (MOVIE_SUCCESS, Some (mkMovie (Some "") (Some "Nolan") 2010 float_zero),
     [Free_str (Some "Inception"); Free_str (Some "Nolan")]).
Proof. reflexivity. Qed.

(** C10, as the code has it: the rendering separates the fields by a comma
    without a space and ends with a line feed; the rating does not occur
    in it. *)
Theorem display_movie_text (t d : string) (y : Z) (r : float) :
  display_movie (Some (mkMovie (Some t) (Some d) y r))
  = Done ("Title: " +:+ t +:+ ",Director: " +:+ d +:+ ",Year: "
            +:+ fmt_d y +:+ LF)
  ∧ ∀ r', display_movie (Some (mkMovie (Some t) (Some d) y r'))
          = display_movie (Some (mkMovie (Some t) (Some d) y r)).
Proof. split; reflexivity. Qed.

(** C10 fails as stated: no space follows the commas. *)
Lemma display_movie_no_space :
  display_movie (Some inception)
  = Done ("Title: Inception,Director: Nolan,Year: 2010" +:+ LF)
  ∧ display_movie (Some inception)
    ≠ Done "Title: Inception, Director: Nolan, Year: 2010".
Proof. split; [reflexivity | discriminate]. Qed.

(** The rating of a constructed record is whatever the block from [malloc]
    held: [create_movie] never assigns it. *)
Lemma create_movie_rating (h : heap) (t d : cstr) (y : Z) (m : Movie) :
  fst (create_movie h t d y) = Some m →
  ∃ blk, block h = Some blk ∧ rating m = rating blk.
Proof.
  intros E.
  apply create_movie_Some in E as (t' & d' & blk & _ & _ & _ & Hb & _ & _ & ->).
  exists blk. auto.
Qed.

Lemma rate_keys_range (keys : list Z) :
  ∀ flushing t shown r shown',
    rate_keys flushing t keys shown = Some (r, shown') → 1 ≤ r ≤ 5.
Proof.
  induction keys as [|ch keys IH]; intros flushing t shown r shown';
    [discriminate|].
  simpl. destruct flushing.
  - destruct (decide _); apply IH.
  - destruct (decide (chr "1" ≤ ch ∧ ch ≤ chr "5")) as [Hch|_]; [|apply IH].
    intros [= <- _]. unfold chr in *. simpl in *. lia.
Qed.

(** A rating stored by [rate_movie] is one of 1.0 to 5.0. *)
Lemma rate_movie_rating (m m' : Movie) (keys : list Z) (shown : list event) :
  rate_movie (Some m) keys = Some (Some m', shown) →
  is_Some (title m) →
  ∃ r, 1 ≤ r ≤ 5 ∧ rating m' = float_of_int r ∧
       is_finite (rating m') = true ∧ fmt_1f (rating m') = fmt_d r +:+ ".0".
Proof.
  unfold rate_movie. intros Hrun [t Ht]. rewrite Ht in Hrun.
  destruct (rate_keys false t keys [rating_prompt t]) as [[r shown0]|] eqn:Hkeys;
    [|discriminate].
  simpl in Hrun. injection Hrun as <- <-.
  apply rate_keys_range in Hkeys. exists r. split; [exact Hkeys|].
  assert (r = 1 ∨ r = 2 ∨ r = 3 ∨ r = 4 ∨ r = 5) as Hr by lia.
  destruct Hr as [->|[->|[->|[->| ->]]]]; repeat split.
Qed.

End RecFacts.

(** ** The slot array *)

Module CatalogFacts.

(** Membership in an explicit list. *)
Ltac in_list :=
  simpl; rewrite ?elem_of_cons; auto 10.

Lemma bind_Done {A B} (m : outcome A) (f : A → outcome B) (b : B) :
  m ≫= f = Done b ↔ ∃ a, m = Done a ∧ f a = Done b.
Proof.
  destruct m as [a|]; simpl.
  - split; [eauto | intros (a' & [= <-] & ?); assumption].
  - split; [discriminate | intros (a' & ? & _); discriminate].
Qed.

Lemma int_of_Done (z : Z) : INT_MIN ≤ z ≤ INT_MAX → int_of z = Done z.
Proof. intros H. unfold int_of. destruct (decide _); [reflexivity | lia]. Qed.

Lemma array_get_nat (entries : list slot) (i : nat) (s : slot) :
  entries !! i = Some s → array_get entries (Z.of_nat i) = Done s.
Proof.
  intros H. unfold array_get.
  destruct (decide (0 ≤ Z.of_nat i)); [|lia].
  rewrite Nat2Z.id, H. reflexivity.
Qed.

Lemma array_set_nat (entries : list slot) (i : nat) (v : slot) :
  (i < length entries)%nat →
  array_set entries (Z.of_nat i) v = Done (<[i := v]> entries).
Proof.
  intros H. unfold array_set.
  destruct (decide _); [|lia]. rewrite Nat2Z.id. reflexivity.
Qed.

Lemma array_set_inside (entries : list slot) (i : Z) (v : slot) :
  0 ≤ i < Z.of_nat (length entries) →
  array_set entries i v = Done (<[Z.to_nat i := v]> entries).
Proof. intros H. unfold array_set. destruct (decide _); [reflexivity | lia]. Qed.

Lemma array_set_outside (entries : list slot) (i : Z) (v : slot) :
  Z.of_nat (length entries) ≤ i → array_set entries i v = Undef.
Proof. intros H. unfold array_set. destruct (decide _); [lia | reflexivity]. Qed.

(** The shifting loop moves the cells [i+1 .. i+n] one place down and
    leaves every other cell alone. *)
Lemma shift_up_lookup (n : nat) :
  ∀ (movies : list slot) (i : nat),
    (i + n < length movies)%nat →
    ∃ movies',
      shift_up n movies (Z.of_nat i) = Done movies' ∧
      length movies' = length movies ∧
      ∀ j, movies' !! j =
           if decide (i ≤ j < i + n)%nat then movies !! S j else movies !! j.
Proof.
  induction n as [|n IH]; intros movies i Hlen.
  - exists movies. repeat split; [].
    intros j. destruct (decide _); [lia | reflexivity].
  - destruct (lookup_lt_is_Some_2 movies (S i)) as [v Hv]; [lia|].
    destruct (IH (<[i := v]> movies) (S i)) as (movies' & Hrun & Hl & Hlk).
    { rewrite length_insert. lia. }
    exists movies'. split; [|split].
    + simpl. replace (Z.of_nat i + 1) with (Z.of_nat (S i)) by lia.
      rewrite (array_get_nat _ _ _ Hv). simpl.
      rewrite array_set_nat by lia. simpl. exact Hrun.
    + rewrite Hl. apply length_insert.
    + intros j. rewrite Hlk.
      destruct (decide (S i ≤ j < S i + n)%nat) as [Hin|Hout].
      * destruct (decide _); [|lia].
        apply list_lookup_insert_ne. lia.
      * destruct (decide (j = i)) as [->|Hne].
        -- destruct (decide _); [|lia].
           rewrite list_lookup_insert_eq by lia. symmetry. exact Hv.
        -- destruct (decide _); [lia|].
           apply list_lookup_insert_ne. lia.
Qed.

(** C1: a confirmed deletion at an occupied index below the count releases
    the record, moves every later record one place down, clears the last
    place used and lowers the count by one; at an index outside the count
    or at an empty place it warns and changes nothing. *)
Theorem delete_movie_spec (movies : list slot) (count index ch : Z) :
  count ≤ Z.of_nat (length movies) →
  count ≤ INT_MAX →
  (∀ m, 0 ≤ index < count →
        movies !! Z.to_nat index = Some (Ptr m) →
        ch = chr "y" ∨ ch = chr "Y" →
        ∃ movies' shown,
          delete_movie movies count index ch = Done (movies', count - 1, shown)
          ∧ Free_str (title m) ∈ shown ∧ Free_str (director m) ∈ shown
          ∧ Free_movie m ∈ shown
          ∧ length movies' = length movies
          ∧ (∀ j, (j < Z.to_nat index)%nat → movies' !! j = movies !! j)
          ∧ (∀ j, (Z.to_nat index ≤ j < Z.to_nat (count - 1))%nat →
                  movies' !! j = movies !! S j)
          ∧ movies' !! Z.to_nat (count - 1) = Some Null
          ∧ (∀ j, (Z.to_nat count ≤ j)%nat → movies' !! j = movies !! j))
  ∧ (index < 0 ∨ count ≤ index ∨ movies !! Z.to_nat index = Some Null →
     delete_movie movies count index ch = Done (movies, count, invalid_index)).
Proof.
  intros Hlen Hmax. split.
  - intros m Hidx Hm Hch.
    set (i := Z.to_nat index) in *.
    assert (Hi : index = Z.of_nat i) by lia.
    set (n := Z.to_nat (count - 1 - index)).
    destruct (shift_up_lookup n (<[i := Null]> movies) i)
      as (a2 & Hrun & Hl2 & Hlk).
    { rewrite length_insert. lia. }
    rewrite length_insert in Hl2.
    exists (<[Z.to_nat (count - 1) := Null]> a2). eexists.
    split; [|split; [|split; [|split; [|split; [|split; [|split; [|split]]]]]]].
    + unfold delete_movie.
      destruct (decide (index < 0)); [lia|].
      destruct (decide (index >= count)); [lia|].
      rewrite Hi at 1. rewrite (array_get_nat _ _ _ Hm). simpl.
      destruct (decide (ch = chr "y" ∨ ch = chr "Y")); [|tauto].
      simpl. rewrite Hi at 1. rewrite array_set_nat by lia. simpl.
      fold n. rewrite Hi at 1. rewrite Hrun. simpl.
      rewrite array_set_inside by lia. simpl.
      rewrite int_of_Done by (unfold INT_MIN; lia). simpl.
      reflexivity.
    + in_list.
    + in_list.
    + in_list.
    + rewrite length_insert. exact Hl2.
    + intros j Hj. rewrite list_lookup_insert_ne by lia.
      rewrite Hlk. destruct (decide _); [lia|].
      apply list_lookup_insert_ne. lia.
    + intros j Hj. rewrite list_lookup_insert_ne by lia.
      rewrite Hlk. destruct (decide _); [|lia].
      apply list_lookup_insert_ne. lia.
    + apply list_lookup_insert_eq. lia.
    + intros j Hj. rewrite list_lookup_insert_ne by lia.
      rewrite Hlk. destruct (decide _); [lia|].
      apply list_lookup_insert_ne. lia.
  - intros Hbad. unfold delete_movie.
    destruct (decide (index < 0)); [reflexivity|].
    destruct (decide (index >= count)); [reflexivity|].
    destruct Hbad as [?|[?|Hnull]]; [lia|lia|].
    unfold array_get. destruct (decide (0 ≤ index)); [|lia].
    rewrite Hnull. reflexivity.
Qed.

Lemma delete_movie_spec_witness :
  ∃ movies' shown,
    delete_movie shelf 3 0 (chr "y") = Done (movies', 3 - 1, shown)
    ∧ movies' !! 0%nat = Some (Ptr movie_b)
    ∧ movies' !! 1%nat = Some (Ptr movie_c)
    ∧ movies' !! 2%nat = Some Null.
Proof.
  destruct (proj1 (delete_movie_spec shelf 3 0 (chr "y")
                     ltac:(simpl; lia) ltac:(unfold INT_MAX; lia))
                  movie_a ltac:(lia) eq_refl (or_introl eq_refl))
    as (movies' & shown & Hrun & _ & _ & _ & _ & _ & Hshift & Hlast & _).
  exists movies', shown. split; [exact Hrun|].
  split; [|split].
  - rewrite (Hshift 0%nat) by (simpl; lia). reflexivity.
  - rewrite (Hshift 1%nat) by (simpl; lia). reflexivity.
  - exact Hlast.
Defined.

Lemma realloc_granted (entries : list slot) (n : Z) :
  0 < n →
  realloc true entries n = Done (Some (resize (Z.to_nat n) Wild entries)).
Proof.
  intros Hn. unfold realloc.
  destruct (decide (n = 0)); [lia|]. destruct (decide (n < 0)); [lia|].
  reflexivity.
Qed.

Lemma resize_entries_granted (entries : list slot) (capacity : Z) :
  0 < capacity → 2 * capacity ≤ INT_MAX →
  resize_entries true entries capacity
  = Done (Some (resize (Z.to_nat (2 * capacity)) Wild entries), 2 * capacity).
Proof.
  intros Hpos Hmax. unfold resize_entries.
  replace (capacity * 2) with (2 * capacity) by lia.
  rewrite int_of_Done by (unfold INT_MIN; lia). simpl.
  rewrite realloc_granted by lia. reflexivity.
Qed.

Lemma resize_entries_refused (entries : list slot) (capacity : Z) :
  0 < capacity → 2 * capacity ≤ INT_MAX →
  resize_entries false entries capacity = Done (None, 2 * capacity).
Proof.
  intros Hpos Hmax. unfold resize_entries.
  replace (capacity * 2) with (2 * capacity) by lia.
  rewrite int_of_Done by (unfold INT_MIN; lia). simpl.
  unfold realloc.
  destruct (decide (2 * capacity = 0)); [lia|].
  destruct (decide (2 * capacity < 0)); [lia|]. reflexivity.
Qed.

(** A granted growth keeps every cell of the old block, in place. *)
Lemma resize_entries_keeps (entries grown : list slot) (capacity capacity' : Z) :
  resize_entries true entries capacity = Done (Some grown, capacity') →
  Z.of_nat (length entries) = capacity →
  capacity' = 2 * capacity ∧ Z.of_nat (length grown) = capacity' ∧
  ∀ j, (j < length entries)%nat → grown !! j = entries !! j.
Proof.
  unfold resize_entries, int_of, realloc. intros Hrun Hlen.
  destruct (decide (INT_MIN ≤ capacity * 2 ≤ INT_MAX)); [|discriminate].
  simpl in Hrun.
  destruct (decide (capacity * 2 = 0)); [discriminate|].
  destruct (decide (capacity * 2 < 0)); [discriminate|].
  simpl in Hrun. injection Hrun as <- <-.
  split; [lia|]. split.
  - rewrite length_resize. lia.
  - intros j Hj. apply lookup_resize; lia.
Qed.

End CatalogFacts.

(** ** Adding *)

Module MainFacts.

Import CatalogFacts.

#[local] Arguments create_movie : simpl never.

(** The scan stops at the lowest empty cell, or answers [-1] when the cells
    it visits are all occupied. *)
Lemma first_null_spec (n : nat) :
  ∀ (entries : list slot) (i : nat),
    (∀ j, (i ≤ j < i + n)%nat → is_Some (entries !! j) ∧ entries !! j ≠ Some Wild) →
    (∃ k, (i ≤ k < i + n)%nat ∧ entries !! k = Some Null ∧
          (∀ j, (i ≤ j < k)%nat → entries !! j ≠ Some Null) ∧
          first_null n (Some entries) (Z.of_nat i) = Done (Z.of_nat k))
    ∨ ((∀ j, (i ≤ j < i + n)%nat → entries !! j ≠ Some Null) ∧
       first_null n (Some entries) (Z.of_nat i) = Done (-1)).
Proof.
  induction n as [|n IH]; intros entries i Hinit.
  - right. split; [intros j ?; lia | reflexivity].
  - destruct (Hinit i) as [[s Hs] Hw]; [lia|].
    simpl. rewrite (array_get_nat _ _ _ Hs). simpl.
    destruct s as [|m|]; simpl.
    + left. exists i. split; [lia|]. split; [exact Hs|].
      split; [intros j ?; lia | reflexivity].
    + replace (Z.of_nat i + 1) with (Z.of_nat (S i)) by lia.
      destruct (IH entries (S i)) as [(k & Hk & Hnull & Hlow & Hrun)|[Hnone Hrun]].
      { intros j Hj. apply Hinit. lia. }
      * left. exists k. split; [lia|]. split; [exact Hnull|].
        split; [|exact Hrun].
        intros j Hj. destruct (decide (j = i)) as [->|Hne].
        -- rewrite Hs. discriminate.
        -- apply Hlow. lia.
      * right. split; [|exact Hrun].
        intros j Hj. destruct (decide (j = i)) as [->|Hne].
        -- rewrite Hs. discriminate.
        -- apply Hnone. lia.
    + congruence.
Qed.

(** The placement half of the add case, on a block with room for one more
    record. *)
Lemma insert_movie_step (h : heap) (t d : string) (y : Z) (st : catalog)
    (entries : list slot) :
  movies st = Some entries →
  0 ≤ movie_count st < Z.of_nat (length entries) →
  movie_count st + 1 ≤ INT_MAX →
  (∀ j, (j < Z.to_nat (movie_count st))%nat → entries !! j ≠ Some Wild) →
  ∃ st' shown,
    insert_movie h t d y st = Done (st', shown) ∧
    match fst (create_movie h (Some t) (Some d) y) with
    | None => st' = st
    | Some m =>
        (∃ k, lowest_gap entries (Z.to_nat (movie_count st)) k ∧
              st' = mkCatalog (Some (<[k := Ptr m]> entries))
                              (movie_count st) (movie_capacity st))
        ∨ (no_gap entries (Z.to_nat (movie_count st)) ∧
           st' = mkCatalog
                   (Some (<[Z.to_nat (movie_count st) := Ptr m]> entries))
                   (movie_count st + 1) (movie_capacity st))
    end.
Proof.
  intros Hblock Hroom Hmax Hinit.
  unfold insert_movie. rewrite Hblock.
  destruct (first_null_spec (Z.to_nat (movie_count st)) entries 0)
    as [(k & Hk & Hnull & Hlow & Hrun)|[Hnone Hrun]].
  { intros j Hj. split; [apply lookup_lt_is_Some_2; lia | apply Hinit; lia]. }
  - change (Z.of_nat 0) with 0 in Hrun. rewrite Hrun. simpl.
    destruct (create_movie h (Some t) (Some d) y) as [[m|] shown]; simpl.
    + destruct (decide (Z.of_nat k ≠ -1)); [|lia].
      rewrite array_set_nat by lia. simpl.
      eexists _, _. split; [reflexivity|]. left. exists k.
      split; [|reflexivity].
      split; [lia|]. split; [exact Hnull|]. intros j Hj. apply Hlow. lia.
    + eexists _, _. split; reflexivity.
  - change (Z.of_nat 0) with 0 in Hrun. rewrite Hrun. simpl.
    destruct (create_movie h (Some t) (Some d) y) as [[m|] shown]; simpl.
    + destruct (decide (-1 ≠ -1)); [lia|].
      rewrite array_set_inside by lia. simpl.
      rewrite int_of_Done by (unfold INT_MIN; lia). simpl.
      eexists _, _. split; [reflexivity|]. right.
      split; [|reflexivity]. intros j Hj. apply Hnone. lia.
    + eexists _, _. split; reflexivity.
Qed.

(** One pass through the add case from a well-formed catalogue. [grown] is
    the block the placement works on: the old block, extended to the new
    capacity when the pass started full. *)
Lemma menu_movie_add_step (granted : bool) (h : heap) (t d : string) (y : Z)
    (st : catalog) (entries : list slot) :
  well_formed st →
  movies st = Some entries →
  2 * movie_count st + 2 ≤ INT_MAX →
  (movie_count st = movie_capacity st → granted = true) →
  ∃ st' shown,
    menu_movie_add granted h t d y st = Done (st', shown) ∧
    movie_capacity st' =
      (if decide (movie_count st = movie_capacity st)
       then 2 * movie_capacity st else movie_capacity st) ∧
    let grown := resize (Z.to_nat (movie_capacity st')) Wild entries in
    match fst (create_movie h (Some t) (Some d) y) with
    | None => movies st' = Some grown ∧ movie_count st' = movie_count st
    | Some m =>
        (∃ k, lowest_gap entries (Z.to_nat (movie_count st)) k ∧
              movies st' = Some (<[k := Ptr m]> grown) ∧
              movie_count st' = movie_count st)
        ∨ (no_gap entries (Z.to_nat (movie_count st)) ∧
           movies st' = Some (<[Z.to_nat (movie_count st) := Ptr m]> grown) ∧
           movie_count st' = movie_count st + 1)
    end.
Proof.
  intros (Hcap & Hcount & entries0 & Hblock0 & Hlen & Hinit) Hblock Hmax Hgrant.
  rewrite Hblock in Hblock0. injection Hblock0 as <-.
  unfold menu_movie_add.
  destruct (decide (movie_count st = movie_capacity st)) as [Hfull|Hroom].
  - rewrite (Hgrant Hfull), Hblock. simpl.
    rewrite resize_entries_granted by lia. simpl.
    set (grown := resize (Z.to_nat (2 * movie_capacity st)) Wild entries).
    assert (Hkeep : ∀ j, (j < length entries)%nat → grown !! j = entries !! j).
    { intros j Hj. apply lookup_resize; lia. }
    destruct (insert_movie_step h t d y
                (mkCatalog (Some grown) (movie_count st) (2 * movie_capacity st))
                grown eq_refl) as (st' & shown & Hrun & Hres); simpl.
    { unfold grown. rewrite length_resize. lia. }
    { lia. }
    { intros j Hj. rewrite Hkeep by lia. apply Hinit. exact Hj. }
    exists st', shown. split; [exact Hrun|].
    simpl in Hres.
    destruct (fst (create_movie h (Some t) (Some d) y)) as [m|].
    + destruct Hres as [(k & (Hk & Hnull & Hlow) & ->)|[Hnone ->]]; simpl;
        (split; [reflexivity|]).
      * left. exists k. split; [|split; reflexivity].
        split; [exact Hk|]. split.
        -- rewrite <- Hkeep by lia. exact Hnull.
        -- intros j Hj. rewrite <- Hkeep by lia. apply Hlow. exact Hj.
      * right. split; [|split; reflexivity].
        intros j Hj. rewrite <- Hkeep by lia. apply Hnone. exact Hj.
    + subst st'. simpl. split; [reflexivity|]. split; reflexivity.
  - destruct (insert_movie_step h t d y st entries Hblock)
      as (st' & shown & Hrun & Hres).
    { lia. }
    { lia. }
    { exact Hinit. }
    exists st', shown. split; [exact Hrun|].
    assert (Hsame : resize (Z.to_nat (movie_capacity st)) Wild entries = entries).
    { apply resize_all_alt. lia. }
    destruct (fst (create_movie h (Some t) (Some d) y)) as [m|].
    + destruct Hres as [(k & Hgap & ->)|[Hnone ->]]; simpl;
        (split; [reflexivity|]); rewrite Hsame.
      * left. exists k. split; [exact Hgap|]. split; reflexivity.
      * right. split; [exact Hnone|]. split; reflexivity.
    + subst st'. simpl. split; [reflexivity|]. rewrite Hsame.
      split; [exact Hblock | reflexivity].
Qed.

Lemma lowest_gap_unique (entries : list slot) (count k k' : nat) :
  lowest_gap entries count k → lowest_gap entries count k' → k = k'.
Proof.
  intros (Hk & Hnull & Hlow) (Hk' & Hnull' & Hlow').
  destruct (Nat.lt_trichotomy k k') as [Hlt|[Heq|Hgt]]; [|exact Heq|].
  - destruct (Hlow' k Hlt Hnull).
  - destruct (Hlow k' Hgt Hnull').
Qed.

Lemma lowest_gap_no_gap (entries : list slot) (count k : nat) :
  lowest_gap entries count k → no_gap entries count → False.
Proof. intros (Hk & Hnull & _) Hnone. exact (Hnone k Hk Hnull). Qed.

Lemma initial_well_formed (capacity : Z) :
  0 < capacity → well_formed (initial capacity).
Proof.
  intros Hpos. unfold well_formed, initial. simpl.
  split; [exact Hpos|]. split; [lia|].
  eexists. split; [reflexivity|]. split.
  - rewrite length_replicate. lia.
  - intros j Hj. lia.
Qed.

(** C2: when construction succeeds, the record goes to the lowest empty
    cell below the count and the count stays, or, without such a cell, to
    the cell at the count and the count grows by one; no other cell of the
    block changes. *)
Theorem add_places_record (granted : bool) (h : heap) (t d : string) (y : Z)
    (st : catalog) (entries : list slot) (m : Movie) :
  well_formed st →
  movies st = Some entries →
  2 * movie_count st + 2 ≤ INT_MAX →
  (movie_count st = movie_capacity st → granted = true) →
  fst (create_movie h (Some t) (Some d) y) = Some m →
  ∃ st' shown entries',
    menu_movie_add granted h t d y st = Done (st', shown) ∧
    movies st' = Some entries' ∧
    (∀ k, lowest_gap entries (Z.to_nat (movie_count st)) k →
          entries' !! k = Some (Ptr m) ∧
          movie_count st' = movie_count st ∧
          ∀ j, j ≠ k → (j < length entries)%nat → entries' !! j = entries !! j) ∧
    (no_gap entries (Z.to_nat (movie_count st)) →
     entries' !! Z.to_nat (movie_count st) = Some (Ptr m) ∧
     movie_count st' = movie_count st + 1 ∧
     ∀ j, j ≠ Z.to_nat (movie_count st) → (j < length entries)%nat →
          entries' !! j = entries !! j).
Proof.
  intros Hwf Hblock Hmax Hgrant Hnew.
  destruct (menu_movie_add_step granted h t d y st entries Hwf Hblock Hmax Hgrant)
    as (st' & shown & Hrun & Hcap' & Hres).
  destruct Hwf as (Hcap & Hcount & entries0 & Hblock0 & Hlen & Hinit).
  rewrite Hblock in Hblock0. injection Hblock0 as <-.
  rewrite Hnew in Hres. simpl in Hres.
  assert (Hcap2 : movie_capacity st ≤ movie_capacity st'
                  ∧ movie_count st < movie_capacity st').
  { rewrite Hcap'. destruct (decide _); lia. }
  set (grown := resize (Z.to_nat (movie_capacity st')) Wild entries) in *.
  assert (Hkeep : ∀ j, (j < length entries)%nat → grown !! j = entries !! j).
  { intros j Hj. apply lookup_resize; lia. }
  assert (Hgl : length grown = Z.to_nat (movie_capacity st')).
  { apply length_resize. }
  destruct Hres as [(k0 & Hgap & Hm' & Hc')|(Hnone & Hm' & Hc')];
    exists st', shown; eexists; (split; [exact Hrun|]); (split; [exact Hm'|]).
  - split.
    + intros k Hk. rewrite (lowest_gap_unique _ _ _ _ Hk Hgap).
      destruct Hgap as (Hk0 & _ & _).
      split; [apply list_lookup_insert_eq; lia|]. split; [exact Hc'|].
      intros j Hne Hj. rewrite list_lookup_insert_ne by congruence.
      apply Hkeep. exact Hj.
    + intros Hnone. destruct (lowest_gap_no_gap _ _ _ Hgap Hnone).
  - split.
    + intros k Hk. destruct (lowest_gap_no_gap _ _ _ Hk Hnone).
    + intros _. split; [apply list_lookup_insert_eq; lia|].
      split; [exact Hc'|].
      intros j Hne Hj. rewrite list_lookup_insert_ne by congruence.
      apply Hkeep. exact Hj.
Qed.

Lemma gappy_well_formed : well_formed gappy.
Proof.
  split; [simpl; lia|]. split; [simpl; lia|].
  eexists. split; [reflexivity|]. split; [reflexivity|].
  intros j Hj. simpl in Hj.
  destruct j as [|[|[|j]]]; simpl; try discriminate. lia.
Qed.

Lemma gappy_lowest_gap :
  lowest_gap [Ptr movie_a; Null; Null; Wild] 3 1.
Proof.
  split; [lia|]. split; [reflexivity|].
  intros j Hj. destruct j as [|j]; [discriminate | lia].
Qed.

Lemma add_places_record_witness :
  ∃ st' shown entries',
    menu_movie_add true fresh "N" "n" 2001 gappy = Done (st', shown) ∧
    movies st' = Some entries' ∧
    entries' !! 1%nat = Some (Ptr (mkMovie (Some "N") (Some "n") 2001 float_zero)) ∧
    movie_count st' = 3.
Proof.
  destruct (add_places_record true fresh "N" "n" 2001 gappy
              [Ptr movie_a; Null; Null; Wild]
              (mkMovie (Some "N") (Some "n") 2001 float_zero)
              gappy_well_formed eq_refl
              ltac:(simpl; unfold INT_MAX; lia) (λ _, eq_refl) eq_refl)
    as (st' & shown & entries' & Hrun & Hblock & Hgap & _).
  destruct (Hgap 1%nat gappy_lowest_gap) as (Hput & Hcount & _).
  exists st', shown, entries'. auto.
Defined.

(** One pass keeps the catalogue well-formed and has the effect described
    by [add_effect]. *)
Lemma add_step (r : add_request) (st : catalog) :
  well_formed st →
  2 * movie_count st + 2 ≤ INT_MAX →
  add_granted r = true →
  ∃ st', add r st = Done st' ∧ well_formed st' ∧ add_effect st st' ∧
         movie_count st' ≤ movie_count st + 1.
Proof.
  intros Hwf Hmax Hgrant.
  pose proof Hwf as (Hcap & Hcount & entries & Hblock & Hlen & Hinit).
  destruct (menu_movie_add_step (add_granted r) (add_heap r) (add_title r)
              (add_director r) (add_year r) st entries Hwf Hblock Hmax
              (λ _, Hgrant))
    as (st' & shown & Hrun & Hcap' & Hres).
  exists st'. split; [unfold add; rewrite Hrun; reflexivity|].
  assert (Hdbl : (movie_count st = movie_capacity st →
                  movie_capacity st' = 2 * movie_capacity st) ∧
                 (movie_count st ≠ movie_capacity st →
                  movie_capacity st' = movie_capacity st)).
  { rewrite Hcap'. destruct (decide _); split; intros; (reflexivity || lia). }
  assert (Hcapge : movie_capacity st ≤ movie_capacity st').
  { rewrite Hcap'. destruct (decide _); lia. }
  simpl in Hres.
  set (grown := resize (Z.to_nat (movie_capacity st')) Wild entries) in *.
  assert (Hkeep : ∀ j, (j < length entries)%nat → grown !! j = entries !! j).
  { intros j Hj. apply lookup_resize; lia. }
  assert (Hgl : length grown = Z.to_nat (movie_capacity st')).
  { apply length_resize. }
  assert (Hfit : movie_count st ≠ movie_capacity st →
                 movie_count st < movie_capacity st') by lia.
  assert (Hfit2 : movie_count st = movie_capacity st →
                  movie_count st < movie_capacity st').
  { intros Hfull. rewrite (proj1 Hdbl Hfull). lia. }
  assert (Hlt : movie_count st < movie_capacity st').
  { destruct (decide (movie_count st = movie_capacity st)); auto. }
  destruct (fst (create_movie _ _ _ _)) as [m|].
  - destruct Hres as [(k & (Hk & Hnull & Hlow) & Hm' & Hc')|(Hnone & Hm' & Hc')].
    + split; [|split; [|lia]].
      * split; [lia|]. split; [lia|].
        exists (<[k := Ptr m]> grown). split; [exact Hm'|].
        split; [rewrite length_insert; lia|].
        intros j Hj. destruct (decide (j = k)) as [->|Hne].
        -- rewrite list_lookup_insert_eq by lia. discriminate.
        -- rewrite list_lookup_insert_ne by congruence.
           rewrite Hkeep by lia. apply Hinit. lia.
      * split; [lia|]. split; [tauto|]. split; [tauto|].
        intros entries0 j m0 Hb0 Hj Hm0.
        rewrite Hblock in Hb0. injection Hb0 as <-.
        exists (<[k := Ptr m]> grown). split; [exact Hm'|].
        rewrite list_lookup_insert_ne by congruence.
        rewrite Hkeep by lia. exact Hm0.
    + split; [|split; [|lia]].
      * split; [lia|]. split; [lia|].
        exists (<[Z.to_nat (movie_count st) := Ptr m]> grown).
        split; [exact Hm'|]. split; [rewrite length_insert; lia|].
        intros j Hj.
        destruct (decide (j = Z.to_nat (movie_count st))) as [->|Hne].
        -- rewrite list_lookup_insert_eq by lia. discriminate.
        -- rewrite list_lookup_insert_ne by congruence.
           rewrite Hkeep by lia. apply Hinit. lia.
      * split; [lia|]. split; [tauto|]. split; [tauto|].
        intros entries0 j m0 Hb0 Hj Hm0.
        rewrite Hblock in Hb0. injection Hb0 as <-.
        exists (<[Z.to_nat (movie_count st) := Ptr m]> grown).
        split; [exact Hm'|].
        rewrite list_lookup_insert_ne by lia.
        rewrite Hkeep by lia. exact Hm0.
  - destruct Hres as [Hm' Hc'].
    split; [|split; [|lia]].
    + split; [lia|]. split; [lia|].
      exists grown. split; [exact Hm'|]. split; [lia|].
      intros j Hj. rewrite Hkeep by lia. apply Hinit. lia.
    + split; [lia|]. split; [tauto|]. split; [tauto|].
      intros entries0 j m0 Hb0 Hj Hm0.
      rewrite Hblock in Hb0. injection Hb0 as <-.
      exists grown. split; [exact Hm'|].
      rewrite Hkeep by lia. exact Hm0.
Qed.

(** C9: along any sequence of add passes from a well-formed catalogue the
    count never exceeds the capacity, the capacity is doubled in exactly
    the passes that start with the count equal to the capacity, and every
    record stays in its cell with its fields. *)
Theorem adds_keep_invariant (rs : list add_request) :
  ∀ st : catalog,
    well_formed st →
    2 * (movie_count st + Z.of_nat (length rs)) ≤ INT_MAX →
    Forall (λ r, add_granted r = true) rs →
    ∃ run,
      adds rs st = Done run ∧ length run = length rs ∧
      Forall well_formed run ∧ add_effects st run.
Proof.
  induction rs as [|r rs IH]; intros st Hwf Hmax Hgrant.
  - exists []. simpl. repeat split; constructor.
  - apply Forall_cons in Hgrant as [Hr Hrs]. simpl in Hmax.
    destruct (add_step r st Hwf ltac:(lia) Hr) as (st' & Hrun & Hwf' & Heff & Hc').
    destruct (IH st' Hwf' ltac:(lia) Hrs) as (run & Hruns & Hlen & Hall & Heffs).
    exists (st' :: run). simpl. rewrite Hrun. simpl. rewrite Hruns. simpl.
    split; [reflexivity|]. split; [congruence|].
    split; [constructor; assumption | split; assumption].
Qed.

Lemma adds_keep_invariant_witness :
  ∃ run,
    adds [add_a; add_b] (initial 1) = Done run ∧ length run = 2%nat ∧
    Forall well_formed run ∧ add_effects (initial 1) run.
Proof.
  apply (adds_keep_invariant [add_a; add_b] (initial 1)).
  - apply initial_well_formed. lia.
  - simpl. unfold INT_MAX. lia.
  - repeat constructor.
Defined.

(** C3 at its failing input: a refused growth of a full catalogue of two
    leaves 4 in the capacity although the block still has two cells; [main]
    keeps going with that state, and the next add stores past the end of
    the block. *)
Theorem resize_entries_refused_doubles :
  resize_entries false [Ptr movie_a; Ptr movie_b] 2 = Done (None, 4)
  ∧ menu_movie_add false fresh "C" "c" 2003 full
    = Done (mkCatalog (movies full) 2 4,
            [Popup "ERROR" ("Failed to resize movie array." +:+ LF)])
  ∧ menu_movie_add true fresh "C" "c" 2003 (mkCatalog (movies full) 2 4)
    = Undef.
Proof. split; [|split]; reflexivity. Qed.

End MainFacts.

(** ** Saving *)

Module SaveFacts.

Import CatalogFacts.

#[local] Arguments String.append !s1 s2 : simpl nomatch.

Lemma append_assoc (a b c : string) : (a +:+ b) +:+ c = a +:+ b +:+ c.
Proof. induction a as [|x a IH]; simpl; [reflexivity | f_equal; exact IH]. Qed.

Lemma append_nil_r (a : string) : a +:+ "" = a.
Proof. induction a as [|x a IH]; simpl; [reflexivity | f_equal; exact IH]. Qed.

Lemma uint_all_digits (u : Decimal.uint) :
  all_digits (NilEmpty.string_of_uint u) = true.
Proof. induction u; simpl; auto. Qed.

(** [%d] of a number that is not negative: digits, at least one. *)
Lemma fmt_d_nonneg (z : Z) :
  0 ≤ z →
  ∃ c rest, fmt_d z = String c rest ∧ isdigit c = true ∧ all_digits rest = true.
Proof.
  intros Hz. unfold fmt_d. destruct z as [|p|p]; [| |lia].
  - exists "0"%char, EmptyString. repeat split.
  - simpl. pose proof (uint_all_digits (Pos.to_uint p)) as Hd.
    destruct (Pos.to_uint p); simpl in *;
      eexists _, _; (split; [reflexivity|]); (split; [reflexivity|]);
      solve [assumption | reflexivity].
Qed.

(** [%d] of a number below ten: one digit. *)
Lemma fmt_d_digit (r : Z) :
  0 ≤ r < 10 → ∃ d, fmt_d r = String d EmptyString ∧ isdigit d = true.
Proof.
  intros Hr.
  assert (r = 0 ∨ r = 1 ∨ r = 2 ∨ r = 3 ∨ r = 4 ∨ r = 5 ∨ r = 6 ∨ r = 7
          ∨ r = 8 ∨ r = 9) as Hcases by lia.
  repeat (destruct Hcases as [->|Hcases]; [eexists; split; reflexivity|]).
  subst r. eexists. split; reflexivity.
Qed.

Lemma tenths_nonneg (m : positive) (e : Z) : 0 ≤ tenths m e.
Proof.
  unfold tenths. destruct (decide (0 ≤ e)).
  - assert (0 ≤ 2 ^ e) by (apply Z.pow_nonneg; lia). nia.
  - assert (0 < 2 ^ (- e)) by (apply Z.pow_pos_nonneg; lia).
    assert (0 ≤ Z.pos m * 10 / 2 ^ (- e)) by (apply Z.div_pos; lia).
    cbv zeta. repeat destruct (decide _); try lia.
    destruct (Z.even _); lia.
Qed.

Lemma digits_point_digit_app (ds : string) (d : ascii) :
  all_digits ds = true → isdigit d = true →
  digits_point_digit (ds +:+ "." +:+ String d EmptyString) = true.
Proof.
  intros Hds Hd. induction ds as [|c ds IH]; simpl.
  - exact Hd.
  - simpl in Hds. apply andb_true_iff in Hds as [Hc Hds].
    rewrite Hc. apply IH. exact Hds.
Qed.

Lemma digit_not_minus (c : ascii) :
  isdigit c = true → Ascii.eqb c "-" = false.
Proof.
  intros Hc. destruct (Ascii.eqb_spec c "-") as [->|]; [discriminate | reflexivity].
Qed.

(** [%.1f] of a number: an optional sign, digits, a point and one digit. *)
Lemma fmt_1f_one_decimal (x : float) :
  is_finite x = true → one_decimal (fmt_1f x) = true.
Proof.
  destruct x as [s|s| |s m e]; simpl; try discriminate; intros _.
  - destruct s; reflexivity.
  - pose proof (tenths_nonneg m e) as Ht.
    destruct (fmt_d_nonneg (tenths m e / 10)) as (c & rest & -> & Hc & Hrest).
    { apply Z.div_pos; lia. }
    destruct (fmt_d_digit (tenths m e mod 10)) as (d & -> & Hd).
    { apply Z.mod_pos_bound. lia. }
    pose proof (digits_point_digit_app rest d Hrest Hd) as Hbody.
    unfold one_decimal. destruct s; simpl.
    + rewrite Hc. exact Hbody.
    + rewrite (digit_not_minus c Hc), Hc. exact Hbody.
Qed.

(** [%d] prints the decimal numeral of its argument. *)
Lemma fmt_d_decimal (z : Z) :
  Z.of_int <$> NilZero.int_of_string (fmt_d z) = Some z.
Proof.
  unfold fmt_d. rewrite NilZero.isi.
  - simpl. f_equal. apply DecimalZ.of_to.
  - destruct z; simpl; try discriminate.
    intros [= H]. revert H. apply DecimalPos.Unsigned.to_uint_nonnil.
  - destruct z; simpl; try discriminate.
    intros [= H]. revert H. apply DecimalPos.Unsigned.to_uint_nonnil.
Qed.

Lemma printable_finite (entries : list slot) :
  Forall printable entries →
  Forall (λ m, is_finite (rating m) = true) (occupied entries).
Proof.
  induction 1 as [|p entries Hp _ IH]; simpl; [constructor|].
  destruct p as [|m|]; simpl in Hp; [exact IH | | destruct Hp].
  constructor; [tauto | exact IH].
Qed.

(** The saving loop appends the line of every occupied cell it visits, in
    the order of the cells. *)
Lemma save_loop_spec (n : nat) :
  ∀ (entries : list slot) (i : nat) (out : string),
    (i + n ≤ length entries)%nat →
    Forall printable (take n (drop i entries)) →
    save_loop n (Some entries) (Z.of_nat i) out
    = Done (out +:+ join (map record_line (occupied (take n (drop i entries))))).
Proof.
  induction n as [|n IH]; intros entries i out Hlen Hall.
  - simpl. rewrite append_nil_r. reflexivity.
  - destruct (lookup_lt_is_Some_2 entries i) as [p Hp]; [lia|].
    rewrite (drop_S _ _ _ Hp) in *. simpl in Hall.
    apply Forall_cons in Hall as [Hprint Hall].
    cbn [save_loop block_of mbind outcome_bind].
    rewrite (array_get_nat _ _ _ Hp). cbn [mbind outcome_bind].
    replace (Z.of_nat i + 1) with (Z.of_nat (S i)) by lia.
    destruct p as [|m|]; simpl in Hprint; [| |destruct Hprint].
    + cbn [is_null mbind outcome_bind take occupied].
      apply IH; [lia | exact Hall].
    + destruct Hprint as ([t Ht] & [d Hd] & _).
      cbn [is_null deref mbind outcome_bind take occupied map].
      unfold save_line. rewrite Ht, Hd. cbn [str_arg mbind outcome_bind].
      rewrite IH by (lia || exact Hall).
      unfold record_line. rewrite Ht, Hd. cbn [default join foldr].
      rewrite append_assoc. reflexivity.
Qed.

(** C7: an opened save replaces the file by the lines of the occupied
    cells below the count, one line each, in cell order; a line is
    title, director, year and rating separated by [|] and closed by a line
    feed, the year a decimal numeral, the rating with one digit after the
    point. *)
Theorem save_writes_occupied (old : option string) (entries : list slot)
    (count : Z) :
  0 ≤ count ≤ Z.of_nat (length entries) →
  Forall printable (take (Z.to_nat count) entries) →
  save_movies_to_file true old (Some entries) count
  = Done (Some (join (map record_line
                          (occupied (take (Z.to_nat count) entries)))), [])
  ∧ Forall (λ m, one_decimal (fmt_1f (rating m)) = true
                 ∧ Z.of_int <$> NilZero.int_of_string (fmt_d (year m))
                   = Some (year m))
           (occupied (take (Z.to_nat count) entries)).
Proof.
  intros Hcount Hall. split.
  - unfold save_movies_to_file.
    change 0 with (Z.of_nat 0).
    rewrite (save_loop_spec _ entries 0 EmptyString) by (simpl; (lia || exact Hall)).
    reflexivity.
  - apply printable_finite in Hall.
    eapply Forall_impl; [exact Hall|].
    intros m Hm. split; [apply fmt_1f_one_decimal; exact Hm | apply fmt_d_decimal].
Qed.

Lemma save_writes_occupied_witness :
  save_movies_to_file true (Some "stale") (Some sparse) 3
  = Done (Some ("A|a|2001|0.0" +:+ LF +:+ "B|b|2002|3.0" +:+ LF), []).
Proof.
  apply (save_writes_occupied (Some "stale") sparse 3).
  - simpl. lia.
  - simpl. repeat constructor; eexists; reflexivity.
Defined.

End SaveFacts.

(** ** Loading *)

Module LoadFacts.

Import CatalogFacts SaveFacts.

#[local] Arguments String.append !s1 s2 : simpl nomatch.
#[local] Arguments create_movie : simpl never.

Lemma length_append (a b : string) :
  String.length (a +:+ b) = (String.length a + String.length b)%nat.
Proof. induction a as [|x a IH]; simpl; [reflexivity | f_equal; exact IH]. Qed.

Lemma advance_app (pre x : string) (k : nat) :
  advance (String.length pre + k) (pre +:+ x) = advance k x.
Proof. induction pre as [|c pre IH]; simpl; [reflexivity | exact IH]. Qed.

Lemma advance_length (pre x : string) :
  advance (String.length pre) (pre +:+ x) = x.
Proof.
  rewrite <- (Nat.add_0_r (String.length pre)), advance_app. reflexivity.
Qed.

Lemma terminate_at_app (pre x : string) (k : nat) :
  terminate_at (String.length pre + k) (pre +:+ x) = pre +:+ terminate_at k x.
Proof. induction pre as [|c pre IH]; simpl; [reflexivity | f_equal; exact IH]. Qed.

Lemma at_end_app (pre x : string) (k : nat) :
  at_end (pre +:+ x) (String.length pre + k) = at_end x k.
Proof. unfold at_end. rewrite advance_app. reflexivity. Qed.

(** [strtok] resumed behind a prefix works on the rest of the buffer as it
    would from the start of it. *)
Lemma strtok_frame (pre b b' : string) (d : ascii) (q : option nat) (p : nat) :
  strtok b 0 d = (q, b', p) →
  strtok (pre +:+ b) (String.length pre) d
  = (Nat.add (String.length pre) <$> q, pre +:+ b', (String.length pre + p)%nat).
Proof.
  unfold strtok. simpl. rewrite advance_length.
  set (a := strspn b d). rewrite at_end_app, advance_app.
  destruct (at_end b a).
  - intros [= <- <- <-]. reflexivity.
  - set (c := strcspn (advance a b) d).
    rewrite <- Nat.add_assoc, at_end_app, terminate_at_app.
    destruct (at_end b (a + c)).
    + intros [= <- <- <-]. reflexivity.
    + intros [= <- <- <-]. simpl. rewrite Nat.add_succ_r. reflexivity.
Qed.

(** A leading separator is skipped. *)
Lemma strtok_skip (b : string) :
  strtok (String pipe b) 0 pipe = strtok (String pipe b) 1 pipe.
Proof. reflexivity. Qed.

Lemma word_after_word (d : ascii) (s : string) :
  s = word d s +:+ after_word d s.
Proof.
  induction s as [|c s IH]; simpl; [reflexivity|].
  destruct (Ascii.eqb c d); simpl; [reflexivity | f_equal; exact IH].
Qed.

Lemma word_all (d : ascii) (s : string) :
  after_word d s = EmptyString → word d s = s.
Proof.
  intros H. pose proof (word_after_word d s) as E.
  rewrite H, append_nil_r in E. symmetry. exact E.
Qed.

Lemma after_word_shape (d : ascii) (s : string) :
  after_word d s = EmptyString ∨ ∃ r, after_word d s = String d r.
Proof.
  induction s as [|c s IH]; simpl; [left; reflexivity|].
  destruct (Ascii.eqb_spec c d) as [->|]; [right; eauto | exact IH].
Qed.

Lemma clean_app (a b : string) :
  clean (a +:+ b) = clean a && clean b.
Proof.
  induction a as [|c a IH]; simpl; [reflexivity|].
  rewrite IH. apply andb_assoc.
Qed.

Lemma clean_word (d : ascii) (s : string) : clean s = true → clean (word d s) = true.
Proof.
  intros H. rewrite (word_after_word d s), clean_app in H.
  apply andb_true_iff in H. tauto.
Qed.

Lemma clean_after_word (d : ascii) (s : string) :
  clean s = true → clean (after_word d s) = true.
Proof.
  intros H. rewrite (word_after_word d s), clean_app in H.
  apply andb_true_iff in H. tauto.
Qed.

(** The C string read where a clean text is followed by a terminator. *)
Lemma c_str_app (w fin : string) :
  clean w = true → closes fin = true → c_str (w +:+ fin) = w.
Proof.
  intros Hw Hfin. induction w as [|c w IH]; simpl.
  - destruct fin as [|c fin]; simpl in *; [reflexivity|]. rewrite Hfin. reflexivity.
  - simpl in Hw. apply andb_true_iff in Hw as [Hc Hw].
    apply negb_true_iff in Hc. rewrite Hc. f_equal. apply IH. exact Hw.
Qed.

Lemma strcspn_word (x fin : string) :
  clean x = true → closes fin = true →
  strcspn (x +:+ fin) pipe = String.length (word pipe x).
Proof.
  intros Hx Hfin. induction x as [|c x IH]; simpl.
  - destruct fin as [|c fin]; simpl in *; [reflexivity|]. rewrite Hfin. reflexivity.
  - simpl in Hx. apply andb_true_iff in Hx as [Hc Hx].
    apply negb_true_iff in Hc. rewrite Hc.
    destruct (Ascii.eqb c pipe); simpl; [reflexivity | f_equal; apply IH; exact Hx].
Qed.

Lemma split_on_word (d : ascii) (s : string) :
  split_on d s =
    match after_word d s with
    | EmptyString => [word d s]
    | String _ r => word d s :: split_on d r
    end.
Proof.
  induction s as [|c s IH]; simpl; [reflexivity|].
  destruct (Ascii.eqb c d); [reflexivity|].
  rewrite IH. destruct (after_word d s); reflexivity.
Qed.

Lemma tokens_sep (x : string) :
  tokens pipe (String pipe x) = tokens pipe x.
Proof. reflexivity. Qed.

Lemma tokens_word (c : ascii) (x : string) :
  Ascii.eqb c pipe = false →
  tokens pipe (String c x)
  = String c (word pipe x)
      :: match after_word pipe x with
         | EmptyString => []
         | String _ r => tokens pipe r
         end.
Proof.
  intros Hc. unfold tokens. rewrite split_on_word. simpl. rewrite Hc.
  destruct (after_word pipe x); reflexivity.
Qed.

(** [strtok] at a character that is neither a separator nor a terminator:
    the token runs to the next separator, which is overwritten, or to the
    end of the string. *)
Lemma strtok_word (c : ascii) (x fin : string) :
  Ascii.eqb c NUL = false → Ascii.eqb c pipe = false →
  clean x = true → closes fin = true →
  strtok (String c x +:+ fin) 0 pipe =
    match after_word pipe x with
    | EmptyString =>
        (Some O, String c x +:+ fin, String.length (String c x))
    | String _ r =>
        (Some O, String c (word pipe x) +:+ String NUL (r +:+ fin),
         S (String.length (String c (word pipe x))))
    end.
Proof.
  intros Hnul Hsep Hx Hfin.
  assert (Hlen : strcspn (String c x +:+ fin) pipe
                 = String.length (String c (word pipe x))).
  { simpl. rewrite Hnul, Hsep. f_equal. apply strcspn_word; assumption. }
  unfold strtok. cbn [advance Nat.add]. 
  assert (Hspn : strspn (String c x +:+ fin) pipe = O).
  { simpl. rewrite Hnul, Hsep. reflexivity. }
  rewrite Hspn. cbn [advance Nat.add].
  assert (Hat0 : at_end (String c x +:+ fin) 0 = false).
  { unfold at_end. simpl. exact Hnul. }
  rewrite Hat0, Hlen.
  assert (Hsplit : String c x +:+ fin
                   = String c (word pipe x) +:+ (after_word pipe x +:+ fin)).
  { rewrite <- append_assoc. simpl. rewrite <- word_after_word. reflexivity. }
  set (w := String c (word pipe x)) in *.
  assert (Hat : at_end (String c x +:+ fin) (String.length w)
                = at_end (after_word pipe x +:+ fin) 0).
  { rewrite Hsplit, <- (Nat.add_0_r (String.length w)). apply at_end_app. }
  assert (Hterm : terminate_at (String.length w) (String c x +:+ fin)
                  = w +:+ terminate_at 0 (after_word pipe x +:+ fin)).
  { rewrite Hsplit, <- (Nat.add_0_r (String.length w)). apply terminate_at_app. }
  rewrite Hat, Hterm. clear Hat Hterm Hsplit.
  destruct (after_word_shape pipe x) as [Hz|[r Hz]]; rewrite Hz in *.
  - change (at_end (EmptyString +:+ fin) 0) with (closes fin). rewrite Hfin.
    unfold w. rewrite (word_all pipe x Hz). reflexivity.
  - reflexivity.
Qed.

(** One [strtok] call on a buffer whose unread part is the clean text [x]:
    it answers null exactly when [x] has no token left, otherwise it
    answers the place of the first token of [x]; what remains unread holds
    the other tokens. *)
Lemma strtok_start (x : string) :
  ∀ fin,
    clean x = true → closes fin = true →
    ∃ q P' x',
      strtok (x +:+ fin) 0 pipe = (q, P' +:+ x' +:+ fin, String.length P') ∧
      clean x' = true ∧
      tokens pipe x' = tail (tokens pipe x) ∧
      match tokens pipe x with
      | [] => q = None
      | tk :: _ =>
          ∃ q0, q = Some q0 ∧ c_str (advance q0 (P' +:+ x' +:+ fin)) = tk
      end.
Proof.
  induction x as [|c x IH]; intros fin Hx Hfin.
  - exists None, EmptyString, EmptyString. simpl.
    split; [|repeat split].
    unfold strtok. simpl.
    destruct fin as [|c fin]; [reflexivity|].
    simpl in Hfin. unfold at_end. simpl. rewrite Hfin. simpl.
    rewrite Hfin. reflexivity.
  - simpl in Hx. apply andb_true_iff in Hx as [Hc Hx].
    apply negb_true_iff in Hc.
    destruct (Ascii.eqb_spec c pipe) as [->|Hsep].
    + destruct (IH fin Hx Hfin) as (q & P' & x' & Hrun & Hx' & Htoks & Hq).
      exists (Nat.add 1 <$> q), (String pipe P'), x'.
      split; [|split; [exact Hx'|split; [exact Htoks|]]].
      * change (String pipe x +:+ fin) with (String pipe (x +:+ fin)).
        rewrite strtok_skip.
        exact (strtok_frame (String pipe EmptyString) _ _ _ _ _ Hrun).
      * rewrite tokens_sep. destruct (tokens pipe x) as [|tk tks].
        -- rewrite Hq. reflexivity.
        -- destruct Hq as (q0 & -> & Hread). exists (S q0).
           split; [reflexivity | exact Hread].
    + apply Ascii.eqb_neq in Hsep.
      rewrite (strtok_word c x fin Hc Hsep Hx Hfin), (tokens_word c x Hsep).
      pose proof (clean_word pipe x Hx) as Hw.
      pose proof (clean_after_word pipe x Hx) as Hz.
      destruct (after_word pipe x) as [|c' r] eqn:Hafter.
      * exists (Some O), (String c x), EmptyString.
        split; [reflexivity|]. split; [reflexivity|]. split; [reflexivity|].
        exists O. split; [reflexivity|].
        rewrite (word_all pipe x Hafter).
        change (c_str (String c x +:+ fin) = String c x).
        apply c_str_app; [simpl; rewrite Hc, Hx; reflexivity | exact Hfin].
      * simpl in Hz. apply andb_true_iff in Hz as [_ Hr].
        exists (Some O), (String c (word pipe x) +:+ String NUL EmptyString), r.
        split; [|split; [exact Hr|split; [reflexivity|]]].
        -- rewrite append_assoc, length_append. simpl.
           rewrite Nat.add_1_r. reflexivity.
        -- exists O. split; [reflexivity|].
           rewrite append_assoc. change (advance 0 ?b) with b.
           apply c_str_app; [simpl; rewrite Hc, Hw; reflexivity | reflexivity].
Qed.

Lemma strtok_next (P x fin : string) :
  clean x = true → closes fin = true →
  ∃ q P' x',
    strtok (P +:+ x +:+ fin) (String.length P) pipe
    = (q, P' +:+ x' +:+ fin, String.length P') ∧
    clean x' = true ∧
    tokens pipe x' = tail (tokens pipe x) ∧
    match tokens pipe x with
    | [] => q = None
    | tk :: _ =>
        ∃ q0, q = Some q0 ∧ c_str (advance q0 (P' +:+ x' +:+ fin)) = tk
    end.
Proof.
  intros Hx Hfin.
  destruct (strtok_start x fin Hx Hfin) as (q & P0 & x' & Hrun & Hx' & Htoks & Hq).
  exists (Nat.add (String.length P) <$> q), (P +:+ P0), x'.
  split; [|split; [exact Hx'|split; [exact Htoks|]]].
  - rewrite (strtok_frame P _ _ _ _ _ Hrun), append_assoc, length_append.
    reflexivity.
  - destruct (tokens pipe x) as [|tk tks].
    + rewrite Hq. reflexivity.
    + destruct Hq as (q0 & -> & Hread).
      exists (String.length P + q0)%nat. split; [reflexivity|].
      rewrite append_assoc, advance_app. exact Hread.
Qed.

(** The three [strtok] calls of [load_movies_from_file] on a line with the
    clean text [x]: they all answer a token exactly when [x] has three
    tokens, and the third of them is then read at the third answer. *)
Lemma three_tokens (x fin : string) :
  clean x = true → closes fin = true →
  ∃ title director year_str l1 l2 l3 s1 s2 s3,
    strtok (x +:+ fin) 0 pipe = (title, l1, s1) ∧
    strtok l1 s1 pipe = (director, l2, s2) ∧
    strtok l2 s2 pipe = (year_str, l3, s3) ∧
    match tokens pipe x with
    | _ :: _ :: y :: _ =>
        ∃ qt qd qy, title = Some qt ∧ director = Some qd ∧
                    year_str = Some qy ∧ c_str (advance qy l3) = y
    | _ => title = None ∨ director = None ∨ year_str = None
    end.
Proof.
  intros Hx Hfin.
  destruct (strtok_next EmptyString x fin Hx Hfin)
    as (q1 & P1 & x1 & Hrun1 & Hx1 & Htoks1 & Hq1).
  destruct (strtok_next P1 x1 fin Hx1 Hfin)
    as (q2 & P2 & x2 & Hrun2 & Hx2 & Htoks2 & Hq2).
  destruct (strtok_next P2 x2 fin Hx2 Hfin)
    as (q3 & P3 & x3 & Hrun3 & Hx3 & Htoks3 & Hq3).
  simpl in Hrun1.
  eexists _, _, _, _, _, _, _, _, _.
  split; [exact Hrun1|]. split; [exact Hrun2|]. split; [exact Hrun3|].
  rewrite Htoks1 in *. rewrite Htoks2 in *.
  destruct (tokens pipe x) as [|t [|d [|y more]]]; simpl in *; auto.
  destruct Hq1 as (qt & -> & _), Hq2 as (qd & -> & _), Hq3 as (qy & -> & Hy).
  eauto 10.
Qed.

(** The buffer after the line feed is cut off: the text of the line and a
    terminator. *)
Lemma line_cut (raw : string) :
  ∃ fin,
    terminate_at (strcspn raw newline) raw = line_text raw +:+ fin ∧
    closes fin = true ∧ clean (line_text raw) = true.
Proof.
  induction raw as [|c raw (fin & Hcut & Hfin & Hclean)]; simpl.
  - exists EmptyString. repeat split.
  - destruct (Ascii.eqb c NUL) eqn:Hnul; simpl.
    + exists (String NUL raw). repeat split.
    + destruct (Ascii.eqb c newline); simpl.
      * exists (String NUL raw). repeat split.
      * exists fin. rewrite Hcut, Hnul, Hclean. repeat split. exact Hfin.
Qed.

(** A text without a number at its start converts to 0. *)
Lemma atoi_not_numeric (s : string) :
  starts_numeric s = false → atoi s = Done 0.
Proof.
  unfold starts_numeric, atoi.
  destruct (skip_spaces s) as [|c rest]; [reflexivity|].
  destruct (Ascii.eqb c "-"); simpl.
  - destruct rest as [|c' rest]; [reflexivity|]. simpl. intros ->. reflexivity.
  - destruct (Ascii.eqb c "+"); simpl.
    + destruct rest as [|c' rest]; [reflexivity|]. simpl. intros ->. reflexivity.
    + intros ->. reflexivity.
Qed.

Lemma resize_entries_total (granted : bool) (entries : list slot) (capacity : Z) :
  0 < capacity → 2 * capacity ≤ INT_MAX →
  ∃ r, resize_entries granted entries capacity = Done (r, 2 * capacity).
Proof.
  intros Hpos Hmax. destruct granted.
  - rewrite resize_entries_granted by assumption. eauto.
  - rewrite resize_entries_refused by assumption. eauto.
Qed.

Lemma create_movie_year_0 (h : heap) (t d : cstr) :
  create_movie h t d 0 = (None, []).
Proof. unfold create_movie. destruct t, d; reflexivity. Qed.

(** The body of the loading loop on a line with fewer than three tokens,
    and on a line whose third token starts with no number. *)
Lemma load_line_skips (granted : bool) (h : heap) (raw : string) (st : catalog) :
  0 < movie_capacity st → 2 * movie_capacity st ≤ INT_MAX →
  ∃ st',
    movie_count st' = movie_count st ∧
    (movie_count st ≠ movie_capacity st → st' = st) ∧
    match tokens pipe (line_text raw) with
    | _ :: _ :: y :: _ =>
        starts_numeric y = false → load_line granted h raw st = Done (st', [])
    | _ =>
        ∃ text,
          load_line granted h raw st
          = Done (st', [Stderr ("Error parsing line: " +:+ text +:+ LF)])
    end.
Proof.
  intros Hpos Hmax.
  destruct (line_cut raw) as (fin & Hcut & Hfin & Hclean).
  destruct (three_tokens (line_text raw) fin Hclean Hfin)
    as (title & director & year_str & l1 & l2 & l3 & s1 & s2 & s3
        & Hrun1 & Hrun2 & Hrun3 & Htoks).
  assert (Hgrow : ∃ st',
    (if decide (movie_count st = movie_capacity st) then
       '(r, capacity) ← resize_entries granted (default [] (movies st))
                                       (movie_capacity st);
       Done (mkCatalog r (movie_count st) capacity)
     else Done st) = Done st'
    ∧ movie_count st' = movie_count st
    ∧ (movie_count st ≠ movie_capacity st → st' = st)).
  { destruct (decide (movie_count st = movie_capacity st)) as [Hfull|Hroom].
    - destruct (resize_entries_total granted (default [] (movies st))
                  (movie_capacity st) Hpos Hmax) as [r ->].
      eexists. split; [reflexivity|]. split; [reflexivity | tauto].
    - exists st. repeat split. }
  destruct Hgrow as (st' & Hgrow & Hcount & Hsame).
  exists st'. split; [exact Hcount|]. split; [exact Hsame|].
  unfold load_line. rewrite Hcut, Hgrow. cbn [mbind outcome_bind].
  rewrite Hrun1, Hrun2, Hrun3.
  destruct (tokens pipe (line_text raw)) as [|t [|d [|y more]]].
  - destruct title, director, year_str; try (eexists; reflexivity);
      destruct Htoks as [?|[?|?]]; discriminate.
  - destruct title, director, year_str; try (eexists; reflexivity);
      destruct Htoks as [?|[?|?]]; discriminate.
  - destruct title, director, year_str; try (eexists; reflexivity);
      destruct Htoks as [?|[?|?]]; discriminate.
  - destruct Htoks as (qt & qd & qy & -> & -> & -> & Hy). intros Hnum.
    rewrite Hy, (atoi_not_numeric y Hnum). cbn [mbind outcome_bind].
    rewrite create_movie_year_0. reflexivity.
Qed.

Lemma fgets_rest (room : nat) :
  ∀ file, (String.length (snd (fgets room file)) ≤ String.length file)%nat.
Proof.
  induction room as [|room IH]; intros file; [reflexivity|].
  destruct file as [|c file]; simpl; [reflexivity|].
  destruct (Ascii.eqb c newline); simpl; [lia|].
  specialize (IH file). destruct (fgets room file). simpl in *. lia.
Qed.

Lemma fgets_rest_cons (room : nat) (c : ascii) (file : string) :
  (String.length (snd (fgets (S room) (String c file))) ≤ String.length file)%nat.
Proof.
  simpl. destruct (Ascii.eqb c newline); simpl; [lia|].
  pose proof (fgets_rest room file) as H. destruct (fgets room file).
  simpl in *. exact H.
Qed.

#[local] Arguments fgets : simpl never.

(** The loop of [load_movies_from_file] ends by itself: fuel beyond the
    length of the file changes nothing. *)
Lemma load_loop_enough (fuel : nat) :
  ∀ fuel' env k file st shown,
    (String.length file ≤ fuel)%nat → (String.length file ≤ fuel')%nat →
    load_loop fuel env k file st shown = load_loop fuel' env k file st shown.
Proof.
  induction fuel as [|fuel IH]; intros fuel' env k file st shown Hf Hf'.
  - destruct file; [|simpl in Hf; lia]. destruct fuel'; reflexivity.
  - destruct file as [|c file]; [destruct fuel'; reflexivity|].
    destruct fuel' as [|fuel']; [simpl in Hf'; lia|].
    cbn [load_loop].
    pose proof (fgets_rest_cons 254 c file) as Hlt.
    destruct (fgets 255 (String c file)) as [line rest].
    destruct (load_line _ _ line st) as [[st' more]|]; [|reflexivity].
    cbn [mbind outcome_bind]. simpl in Hlt, Hf, Hf'. apply IH; lia.
Qed.

(** C4 at its failing inputs: a record built in storage used before keeps
    the rating it finds there, here 5, when it is added and when it is
    loaded from a file. *)
Theorem rating_left_uninitialised :
  (∃ m, create_movie recycled (Some "Inception") (Some "Nolan") 2010
        = (Some m, [])
        ∧ fmt_1f (rating m) = "5.0" ∧ rating m ≠ float_zero)
  ∧ load_movies_from_file (Some two_lines) used (initial 10)
    = Done (mkCatalog
              (Some (Ptr (mkMovie (Some "Inception") (Some "Nolan") 2010
                                  (float_of_int 5))
                       :: replicate 9 Wild))
              1 10,
            [Stderr ("Error parsing line: BadLine" +:+ LF)]).
Proof.
  split; [|reflexivity].
  eexists. split; [reflexivity|]. split; [reflexivity | discriminate].
Qed.

End LoadFacts.

(** ** Scenarios of the specification, run on the embedding *)

Module Scenarios.

(** Capacity 1, two adds: the second add doubles the capacity; removing
    index 0 then leaves the second record at index 0. *)
Example grow_then_remove :
  adds [add_a; add_b] (initial 1)
  = Done [mkCatalog (Some [Ptr movie_a]) 1 1;
          mkCatalog (Some [Ptr movie_a; Ptr (set_rating movie_b float_zero)]) 2 2]
  ∧ delete_movie [Ptr movie_a; Ptr movie_b] 2 0 (chr "y")
    = Done ([Ptr movie_b; Null], 1,
            [Popup "INFO" "Delete selected movie? (y/n): ";
             Free_str (Some "A"); Free_str (Some "a"); Free_movie movie_a;
             Popup "INFO" "Movie deleted successfully!"]).
Proof. split; reflexivity. Qed.

(** In zeroed storage the loaded record is unrated, whatever the file says. *)
Example load_two_lines_zeroed :
  load_movies_from_file (Some two_lines) calm (initial 10)
  = Done (mkCatalog (Some (Ptr inception :: replicate 9 Wild)) 1 10,
          [Stderr ("Error parsing line: BadLine" +:+ LF)]).
Proof. reflexivity. Qed.

(** [atoi] reads a leading number and ignores what follows it. *)
Example atoi_lenient :
  atoi "2010abc" = Done 2010 ∧ atoi "abc" = Done 0 ∧ atoi " -12" = Done (-12).
Proof. repeat split. Qed.

(** Empty fields are not tokens: [strtok] skips runs of separators. *)
Example tokens_skip_empty_fields :
  split_on pipe "Inception||2010" = ["Inception"; ""; "2010"]%string
  ∧ tokens pipe "Inception||2010" = ["Inception"; "2010"]%string.
Proof. split; reflexivity. Qed.

(** A declined deletion changes nothing. *)
Example delete_declined :
  delete_movie shelf 3 1 (chr "n")
  = Done (shelf, 3, [Popup "INFO" "Delete selected movie? (y/n): ";
                     Popup "INFO" "Deletion canceled."]).
Proof. reflexivity. Qed.

(** A rating is accepted after a rejected line has been dropped. *)
Example rate_after_retry :
  rate_movie (Some inception) [chr "9"; chr "x"; chr "010"; chr "4"]
  = Some (Some (set_rating inception (float_of_int 4)),
          [rating_prompt "Inception";
           Popup "Warning" ("Invalid rating. Please try again." +:+ LF);
           rating_prompt "Inception"]).
Proof. reflexivity. Qed.

(** An update with the record's own title reads the string after it has
    been released; with strings of their own the same update succeeds. *)
Example update_with_own_title :
  Aliased.update_movie true true (Some inception) (title inception)
                       (Some "Nolan") Aliased.In_title Aliased.Apart 2011
  = Undef
  ∧ Aliased.update_movie true true (Some inception) (Some "Inception")
                         (Some "Nolan") Aliased.Apart Aliased.Apart 2011
    = Done (MOVIE_SUCCESS,
            Some (mkMovie (Some "Inception") (Some "Nolan") 2011 float_zero),
            [Free_str (Some "Inception"); Free_str (Some "Nolan")]).
Proof. split; reflexivity. Qed.

(** A file with two lines that are skipped between two lines of records:
    one diagnostic, two records. *)
Example load_between_skipped_lines :
  load_movies_from_file
    (Some ("A|a|2001|0.0" +:+ LF +:+ "|Heat|Mann" +:+ LF
             +:+ "Tenet|Nolan|soon|4.5" +:+ LF +:+ "B|b|2002|3.0" +:+ LF))
    calm (initial 1)
  = Done (mkCatalog
            (Some [Ptr movie_a; Ptr (set_rating movie_b float_zero)]) 2 2,
          [Stderr ("Error parsing line: |Heat" +:+ LF)]).
Proof. reflexivity. Qed.

End Scenarios.

(** ** More on deletion *)

Module DeleteFacts.

Import CatalogFacts SaveFacts.

Lemma occupied_app (a b : list slot) :
  occupied (a ++ b) = occupied a ++ occupied b.
Proof.
  induction a as [|p a IH]; simpl; [reflexivity|].
  destruct p; simpl; rewrite IH; reflexivity.
Qed.

(** What a confirmed deletion leaves in the block: the cells before the
    index, the counted cells behind it, a null, and the cells beyond the
    count. *)
Lemma delete_movie_closed (movies : list slot) (count index ch : Z) (m : Movie) :
  count ≤ Z.of_nat (length movies) → count ≤ INT_MAX →
  0 ≤ index < count →
  movies !! Z.to_nat index = Some (Ptr m) →
  ch = chr "y" ∨ ch = chr "Y" →
  delete_movie movies count index ch
  = Done (take (Z.to_nat index) movies
            ++ drop (S (Z.to_nat index)) (take (Z.to_nat count) movies)
            ++ Null :: drop (Z.to_nat count) movies,
          count - 1,
          [Popup "INFO" "Delete selected movie? (y/n): ";
           Free_str (title m); Free_str (director m); Free_movie m;
           Popup "INFO" "Movie deleted successfully!"]).
Proof.
  intros Hlen Hmax Hidx Hm Hch.
  set (i := Z.to_nat index) in *. set (n := Z.to_nat count).
  assert (Hi : index = Z.of_nat i) by lia.
  destruct (shift_up_lookup (Z.to_nat (count - 1 - index))
              (<[i := Null]> movies) i) as (a2 & Hrun & Hl2 & Hlk).
  { rewrite length_insert. lia. }
  rewrite length_insert in Hl2.
  unfold delete_movie.
  destruct (decide (index < 0)); [lia|].
  destruct (decide (index >= count)); [lia|].
  rewrite Hi at 1. rewrite (array_get_nat _ _ _ Hm). simpl.
  destruct (decide (ch = chr "y" ∨ ch = chr "Y")); [|tauto].
  simpl. rewrite Hi at 1. rewrite array_set_nat by lia. simpl.
  rewrite Hi at 2. rewrite Hrun. simpl.
  rewrite array_set_inside by lia. simpl.
  rewrite int_of_Done by (unfold INT_MIN; lia). simpl.
  do 2 f_equal. f_equal. apply list_eq. intros j.
  assert (Hti : length (take i movies) = i) by (rewrite length_take; lia).
  assert (Htd : length (drop (S i) (take n movies)) = (n - S i)%nat).
  { rewrite length_drop, length_take. lia. }
  destruct (decide (j = Z.to_nat (count - 1))) as [->|Hne].
  - rewrite list_lookup_insert_eq by lia.
    rewrite lookup_app_r by lia. rewrite lookup_app_r by lia.
    rewrite Hti, Htd.
    replace (Z.to_nat (count - 1) - i - (n - S i))%nat with O by lia.
    reflexivity.
  - rewrite list_lookup_insert_ne by congruence. rewrite Hlk.
    destruct (decide (i ≤ j < i + Z.to_nat (count - 1 - index))%nat) as [Hin|Hout].
    + rewrite list_lookup_insert_ne by lia.
      rewrite lookup_app_r by lia. rewrite lookup_app_l by lia.
      rewrite Hti, lookup_drop, lookup_take.
      destruct (decide _); [|lia]. f_equal. lia.
    + rewrite list_lookup_insert_ne by lia.
      destruct (decide (j < i)%nat).
      * rewrite lookup_app_l by lia. rewrite lookup_take.
        destruct (decide _); [reflexivity | lia].
      * rewrite lookup_app_r by lia. rewrite lookup_app_r by lia.
        rewrite Hti, Htd.
        replace (j - i - (n - S i))%nat with (S (j - n)) by lia.
        simpl. rewrite lookup_drop. f_equal. lia.
Qed.

Lemma printable_mono (a b : list slot) :
  Forall printable (a ++ b) → Forall printable a ∧ Forall printable b.
Proof. apply Forall_app. Qed.

(** X4. Deleting a record and saving: after a confirmed deletion of the
    record in cell [index], the counted cells hold the other records in
    their old order, and [save_movies_to_file] with the new count writes
    exactly their lines, in that order. *)
Theorem delete_then_save (old : option string) (movies : list slot)
    (count index ch : Z) (m : Movie) :
  count ≤ Z.of_nat (length movies) → count ≤ INT_MAX →
  0 ≤ index < count →
  movies !! Z.to_nat index = Some (Ptr m) →
  ch = chr "y" ∨ ch = chr "Y" →
  Forall printable (take (Z.to_nat count) movies) →
  ∃ movies' shown before after,
    occupied (take (Z.to_nat count) movies) = before ++ m :: after ∧
    delete_movie movies count index ch = Done (movies', count - 1, shown) ∧
    occupied (take (Z.to_nat (count - 1)) movies') = before ++ after ∧
    save_movies_to_file true old (Some movies') (count - 1)
    = Done (Some (join (map record_line (before ++ after))), []).
Proof.
  intros Hlen Hmax Hidx Hm Hch Hprint.
  set (i := Z.to_nat index) in *. set (n := Z.to_nat count) in *.
  assert (Hin : (i < n ≤ length movies)%nat) by lia.
  set (low := take i movies).
  set (high := drop (S i) (take n movies)).
  assert (Hsplit : take n movies = low ++ Ptr m :: high).
  { unfold low, high.
    rewrite <- (take_drop i (take n movies)) at 1.
    rewrite take_take, Nat.min_l by lia. f_equal.
    apply drop_S. rewrite lookup_take, Hm.
    destruct (decide (i < n)%nat); [reflexivity | lia]. }
  assert (Hll : length low = i) by (unfold low; rewrite length_take; lia).
  assert (Hlh : length high = (n - S i)%nat).
  { unfold high. rewrite length_drop, length_take. lia. }
  set (movies' := low ++ high ++ Null :: drop n movies).
  assert (Htake : take (Z.to_nat (count - 1)) movies' = low ++ high).
  { unfold movies'. rewrite app_assoc.
    rewrite take_app_length' by (rewrite length_app; lia). reflexivity. }
  exists movies'. eexists. exists (occupied low), (occupied high).
  split; [rewrite Hsplit, occupied_app; reflexivity|].
  split; [exact (delete_movie_closed movies count index ch m
                    Hlen Hmax Hidx Hm Hch)|].
  split; [rewrite Htake, occupied_app; reflexivity|].
  unfold save_movies_to_file. change 0 with (Z.of_nat 0).
  rewrite (save_loop_spec _ movies' 0 EmptyString).
  - rewrite drop_0, Htake, occupied_app. reflexivity.
  - unfold movies'. rewrite !length_app. simpl. lia.
  - rewrite drop_0, Htake. rewrite Hsplit in Hprint.
    apply Forall_app in Hprint as [Hlow Hhigh].
    apply Forall_cons in Hhigh as [_ Hhigh].
    apply Forall_app; split; assumption.
Qed.

Lemma delete_then_save_witness :
  ∃ movies' shown before after,
    occupied (take (Z.to_nat 3) shelf) = before ++ movie_b :: after ∧
    delete_movie shelf 3 1 (chr "y") = Done (movies', 3 - 1, shown) ∧
    occupied (take (Z.to_nat (3 - 1)) movies') = before ++ after ∧
    save_movies_to_file true None (Some movies') (3 - 1)
    = Done (Some (join (map record_line (before ++ after))), []).
Proof.
  apply (delete_then_save None shelf 3 1 (chr "y") movie_b).
  - simpl. lia.
  - unfold INT_MAX. lia.
  - lia.
  - reflexivity.
  - left. reflexivity.
  - simpl. repeat constructor; simpl; eauto.
Defined.

Lemma delete_movie_refused (movies : list slot) (count index ch : Z) :
  index < 0 ∨ index >= count ∨ movies !! Z.to_nat index = Some Null →
  delete_movie movies count index ch = Done (movies, count, invalid_index).
Proof.
  intros H. unfold delete_movie.
  destruct (decide (index < 0)); [reflexivity|].
  destruct (decide (index >= count)); [reflexivity|].
  destruct H as [H|[H|H]]; [lia | lia |].
  assert (Hget : array_get movies index = Done Null).
  { rewrite <- (array_get_nat _ _ _ H). f_equal. lia. }
  rewrite Hget. reflexivity.
Qed.

Lemma delete_movie_declined (movies : list slot) (count index ch : Z) :
  count ≤ Z.of_nat (length movies) →
  (∀ j, (j < Z.to_nat count)%nat → movies !! j ≠ Some Wild) →
  ch ≠ chr "y" → ch ≠ chr "Y" →
  ∃ shown,
    delete_movie movies count index ch = Done (movies, count, shown) ∧
    Forall is_popup shown.
Proof.
  intros Hlen Hinit Hy HY.
  assert (Hwarn : Forall is_popup invalid_index).
  { repeat constructor. unfold is_popup. eauto. }
  destruct (decide (index < 0 ∨ index >= count)) as [Hout|Hin].
  { exists invalid_index. split; [|exact Hwarn].
    apply delete_movie_refused. tauto. }
  destruct (lookup_lt_is_Some_2 movies (Z.to_nat index)) as [p Hp]; [lia|].
  destruct p as [|m|].
  - exists invalid_index. split; [|exact Hwarn].
    apply delete_movie_refused. auto.
  - assert (Hget : array_get movies index = Done (Ptr m)).
    { rewrite <- (array_get_nat _ _ _ Hp). f_equal. lia. }
    unfold delete_movie.
    destruct (decide (index < 0)); [lia|].
    destruct (decide (index >= count)); [lia|].
    rewrite Hget. cbn [is_null mbind outcome_bind].
    destruct (decide (ch = chr "y" ∨ ch = chr "Y")); [tauto|].
    destruct (decide (ch = chr "n" ∨ ch = chr "N"));
      (eexists; split; [reflexivity|]; repeat constructor; unfold is_popup; eauto).
  - exfalso. apply (Hinit (Z.to_nat index)); [lia | exact Hp].
Qed.

(** X5. Nothing is deleted without a [y]: when the key read after the
    confirmation popup is neither [y] nor [Y], [delete_movie] and
    [handle_deletion] leave the array and the count as they are and release
    nothing (all they do is show popups), at every index. *)
Theorem deletion_needs_confirmation (movies : list slot)
    (count index ch : Z) :
  count ≤ Z.of_nat (length movies) →
  (∀ j, (j < Z.to_nat count)%nat → movies !! j ≠ Some Wild) →
  ch ≠ chr "y" → ch ≠ chr "Y" →
  ∃ shown shown',
    delete_movie movies count index ch = Done (movies, count, shown) ∧
    handle_deletion movies count index ch = Done (movies, count, shown') ∧
    ∀ e, e ∈ shown ++ shown' → ∃ heading message, e = Popup heading message.
Proof.
  intros Hlen Hinit Hy HY.
  destruct (delete_movie_declined movies count index ch Hlen Hinit Hy HY)
    as (shown & Hrun & Hshown).
  rewrite Forall_forall in Hshown.
  unfold handle_deletion.
  destruct (decide (index < 0 ∨ index >= count)).
  - exists shown. eexists. split; [exact Hrun|]. split; [reflexivity|].
    intros e. rewrite elem_of_app, list_elem_of_singleton.
    intros [He| ->]; [apply Hshown, He | eauto].
  - exists shown, shown. split; [exact Hrun|]. split; [exact Hrun|].
    intros e. rewrite elem_of_app. intros [He|He]; apply Hshown, He.
Qed.

Lemma deletion_needs_confirmation_witness :
  ∃ shown shown',
    delete_movie shelf 3 1 (chr "n") = Done (shelf, 3, shown) ∧
    handle_deletion shelf 3 1 (chr "n") = Done (shelf, 3, shown') ∧
    ∀ e, e ∈ shown ++ shown' → ∃ heading message, e = Popup heading message.
Proof.
  apply (deletion_needs_confirmation shelf 3 1 (chr "n")).
  - simpl. lia.
  - intros j Hj.
    destruct j as [|[|[|j]]]; simpl; try discriminate.
    simpl in Hj. lia.
  - discriminate.
  - discriminate.
Defined.

End DeleteFacts.

(** ** Reading back what was written *)

Module RoundTripFacts.

Import RecFacts CatalogFacts MainFacts SaveFacts LoadFacts.

#[local] Arguments String.append !s1 s2 : simpl nomatch.
#[local] Arguments create_movie : simpl never.

Lemma digits_uint_acc (u : Decimal.uint) :
  ∀ acc : positive,
    digits (Z.pos acc) (NilEmpty.string_of_uint u) = Z.pos (Pos.of_uint_acc u acc).
Proof.
  induction u; intros acc; simpl; try reflexivity; rewrite <- IHu; f_equal;
    match goal with
    | |- context [Z.of_nat (nat_of_ascii ?c)] =>
        let v := eval vm_compute in (Z.of_nat (nat_of_ascii c)) in
        change (Z.of_nat (nat_of_ascii c)) with v
    end; lia.
Qed.

Lemma digits_uint (u : Decimal.uint) :
  digits 0 (NilEmpty.string_of_uint u) = Z.of_N (Pos.of_uint u).
Proof.
  induction u; simpl; try reflexivity; try exact IHu;
    apply (digits_uint_acc u).
Qed.

(** [atoi] reads back what [%d] prints. *)
Lemma atoi_fmt_d (y : Z) : INT_MIN ≤ y ≤ INT_MAX → atoi (fmt_d y) = Done y.
Proof.
  intros Hy. unfold fmt_d. destruct y as [|p|p]; [reflexivity| |].
  - simpl. pose proof (DecimalPos.Unsigned.of_to p) as Hp.
    pose proof (DecimalPos.Unsigned.to_uint_nonnil p) as Hnil.
    pose proof (digits_uint (Pos.to_uint p)) as Hd. rewrite Hp in Hd.
    unfold atoi.
    destruct (Pos.to_uint p); [congruence| ..]; simpl in *;
      rewrite Hd; apply int_of_Done; exact Hy.
  - simpl. pose proof (DecimalPos.Unsigned.of_to p) as Hp.
    pose proof (DecimalPos.Unsigned.to_uint_nonnil p) as Hnil.
    pose proof (digits_uint (Pos.to_uint p)) as Hd. rewrite Hp in Hd.
    unfold atoi.
    destruct (Pos.to_uint p); [congruence| ..]; simpl in *;
      rewrite Hd; apply int_of_Done; exact Hy.
Qed.

Lemma unbroken_plain (s : string) : unbroken s = true → plain s = true.
Proof.
  induction s as [|c s IH]; simpl; [reflexivity|].
  rewrite !andb_true_iff. intros [[[Hn Hl] _] Hs]. auto.
Qed.

Lemma plain_clean (s : string) : plain s = true → clean s = true.
Proof.
  induction s as [|c s IH]; simpl; [reflexivity|].
  rewrite !andb_true_iff. intros [[Hn _] Hs]. auto.
Qed.

Lemma plain_app (a b : string) : plain (a +:+ b) = plain a && plain b.
Proof.
  induction a as [|c a IH]; simpl; [reflexivity|].
  rewrite IH. rewrite !andb_assoc. reflexivity.
Qed.

Lemma all_digits_unbroken (s : string) : all_digits s = true → unbroken s = true.
Proof.
  induction s as [|c s IH]; simpl; [reflexivity|].
  rewrite andb_true_iff. intros [Hc Hs]. rewrite (IH Hs), andb_true_r.
  destruct (Ascii.eqb_spec c NUL) as [->|]; [discriminate|].
  destruct (Ascii.eqb_spec c newline) as [->|]; [discriminate|].
  destruct (Ascii.eqb_spec c pipe) as [->|]; [discriminate|]. reflexivity.
Qed.

(** [%d] of a number that is not negative is one token. *)
Lemma fmt_d_field (y : Z) : 0 ≤ y → field (fmt_d y) = true.
Proof.
  intros Hy. destruct (fmt_d_nonneg y Hy) as (c & rest & -> & Hc & Hrest).
  unfold field. simpl.
  apply (all_digits_unbroken (String c rest)). simpl. rewrite Hc. exact Hrest.
Qed.

(** [%.1f] of a number has no NUL and no line feed. *)
Lemma fmt_1f_plain (x : float) : is_finite x = true → plain (fmt_1f x) = true.
Proof.
  destruct x as [s|s| |s m e]; simpl; try discriminate; intros _.
  - destruct s; reflexivity.
  - pose proof (tenths_nonneg m e) as Ht.
    destruct (fmt_d_nonneg (tenths m e / 10)) as (c & rest & -> & Hc & Hrest).
    { apply Z.div_pos; lia. }
    destruct (fmt_d_digit (tenths m e mod 10)) as (d & -> & Hd).
    { apply Z.mod_pos_bound. lia. }
    assert (Hip : plain (String c rest) = true).
    { apply unbroken_plain, all_digits_unbroken. simpl. rewrite Hc. exact Hrest. }
    assert (Hfp : plain (String d EmptyString) = true).
    { apply unbroken_plain, (all_digits_unbroken (String d EmptyString)).
      simpl. rewrite Hd. reflexivity. }
    rewrite !plain_app, Hip.
    change (plain (String "." (String d EmptyString)))
      with (plain (String d EmptyString)).
    rewrite Hfp. destruct s; reflexivity.
Qed.

Lemma layout_app (t d y r z : string) :
  layout t d y r z = layout t d y r EmptyString +:+ z.
Proof.
  unfold layout. rewrite !append_assoc. simpl. rewrite !append_assoc. simpl.
  rewrite !append_assoc. simpl. rewrite !append_assoc. reflexivity.
Qed.

Lemma layout_plain (t d y r : string) :
  plain t = true → plain d = true → plain y = true → plain r = true →
  plain (layout t d y r EmptyString) = true.
Proof.
  intros Ht Hd Hy Hr. unfold layout.
  rewrite plain_app, Ht. simpl. rewrite plain_app, Hd. simpl.
  rewrite plain_app, Hy. simpl. rewrite plain_app, Hr. reflexivity.
Qed.

(** [fgets] stores a line that fits, with its line feed. *)
Lemma fgets_line (body : string) :
  ∀ rest room,
    plain body = true → (String.length body < room)%nat →
    fgets room (body +:+ String newline rest)
    = (body +:+ String newline EmptyString, rest).
Proof.
  induction body as [|c body IH]; intros rest room Hp Hlen.
  - destruct room; [simpl in Hlen; lia|]. reflexivity.
  - destruct room; [simpl in Hlen; lia|].
    simpl in Hp. rewrite !andb_true_iff in Hp. destruct Hp as [[_ Hl] Hp].
    apply negb_true_iff in Hl.
    simpl. rewrite Hl.
    rewrite (IH rest room Hp) by (simpl in Hlen; lia). reflexivity.
Qed.

#[local] Arguments fgets : simpl never.

(** Cutting the line at its line feed. *)
Lemma cut_line (body : string) (rest : string) :
  plain body = true →
  terminate_at (strcspn (body +:+ String newline rest) newline)
               (body +:+ String newline rest)
  = body +:+ String NUL rest.
Proof.
  intros Hp. induction body as [|c body IH]; [reflexivity|].
  simpl in Hp. rewrite !andb_true_iff in Hp. destruct Hp as [[Hn Hl] Hp].
  apply negb_true_iff in Hn, Hl.
  simpl. rewrite Hn, Hl. simpl. f_equal. apply IH. exact Hp.
Qed.

Lemma strcspn_unbroken (t X : string) :
  unbroken t = true → strcspn (t +:+ String pipe X) pipe = String.length t.
Proof.
  intros Ht. induction t as [|c t IH]; [reflexivity|].
  simpl in Ht. rewrite !andb_true_iff in Ht. destruct Ht as [[[Hn _] Hs] Ht].
  apply negb_true_iff in Hn, Hs.
  simpl. rewrite Hn, Hs. f_equal. apply IH. exact Ht.
Qed.

(** [strtok] at the start of a field that a separator follows. *)
Lemma strtok_field (P t X : string) :
  field t = true →
  strtok (P +:+ t +:+ String pipe X) (String.length P) pipe
  = (Some (String.length P),
     (P +:+ t +:+ String NUL EmptyString) +:+ X,
     String.length (P +:+ t +:+ String NUL EmptyString)).
Proof.
  intros Ht. unfold field in Ht. apply andb_true_iff in Ht as [Hne Ht].
  assert (Hrun : strtok (t +:+ String pipe X) 0 pipe
                 = (Some O, t +:+ String NUL X, S (String.length t))).
  { pose proof (strcspn_unbroken t X Ht) as Hspan.
    destruct t as [|c t]; [discriminate|].
    simpl in Ht. rewrite !andb_true_iff in Ht. destruct Ht as [[[Hn _] Hs] Ht].
    apply negb_true_iff in Hn, Hs.
    unfold strtok. cbn [advance Nat.add].
    assert (Hspn : strspn (String c t +:+ String pipe X) pipe = O).
    { simpl. rewrite Hn, Hs. reflexivity. }
    rewrite Hspn. cbn [advance Nat.add]. rewrite Hspan.
    assert (Hat0 : at_end (String c t +:+ String pipe X) 0 = false).
    { unfold at_end. simpl. exact Hn. }
    rewrite Hat0.
    set (w := String c t).
    assert (Hat : at_end (w +:+ String pipe X) (String.length w) = false).
    { rewrite <- (Nat.add_0_r (String.length w)), at_end_app. reflexivity. }
    assert (Hterm : terminate_at (String.length w) (w +:+ String pipe X)
                    = w +:+ String NUL X).
    { rewrite <- (Nat.add_0_r (String.length w)), terminate_at_app.
      reflexivity. }
    rewrite Hat, Hterm. reflexivity. }
  rewrite (strtok_frame P _ _ _ _ _ Hrun). simpl.
  rewrite !append_assoc, !length_append. simpl.
  rewrite Nat.add_0_r, Nat.add_1_r, Nat.add_succ_r. reflexivity.
Qed.

(** Reading a token behind the prefix [P] of the buffer. *)
Lemma read_token (P t X : string) :
  clean t = true →
  c_str (advance (String.length P) ((P +:+ t +:+ String NUL EmptyString) +:+ X))
  = t.
Proof.
  intros Ht. rewrite !append_assoc, advance_length. simpl.
  apply c_str_app; [exact Ht | reflexivity].
Qed.

(** The body of the loading loop on a line of three fields and more text:
    after the growth step, [create_movie] receives exactly the first two
    fields and what [atoi] makes of the third. *)
Lemma load_line_fields (granted : bool) (h : heap) (t d ytxt r : string)
    (st : catalog) :
  field t = true → field d = true → field ytxt = true → plain r = true →
  load_line granted h (layout t d ytxt r (String newline EmptyString)) st
  = (st ← (if decide (movie_count st = movie_capacity st) then
             '(r0, capacity) ← resize_entries granted (default [] (movies st))
                                              (movie_capacity st);
             Done (mkCatalog r0 (movie_count st) capacity)
           else Done st);
     year ← atoi ytxt;
     let '(movie, shown) := create_movie h (Some t) (Some d) year in
     match movie with
     | Some m =>
         entries ← block_of (movies st);
         entries ← array_set entries (movie_count st) (Ptr m);
         count ← int_of (movie_count st + 1);
         Done (mkCatalog (Some entries) count (movie_capacity st), shown)
     | None => Done (st, shown)
     end).
Proof.
  intros Ht Hd Hyf Hr.
  assert (Hclean : ∀ s, field s = true → clean s = true).
  { intros s Hs. unfold field in Hs. apply andb_true_iff in Hs as [_ Hs].
    apply plain_clean, unbroken_plain, Hs. }
  assert (Hplain : ∀ s, field s = true → plain s = true).
  { intros s Hs. unfold field in Hs. apply andb_true_iff in Hs as [_ Hs].
    apply unbroken_plain, Hs. }
  unfold load_line.
  rewrite (layout_app t d ytxt r (String newline EmptyString)).
  rewrite cut_line by (apply layout_plain; auto).
  rewrite <- layout_app.
  destruct (if decide (movie_count st = movie_capacity st) then _ else _)
    as [st1|]; [|reflexivity].
  cbn [mbind outcome_bind].
  set (X3 := r +:+ String NUL EmptyString).
  set (X2 := ytxt +:+ String pipe X3).
  set (X1 := d +:+ String pipe X2).
  change (layout t d ytxt r (String NUL EmptyString))
    with (EmptyString +:+ t +:+ String pipe X1).
  change 0%nat with (String.length EmptyString) at 1.
  rewrite (strtok_field EmptyString t X1 Ht).
  set (P1 := EmptyString +:+ t +:+ String NUL EmptyString).
  unfold X1. rewrite (strtok_field P1 d X2 Hd).
  set (P2 := P1 +:+ d +:+ String NUL EmptyString).
  unfold X2. rewrite (strtok_field P2 ytxt X3 Hyf).
  rewrite (read_token P2 ytxt X3 (Hclean _ Hyf)).
  assert (Hb1 : (P2 +:+ ytxt +:+ String NUL EmptyString) +:+ X3
                = (P1 +:+ d +:+ String NUL EmptyString)
                    +:+ (ytxt +:+ String NUL EmptyString) +:+ X3).
  { unfold P2. rewrite !append_assoc. reflexivity. }
  assert (Hb0 : (P2 +:+ ytxt +:+ String NUL EmptyString) +:+ X3
                = (EmptyString +:+ t +:+ String NUL EmptyString)
                    +:+ (d +:+ String NUL EmptyString)
                    +:+ (ytxt +:+ String NUL EmptyString) +:+ X3).
  { unfold P2, P1. rewrite !append_assoc. reflexivity. }
  assert (Hrd : c_str (advance (String.length P1)
                          ((P2 +:+ ytxt +:+ String NUL EmptyString) +:+ X3)) = d).
  { rewrite Hb1. apply read_token, Hclean, Hd. }
  assert (Hrt : c_str (advance (String.length EmptyString)
                          ((P2 +:+ ytxt +:+ String NUL EmptyString) +:+ X3)) = t).
  { rewrite Hb0. apply read_token, Hclean, Ht. }
  rewrite Hrd, Hrt. reflexivity.
Qed.

(** On the line of a record, the third field is the year as [%d] printed
    it, and [atoi] reads it back. *)
Lemma load_line_parsed (granted : bool) (h : heap) (t d r : string) (y : Z)
    (st : catalog) :
  field t = true → field d = true → plain r = true →
  0 ≤ y ≤ INT_MAX →
  load_line granted h (layout t d (fmt_d y) r (String newline EmptyString)) st
  = (st ← (if decide (movie_count st = movie_capacity st) then
             '(r0, capacity) ← resize_entries granted (default [] (movies st))
                                              (movie_capacity st);
             Done (mkCatalog r0 (movie_count st) capacity)
           else Done st);
     let '(movie, shown) := create_movie h (Some t) (Some d) y in
     match movie with
     | Some m =>
         entries ← block_of (movies st);
         entries ← array_set entries (movie_count st) (Ptr m);
         count ← int_of (movie_count st + 1);
         Done (mkCatalog (Some entries) count (movie_capacity st), shown)
     | None => Done (st, shown)
     end).
Proof.
  intros Ht Hd Hr Hy.
  rewrite load_line_fields by (auto; apply fmt_d_field; lia).
  rewrite atoi_fmt_d by (unfold INT_MIN; lia). reflexivity.
Qed.

(** On a line of three fields whose third one [atoi] reads as a year that
    [create_movie] accepts, the record is stored at the count, after a
    growth when the catalogue is full. *)
Lemma load_line_stored (h : heap) (blk : Movie) (t d ytxt r : string) (y : Z)
    (st : catalog) (e : list slot) :
  field t = true → field d = true → field ytxt = true → plain r = true →
  atoi ytxt = Done y → 1800 < y ≤ INT_MAX →
  block h = Some blk → title_copy h = true → director_copy h = true →
  well_formed st → movies st = Some e →
  2 * movie_count st + 2 ≤ INT_MAX →
  load_line true h (layout t d ytxt r (String newline EmptyString)) st
  = Done (mkCatalog
            (Some (<[Z.to_nat (movie_count st) :=
                       Ptr (mkMovie (Some t) (Some d) y (rating blk))]>
                     (resize (Z.to_nat
                                (if decide (movie_count st = movie_capacity st)
                                 then 2 * movie_capacity st
                                 else movie_capacity st)) Wild e)))
            (movie_count st + 1)
            (if decide (movie_count st = movie_capacity st)
             then 2 * movie_capacity st else movie_capacity st),
          []).
Proof.
  intros Ht Hd Hyf Hr Hatoi Hy Hblk Htc Hdc
         (Hcap & Hcount & e0 & Hblock0 & Hlen & Hinit) Hblock Hmax.
  rewrite Hblock in Hblock0. injection Hblock0 as <-.
  rewrite load_line_fields by auto.
  set (cap' := if decide (movie_count st = movie_capacity st)
               then 2 * movie_capacity st else movie_capacity st).
  set (grown := resize (Z.to_nat cap') Wild e).
  assert (Hgrow :
    (if decide (movie_count st = movie_capacity st) then
       '(r0, capacity) ← resize_entries true (default [] (movies st))
                                        (movie_capacity st);
       Done (mkCatalog r0 (movie_count st) capacity)
     else Done st)
    = Done (mkCatalog (Some grown) (movie_count st) cap')).
  { unfold grown, cap'.
    destruct (decide (movie_count st = movie_capacity st)) as [Hfull|Hroom].
    - rewrite Hblock. simpl. rewrite resize_entries_granted by lia. reflexivity.
    - rewrite resize_all_alt by lia. destruct st; simpl in *. subst. reflexivity. }
  rewrite Hgrow. cbn [mbind outcome_bind].
  rewrite Hatoi. cbn [mbind outcome_bind].
  assert (Hh : h = mkHeap (Some blk) true true).
  { destruct h; simpl in *. congruence. }
  rewrite Hh, create_movie_granted by lia.
  cbn [movies movie_count movie_capacity block_of mbind outcome_bind].
  assert (Hroom : movie_count st < Z.of_nat (length grown)).
  { unfold grown. rewrite length_resize. unfold cap'.
    destruct (decide _); lia. }
  rewrite array_set_inside by lia. cbn [mbind outcome_bind].
  rewrite int_of_Done by (unfold INT_MIN; lia). reflexivity.
Qed.

(** On the line of a record the third field is its year. *)
Lemma load_line_record (h : heap) (blk : Movie) (t d r : string) (y : Z)
    (st : catalog) (e : list slot) :
  field t = true → field d = true → plain r = true →
  1800 < y ≤ INT_MAX →
  block h = Some blk → title_copy h = true → director_copy h = true →
  well_formed st → movies st = Some e →
  2 * movie_count st + 2 ≤ INT_MAX →
  load_line true h (layout t d (fmt_d y) r (String newline EmptyString)) st
  = Done (mkCatalog
            (Some (<[Z.to_nat (movie_count st) :=
                       Ptr (mkMovie (Some t) (Some d) y (rating blk))]>
                     (resize (Z.to_nat
                                (if decide (movie_count st = movie_capacity st)
                                 then 2 * movie_capacity st
                                 else movie_capacity st)) Wild e)))
            (movie_count st + 1)
            (if decide (movie_count st = movie_capacity st)
             then 2 * movie_capacity st else movie_capacity st),
          []).
Proof.
  intros Ht Hd Hr Hy. apply load_line_stored; auto.
  - apply fmt_d_field. lia.
  - apply atoi_fmt_d. unfold INT_MIN. lia.
Qed.

Lemma well_formed_after_record (st : catalog) (e : list slot) (m : Movie) :
  well_formed st → movies st = Some e →
  well_formed
    (mkCatalog
       (Some (<[Z.to_nat (movie_count st) := Ptr m]>
                (resize (Z.to_nat
                           (if decide (movie_count st = movie_capacity st)
                            then 2 * movie_capacity st
                            else movie_capacity st)) Wild e)))
       (movie_count st + 1)
       (if decide (movie_count st = movie_capacity st)
        then 2 * movie_capacity st else movie_capacity st)).
Proof.
  intros (Hcap & Hcount & e0 & Hblock0 & Hlen & Hinit) Hblock.
  rewrite Hblock in Hblock0. injection Hblock0 as <-.
  set (cap' := if decide (movie_count st = movie_capacity st)
               then 2 * movie_capacity st else movie_capacity st).
  assert (Hc : movie_capacity st ≤ cap' ∧ movie_count st < cap').
  { unfold cap'. destruct (decide _); lia. }
  split; [simpl; lia|]. split; [simpl; lia|]. simpl.
  eexists. split; [reflexivity|]. split.
  - rewrite length_insert, length_resize. lia.
  - intros j Hj.
    destruct (decide (j = Z.to_nat (movie_count st))) as [->|Hne].
    + rewrite list_lookup_insert_eq by (rewrite length_resize; lia). discriminate.
    + rewrite list_lookup_insert_ne by congruence.
      rewrite lookup_resize by lia. apply Hinit. lia.
Qed.

Lemma load_loop_step (fuel : nat) (env : nat → line_heap) (k : nat)
    (file : string) (st : catalog) (shown : list event) :
  (0 < String.length file)%nat →
  load_loop (S fuel) env k file st shown
  = (let '(line, rest) := fgets 255 file in
     '(st, more) ← load_line (line_granted (env k)) (line_block (env k)) line st;
     load_loop fuel env (S k) rest st (shown ++ more)).
Proof. destruct file; [simpl; lia | reflexivity]. Qed.

Lemma record_line_layout (m : Movie) (t d : string) :
  title m = Some t → director m = Some d →
  record_line m
  = layout t d (fmt_d (year m)) (fmt_1f (rating m)) (String newline EmptyString).
Proof. intros Ht Hd. unfold record_line. rewrite Ht, Hd. reflexivity. Qed.

(** Loading the lines of storable records appends, line by line, records
    with the same title, director and year. *)
Lemma load_loop_records (ms : list Movie) :
  ∀ fuel env k st e,
    Forall storable ms →
    (∀ j, line_granted (env j) = true ∧ grants (line_block (env j))) →
    well_formed st → movies st = Some e →
    2 * (movie_count st + Z.of_nat (length ms)) ≤ INT_MAX →
    (String.length (join (map record_line ms)) ≤ fuel)%nat →
    ∃ st' e' loaded,
      load_loop fuel env k (join (map record_line ms)) st [] = Done (st', []) ∧
      well_formed st' ∧ movies st' = Some e' ∧
      movie_count st' = movie_count st + Z.of_nat (length ms) ∧
      take (Z.to_nat (movie_count st')) e'
      = take (Z.to_nat (movie_count st)) e ++ map Ptr loaded ∧
      Forall2 (reread env) ms loaded ∧
      movie_capacity st' ≤ Z.max (movie_capacity st) (2 * movie_count st').
Proof.
  induction ms as [|m ms IH]; intros fuel env k st e Hms Henv Hwf Hblock Hmax Hfuel.
  - exists st, e, []. simpl.
    split; [destruct fuel; reflexivity|]. split; [exact Hwf|].
    split; [exact Hblock|]. split; [lia|].
    split; [rewrite app_nil_r; reflexivity|]. split; [constructor | lia].
  - apply Forall_cons in Hms as [Hm Hms].
    destruct Hm as (t & d & Ht & Hd & Hft & Hfd & Hy & Hfin & Hfit).
    pose proof (record_line_layout m t d Ht Hd) as Hline.
    set (ytxt := fmt_d (year m)) in *. set (rtxt := fmt_1f (rating m)) in *.
    assert (Hpl : ∀ s, field s = true → plain s = true).
    { intros s Hs. unfold field in Hs. apply andb_true_iff in Hs as [_ Hs].
      apply unbroken_plain, Hs. }
    assert (Hbody : plain (layout t d ytxt rtxt EmptyString) = true).
    { apply layout_plain; auto.
      - apply Hpl, fmt_d_field. lia.
      - apply fmt_1f_plain, Hfin. }
    set (body := layout t d ytxt rtxt EmptyString) in *.
    set (J := join (map record_line ms)) in *.
    assert (Hfile : join (map record_line (m :: ms))
                    = body +:+ String newline J).
    { simpl. fold J. rewrite Hline, (layout_app t d ytxt rtxt).
      fold body. rewrite append_assoc. reflexivity. }
    assert (Hlb : (String.length body < 255)%nat).
    { rewrite Hline, (layout_app t d ytxt rtxt), length_append in Hfit.
      fold body in Hfit. simpl in Hfit. lia. }
    rewrite Hfile in *. rewrite length_append in Hfuel. simpl in Hfuel.
    destruct fuel as [|fuel]; [lia|].
    rewrite load_loop_step by (rewrite length_append; simpl; lia).
    rewrite (fgets_line body J 255 Hbody Hlb).
    destruct (Henv k) as (-> & [blk Hblk] & Htc & Hdc).
    unfold body at 1. rewrite <- layout_app.
    unfold ytxt.
    rewrite (load_line_record (line_block (env k)) blk t d rtxt (year m) st e
               Hft Hfd (fmt_1f_plain _ Hfin) Hy Hblk Htc Hdc Hwf Hblock)
      by (simpl in Hmax; lia).
    cbn [mbind outcome_bind app].
    set (m1 := mkMovie (Some t) (Some d) (year m) (rating blk)).
    set (cap' := if decide (movie_count st = movie_capacity st)
                 then 2 * movie_capacity st else movie_capacity st).
    set (e1 := <[Z.to_nat (movie_count st) := Ptr m1]>
                 (resize (Z.to_nat cap') Wild e)).
    pose proof (well_formed_after_record st e m1 Hwf Hblock) as Hwf1.
    fold cap' e1 in Hwf1.
    destruct (IH fuel env (S k) (mkCatalog (Some e1) (movie_count st + 1) cap')
                e1 Hms Henv Hwf1 eq_refl)
      as (st' & e' & loaded & Hrun & Hwf' & Hblock' & Hcount' & Htake & Hsame
          & Hcapb).
    { simpl in *. lia. }
    { lia. }
    exists st', e', (m1 :: loaded).
    split; [exact Hrun|]. split; [exact Hwf'|]. split; [exact Hblock'|].
    simpl in Hcount', Hcapb. split; [simpl; lia|].
    assert (Hbound : movie_capacity st'
                     ≤ Z.max (movie_capacity st) (2 * movie_count st')).
    { destruct Hwf as (_ & Hcnt & _). unfold cap' in Hcapb.
      destruct (decide (movie_count st = movie_capacity st)); lia. }
    split; [|split; [|exact Hbound]].
    + rewrite Htake. simpl.
      destruct Hwf as (Hcap & Hcount & e0 & Hblock0 & Hlen & Hinit).
      rewrite Hblock in Hblock0. injection Hblock0 as <-.
      assert (Hc : movie_capacity st ≤ cap' ∧ movie_count st < cap').
      { unfold cap'. destruct (decide _); lia. }
      replace (Z.to_nat (movie_count st + 1))
        with (S (Z.to_nat (movie_count st))) by lia.
      rewrite (take_S_r e1 _ (Ptr m1)).
      * unfold e1. rewrite take_insert_ge by lia.
        rewrite take_resize_le by lia. rewrite resize_le by lia.
        rewrite <- app_assoc. reflexivity.
      * unfold e1. apply list_lookup_insert_eq. rewrite length_resize. lia.
    + constructor; [|exact Hsame]. split.
      * unfold same_fields, m1. simpl. auto.
      * exists k, blk. split; [exact Hblk | reflexivity].
Qed.

Lemma occupied_length (entries : list slot) :
  (length (occupied entries) ≤ length entries)%nat.
Proof.
  induction entries as [|p entries IH]; simpl; [lia|].
  destruct p; simpl; lia.
Qed.

Lemma storable_printable (entries : list slot) :
  Forall storable_slot entries →
  Forall printable entries ∧ Forall storable (occupied entries).
Proof.
  induction 1 as [|p entries Hp _ [IHp IHs]]; simpl; [split; constructor|].
  destruct p as [|m|]; simpl in Hp; [| |destruct Hp].
  - split; [constructor; [exact I | exact IHp] | exact IHs].
  - split; [|constructor; assumption].
    constructor; [|exact IHp].
    destruct Hp as (t & d & Ht & Hd & _ & _ & _ & Hfin & _).
    simpl. rewrite Ht, Hd. eauto.
Qed.

(** X1. What [save_movies_to_file] writes, [load_movies_from_file] reads
    back: from the file saved for a catalogue of storable records, a fresh
    catalogue is loaded without a diagnostic; it holds, from cell 0 on and
    without gaps, one record for each occupied cell that was saved, in the
    same order and with the same title, director and year. *)
Theorem save_load_round_trip (old : option string) (entries : list slot)
    (count : Z) (env : nat → line_heap) (capacity : Z) :
  0 ≤ count ≤ Z.of_nat (length entries) →
  2 * count ≤ INT_MAX →
  Forall storable_slot (take (Z.to_nat count) entries) →
  0 < capacity →
  (∀ j, line_granted (env j) = true ∧ grants (line_block (env j))) →
  ∃ file st e' loaded,
    save_movies_to_file true old (Some entries) count = Done (Some file, []) ∧
    load_movies_from_file (Some file) env (initial capacity) = Done (st, []) ∧
    well_formed st ∧
    movies st = Some e' ∧
    movie_count st = Z.of_nat (length loaded) ∧
    take (length loaded) e' = map Ptr loaded ∧
    Forall2 same_fields (occupied (take (Z.to_nat count) entries)) loaded.
Proof.
  intros Hcount Hmax Hcells Hcap Henv.
  destruct (storable_printable _ Hcells) as [Hprint Hstor].
  set (ms := occupied (take (Z.to_nat count) entries)) in *.
  assert (Hms : (length ms ≤ Z.to_nat count)%nat).
  { unfold ms. etransitivity; [apply occupied_length|].
    rewrite length_take. lia. }
  destruct (load_loop_records ms
              (String.length (join (map record_line ms))) env O
              (initial capacity) (replicate (Z.to_nat capacity) Wild)
              Hstor Henv (initial_well_formed capacity Hcap) eq_refl)
    as (st & e' & loaded & Hrun & Hwf & Hblock & Hc & Htake & Hsame & _).
  { simpl. lia. }
  { lia. }
  exists (join (map record_line ms)), st, e', loaded.
  split; [|split; [exact Hrun|split; [exact Hwf|split; [exact Hblock|]]]].
  - unfold save_movies_to_file.
    change 0 with (Z.of_nat 0).
    rewrite (save_loop_spec _ entries 0 EmptyString) by (simpl; (lia || exact Hprint)).
    reflexivity.
  - simpl in Hc, Htake.
    assert (Hl : length loaded = length ms).
    { symmetry. eapply Forall2_length. exact Hsame. }
    split; [lia|]. split.
    + rewrite Hc in Htake. rewrite <- Htake. f_equal. lia.
    + eapply Forall2_impl; [exact Hsame|]. intros ? ? [? _]. assumption.
Qed.

Lemma save_load_round_trip_witness :
  ∃ file st e' loaded,
    save_movies_to_file true None (Some sparse) 3 = Done (Some file, []) ∧
    load_movies_from_file (Some file) calm (initial 10) = Done (st, []) ∧
    well_formed st ∧
    movies st = Some e' ∧
    movie_count st = Z.of_nat (length loaded) ∧
    take (length loaded) e' = map Ptr loaded ∧
    Forall2 same_fields [movie_a; movie_b] loaded.
Proof.
  apply (save_load_round_trip None sparse 3 calm 10).
  - simpl. lia.
  - unfold INT_MAX. lia.
  - simpl. repeat constructor.
    + exists "A"%string, "a"%string. repeat split; simpl; try lia.
      unfold INT_MAX. lia.
    + exists "B"%string, "b"%string. repeat split; simpl; try lia.
      unfold INT_MAX. lia.
  - lia.
  - intros j. split; [reflexivity|]. split; [eexists; reflexivity|].
    split; reflexivity.
Defined.

(** X2. A line whose year is between 0 and 1800 is dropped by the loader
    without a diagnostic, although [update_movie] accepts such a year and
    [save_movies_to_file] writes it: the record does not survive a
    restart. *)
Theorem early_year_is_lost (granted : bool) (h : heap) (m : Movie)
    (t d : string) (ny : Z) (st : catalog) :
  field t = true → field d = true → is_finite (rating m) = true →
  0 < ny ≤ 1800 →
  0 < movie_capacity st → 2 * movie_capacity st ≤ INT_MAX →
  ∃ m' st',
    fst (update_movie true true (Some m) (Some t) (Some d) ny)
    = (MOVIE_SUCCESS, Some m') ∧
    year m' = ny ∧
    load_line granted h (record_line m') st = Done (st', []) ∧
    movie_count st' = movie_count st ∧
    (movie_count st ≠ movie_capacity st → st' = st).
Proof.
  intros Ht Hd Hfin Hy Hcap Hmax.
  exists (mkMovie (Some t) (Some d) ny (rating m)).
  assert (Hup : fst (update_movie true true (Some m) (Some t) (Some d) ny)
                = (MOVIE_SUCCESS, Some (mkMovie (Some t) (Some d) ny (rating m)))).
  { unfold update_movie. destruct (decide (ny ≤ 0)); [lia | reflexivity]. }
  rewrite (record_line_layout (mkMovie (Some t) (Some d) ny (rating m)) t d
             eq_refl eq_refl).
  simpl year. simpl rating.
  rewrite load_line_parsed
    by (auto using fmt_1f_plain; unfold INT_MAX; lia).
  assert (Hnew : create_movie h (Some t) (Some d) ny = (None, [])).
  { unfold create_movie. destruct (decide (ny ≤ 1800)); [reflexivity | lia]. }
  destruct (decide (movie_count st = movie_capacity st)) as [Hfull|Hroom].
  - destruct (resize_entries_total granted (default [] (movies st))
                (movie_capacity st) Hcap Hmax) as [r ->].
    cbn [mbind outcome_bind]. rewrite Hnew.
    eexists. split; [exact Hup|]. split; [reflexivity|].
    split; [reflexivity|]. split; [reflexivity | tauto].
  - cbn [mbind outcome_bind]. rewrite Hnew.
    exists st. split; [exact Hup|]. repeat split.
Qed.

Lemma early_year_is_lost_witness :
  ∃ m' st',
    fst (update_movie true true (Some inception)
           (Some "Metropolis") (Some "Lang") 1799)
    = (MOVIE_SUCCESS, Some m') ∧
    year m' = 1799 ∧
    load_line true fresh (record_line m') (initial 10) = Done (st', []) ∧
    movie_count st' = movie_count (initial 10) ∧
    (movie_count (initial 10) ≠ movie_capacity (initial 10) →
     st' = initial 10).
Proof.
  apply (early_year_is_lost true fresh inception "Metropolis" "Lang" 1799
           (initial 10)); try reflexivity; simpl; unfold INT_MAX; lia.
Defined.

(** X3. The loader does not check the result of [resize_entries]: when the
    catalogue is full and the reallocation is refused, a well-formed line
    makes it store the new record through a null pointer. *)
Theorem load_refused_growth_faults (h : heap) (t d r : string) (y : Z)
    (st : catalog) :
  field t = true → field d = true → plain r = true →
  1800 < y ≤ INT_MAX → grants h →
  movie_count st = movie_capacity st →
  0 < movie_capacity st → 2 * movie_capacity st ≤ INT_MAX →
  load_line false h (layout t d (fmt_d y) r (String newline EmptyString)) st
  = Undef.
Proof.
  intros Ht Hd Hr Hy ([blk Hblk] & Htc & Hdc) Hfull Hcap Hmax.
  rewrite load_line_parsed by (auto; lia).
  destruct (decide (movie_count st = movie_capacity st)); [|contradiction].
  rewrite resize_entries_refused by assumption.
  cbn [mbind outcome_bind].
  assert (Hh : h = mkHeap (Some blk) true true).
  { destruct h; simpl in *. congruence. }
  rewrite Hh, create_movie_granted by lia. reflexivity.
Qed.

Lemma load_refused_growth_faults_witness :
  load_line false fresh
    (layout "Inception" "Nolan" (fmt_d 2010) "4.5" (String newline EmptyString))
    full
  = Undef.
Proof.
  apply (load_refused_growth_faults fresh "Inception" "Nolan" "4.5" 2010 full);
    try reflexivity; try (simpl; unfold INT_MAX; lia).
  split; [eexists; reflexivity | split; reflexivity].
Defined.

Lemma occupied_Ptr (ms : list Movie) : occupied (map Ptr ms) = ms.
Proof. induction ms as [|m ms IH]; simpl; [reflexivity | rewrite IH; reflexivity]. Qed.

Lemma digits_app (s junk : string) :
  all_digits s = true → no_digit_first junk = true →
  ∀ acc, digits acc (s +:+ junk) = digits acc s.
Proof.
  intros Hs Hjunk. induction s as [|c s IH]; intros acc.
  - simpl. destruct junk as [|c junk]; [reflexivity|]. simpl in *.
    apply negb_true_iff in Hjunk. rewrite Hjunk. reflexivity.
  - simpl in Hs. apply andb_true_iff in Hs as [Hc Hs].
    simpl. rewrite Hc. apply IH, Hs.
Qed.

Lemma digit_plain_start (c : ascii) :
  isdigit c = true →
  isspace c = false ∧ Ascii.eqb c "-" = false ∧ Ascii.eqb c "+" = false.
Proof.
  destruct c as [[] [] [] [] [] [] [] []]; try discriminate; repeat split.
Qed.

(** [atoi] stops at the first character that is no digit. *)
Lemma atoi_leading (y : Z) (junk : string) :
  0 ≤ y ≤ INT_MAX → no_digit_first junk = true →
  atoi (fmt_d y +:+ junk) = Done y.
Proof.
  intros Hy Hjunk.
  rewrite <- (atoi_fmt_d y) by (unfold INT_MIN; lia).
  destruct (fmt_d_nonneg y (proj1 Hy)) as (c & rest & -> & Hc & Hrest).
  destruct (digit_plain_start c Hc) as (Hsp & Hm & Hp).
  unfold atoi. simpl. rewrite Hsp, Hm, Hp. f_equal.
  apply (digits_app (String c rest) junk); [|exact Hjunk].
  simpl. rewrite Hc. exact Hrest.
Qed.

(** X17. A year followed by other text is read as that year: on a line
    whose third field starts with the decimal digits of a year above 1800
    and goes on with characters that are no digits, [atoi] stops at the
    first of them, and the loader stores the record with that year, without
    a diagnostic. *)
Theorem load_reads_leading_number (h : heap) (t d junk r : string) (y : Z)
    (st : catalog) (e : list slot) :
  field t = true → field d = true → plain r = true →
  unbroken junk = true → no_digit_first junk = true →
  1800 < y ≤ INT_MAX → grants h →
  well_formed st → movies st = Some e →
  movie_count st < movie_capacity st → 2 * movie_count st + 2 ≤ INT_MAX →
  ∃ m,
    load_line true h
      (layout t d (fmt_d y +:+ junk) r (String newline EmptyString)) st
    = Done (mkCatalog (Some (<[Z.to_nat (movie_count st) := Ptr m]> e))
                      (movie_count st + 1) (movie_capacity st), []) ∧
    title m = Some t ∧ director m = Some d ∧ year m = y.
Proof.
  intros Ht Hd Hr Hjunk Hfirst Hy ([blk Hblk] & Htc & Hdc) Hwf Hblock Hroom Hmax.
  assert (Hyf : field (fmt_d y +:+ junk) = true).
  { pose proof (fmt_d_field y ltac:(lia)) as Hf.
    unfold field in *. apply andb_true_iff in Hf as [Hne Hun].
    apply andb_true_iff. split.
    - destruct (fmt_d y); [discriminate | reflexivity].
    - clear Hne. induction (fmt_d y) as [|c s IH]; [exact Hjunk|].
      simpl in *. rewrite !andb_true_iff in *.
      destruct Hun as [Hc Hs]. auto. }
  pose proof Hwf as (Hcap & Hcount & e0 & Hblock0 & Hlen & _).
  rewrite Hblock in Hblock0. injection Hblock0 as <-.
  assert (Hatoi : atoi (fmt_d y +:+ junk) = Done y)
    by (apply atoi_leading; [lia | exact Hfirst]).
  rewrite (load_line_stored h blk t d (fmt_d y +:+ junk) r y st e
             Ht Hd Hyf Hr Hatoi Hy Hblk Htc Hdc Hwf Hblock Hmax).
  destruct (decide (movie_count st = movie_capacity st)); [lia|].
  rewrite resize_all_alt by lia.
  eexists. split; [reflexivity|]. repeat split.
Qed.

Lemma load_reads_leading_number_witness :
  ∃ m,
    load_line true fresh
      (layout "Inception" "Nolan" (fmt_d 2010 +:+ "abc") "4.5"
              (String newline EmptyString)) (initial 10)
    = Done (mkCatalog
              (Some (<[Z.to_nat (movie_count (initial 10)) := Ptr m]>
                       (replicate (Z.to_nat 10) Wild)))
              (movie_count (initial 10) + 1) (movie_capacity (initial 10)),
            []) ∧
    title m = Some "Inception" ∧ director m = Some "Nolan" ∧ year m = 2010.
Proof.
  apply (load_reads_leading_number fresh "Inception" "Nolan" "abc" "4.5" 2010
           (initial 10) (replicate (Z.to_nat 10) Wild));
    try reflexivity; try (simpl; unfold INT_MAX; lia).
  - split; [eexists; reflexivity | split; reflexivity].
  - apply initial_well_formed. lia.
Defined.

(** X12. A separator inside a title loses the record: the line that
    [save_movies_to_file] writes for a title [a|b] is read back with [a] as
    title, [b] as director and the director text as year; when that text
    does not start with a number the line is dropped, without a
    diagnostic and with the count unchanged. (The add dialog accepts such a
    title.) *)
Theorem separator_in_title_is_lost (granted : bool) (h : heap)
    (a b d : string) (y : Z) (r : float) (st : catalog) :
  field a = true → field b = true → field d = true →
  starts_numeric d = false →
  0 ≤ y ≤ INT_MAX → is_finite r = true →
  0 < movie_capacity st → 2 * movie_capacity st ≤ INT_MAX →
  ∃ st',
    save_line (mkMovie (Some (a +:+ "|" +:+ b)) (Some d) y r)
    = Done (record_line (mkMovie (Some (a +:+ "|" +:+ b)) (Some d) y r)) ∧
    load_line granted h
      (record_line (mkMovie (Some (a +:+ "|" +:+ b)) (Some d) y r)) st
    = Done (st', []) ∧
    movie_count st' = movie_count st ∧
    (movie_count st ≠ movie_capacity st → st' = st).
Proof.
  intros Ha Hb Hd Hnum Hy Hfin Hcap Hmax.
  assert (Hpl : ∀ s, field s = true → plain s = true).
  { intros s Hs. unfold field in Hs. apply andb_true_iff in Hs as [_ Hs].
    apply unbroken_plain, Hs. }
  assert (Hline :
    record_line (mkMovie (Some (a +:+ "|" +:+ b)) (Some d) y r)
    = layout a b d (fmt_d y +:+ String pipe (fmt_1f r))
             (String newline EmptyString)).
  { unfold record_line, layout. simpl.
    repeat (progress (rewrite ?append_assoc; simpl)). reflexivity. }
  rewrite Hline.
  rewrite load_line_fields; [|assumption..|].
  2:{ rewrite plain_app, (Hpl _ (fmt_d_field y (proj1 Hy))). simpl.
      apply fmt_1f_plain, Hfin. }
  rewrite (atoi_not_numeric d Hnum).
  assert (Hnew : create_movie h (Some a) (Some b) 0 = (None, [])) by reflexivity.
  destruct (decide (movie_count st = movie_capacity st)) as [Hfull|Hroom].
  - destruct (resize_entries_total granted (default [] (movies st))
                (movie_capacity st) Hcap Hmax) as [r0 ->].
    cbn [mbind outcome_bind]. rewrite Hnew.
    eexists. split; [rewrite <- Hline; reflexivity|]. split; [reflexivity|].
    split; [reflexivity | tauto].
  - cbn [mbind outcome_bind]. rewrite Hnew.
    exists st. split; [rewrite <- Hline; reflexivity|]. repeat split.
Qed.

Lemma separator_in_title_is_lost_witness :
  ∃ st',
    save_line (mkMovie (Some ("Face" +:+ "|" +:+ "Off")) (Some "Woo") 1997
                       float_zero)
    = Done (record_line (mkMovie (Some ("Face" +:+ "|" +:+ "Off"))
                                 (Some "Woo") 1997 float_zero)) ∧
    load_line true fresh
      (record_line (mkMovie (Some ("Face" +:+ "|" +:+ "Off")) (Some "Woo")
                            1997 float_zero)) (initial 10)
    = Done (st', []) ∧
    movie_count st' = movie_count (initial 10) ∧
    (movie_count (initial 10) ≠ movie_capacity (initial 10) →
     st' = initial 10).
Proof.
  apply (separator_in_title_is_lost true fresh "Face" "Off" "Woo" 1997
           float_zero (initial 10));
    try reflexivity; simpl; unfold INT_MAX; lia.
Defined.

(** X8. Ratings do not survive a restart: the loader never reads the
    fourth field, so loading a file of well-formed lines and saving again
    (what starting and leaving the program does) rewrites every line with
    the rating that the storage handed out by [malloc] held, 0.0 for zeroed
    storage; titles, directors, years and the order are kept. *)
Theorem restart_forgets_ratings (ms : list Movie) (env : nat → line_heap)
    (capacity : Z) (r0 : float) :
  Forall storable ms →
  0 < capacity → 2 * Z.of_nat (length ms) ≤ INT_MAX →
  is_finite r0 = true →
  (∀ j, line_granted (env j) = true ∧ grants (line_block (env j)) ∧
        ∀ blk, block (line_block (env j)) = Some blk → rating blk = r0) →
  ∃ st,
    load_movies_from_file (Some (join (map record_line ms))) env
      (initial capacity) = Done (st, []) ∧
    save_movies_to_file true (Some (join (map record_line ms)))
      (movies st) (movie_count st)
    = Done (Some (join (map record_line (map (λ m, set_rating m r0) ms))), []).
Proof.
  intros Hms Hcap Hmax Hfin Henv.
  destruct (load_loop_records ms
              (String.length (join (map record_line ms))) env O
              (initial capacity) (replicate (Z.to_nat capacity) Wild) Hms)
    as (st & e' & loaded & Hrun & Hwf & Hblock & Hc & Htake & Hsame & _).
  { intros j. destruct (Henv j) as (? & ? & _). auto. }
  { apply initial_well_formed, Hcap. }
  { reflexivity. }
  { simpl. lia. }
  { lia. }
  exists st. split; [exact Hrun|].
  simpl in Hc, Htake.
  assert (Hloaded : loaded = map (λ m, set_rating m r0) ms).
  { clear -Hsame Henv. induction Hsame as [|m m' ms loaded Hm _ IH]; [reflexivity|].
    simpl. f_equal; [|exact IH].
    destruct Hm as ((Ht & Hd & Hy) & j & blk & Hblk & Hr).
    destruct (Henv j) as (_ & _ & Hrate). rewrite (Hrate blk Hblk) in Hr.
    destruct m, m'. unfold set_rating. simpl in *. congruence. }
  assert (Hl : length loaded = length ms).
  { rewrite Hloaded, length_map. reflexivity. }
  destruct Hwf as (_ & Hcount & e0 & Hblock0 & Hlen & _).
  rewrite Hblock in Hblock0. injection Hblock0 as <-.
  rewrite Hblock. unfold save_movies_to_file.
  change 0 with (Z.of_nat 0).
  rewrite (save_loop_spec _ e' 0 EmptyString).
  - rewrite drop_0, Htake, occupied_Ptr, Hloaded. reflexivity.
  - lia.
  - rewrite drop_0, Htake, Hloaded. rewrite Forall_map, Forall_map.
    eapply Forall_impl; [exact Hms|].
    intros m (t & d & Ht & Hd & _). simpl. rewrite Ht, Hd. eauto.
Qed.

Lemma restart_forgets_ratings_witness :
  ∃ st,
    load_movies_from_file (Some (join (map record_line [movie_b; movie_c])))
      calm (initial 10) = Done (st, []) ∧
    save_movies_to_file true (Some (join (map record_line [movie_b; movie_c])))
      (movies st) (movie_count st)
    = Done (Some (join (map record_line
                         (map (λ m, set_rating m float_zero)
                              [movie_b; movie_c]))), []).
Proof.
  apply (restart_forgets_ratings [movie_b; movie_c] calm 10 float_zero).
  - repeat constructor.
    + exists "B"%string, "b"%string. repeat split; simpl; try lia.
      unfold INT_MAX. lia.
    + exists "C"%string, "c"%string. repeat split; simpl; try lia.
      unfold INT_MAX. lia.
  - lia.
  - simpl. unfold INT_MAX. lia.
  - reflexivity.
  - intros j. split; [reflexivity|]. split.
    + split; [eexists; reflexivity | split; reflexivity].
    + intros blk [= <-]. reflexivity.
Defined.

End RoundTripFacts.

(** ** Lines that the loader skips *)

Module SkipFacts.

Import RecFacts CatalogFacts MainFacts SaveFacts LoadFacts RoundTripFacts.

#[local] Arguments String.append !s1 s2 : simpl nomatch.
#[local] Arguments create_movie : simpl never.
#[local] Arguments fgets : simpl never.














End SkipFacts.

(** ** Rating a record *)

Module RateFacts.

Import RecFacts.

Lemma rate_keys_flush (t : string) (line : list Z) :
  to_line_end line = true →
  ∀ keys shown,
    rate_keys true t (line ++ keys) shown
    = rate_keys false t keys (shown ++ [rating_prompt t]).
Proof.
  induction line as [|ch line IH]; [discriminate|].
  intros Hline keys shown. destruct line as [|ch' line].
  - simpl in Hline. simpl.
    unfold ends_line in Hline. apply orb_true_iff in Hline.
    destruct (decide (ch ≠ chr "010" ∧ ch ≠ EOF)) as [[H1 H2]|_]; [|reflexivity].
    destruct Hline as [H|H]; apply bool_decide_eq_true in H; contradiction.
  - change (to_line_end (ch :: ch' :: line))
      with (negb (ends_line ch) && to_line_end (ch' :: line)) in Hline.
    apply andb_true_iff in Hline as [Hch Hline].
    change ((ch :: ch' :: line) ++ keys) with (ch :: (ch' :: line) ++ keys).
    cbn [rate_keys].
    unfold ends_line in Hch. apply negb_true_iff, orb_false_iff in Hch as [H1 H2].
    apply bool_decide_eq_false in H1, H2.
    destruct (decide (ch ≠ chr "010" ∧ ch ≠ EOF)); [|tauto].
    apply IH. exact Hline.
Qed.

Lemma rate_keys_rejected (t : string) (line keys : list Z) (shown : list event) :
  rejected line = true →
  rate_keys false t (line ++ keys) shown
  = rate_keys false t keys (shown ++ retry t).
Proof.
  destruct line as [|ch line]; [discriminate|]. simpl rejected.
  intros H. apply andb_true_iff in H as [Hch Hline].
  change ((ch :: line) ++ keys) with (ch :: line ++ keys). cbn [rate_keys].
  unfold is_rating in Hch. apply negb_true_iff, andb_false_iff in Hch.
  destruct (decide (chr "1" ≤ ch ∧ ch ≤ chr "5")) as [[H1 H2]|_].
  { destruct Hch as [H|H]; apply bool_decide_eq_false in H; contradiction. }
  rewrite rate_keys_flush by exact Hline.
  unfold retry. rewrite <- app_assoc. reflexivity.
Qed.

Lemma rate_keys_session (t : string) (lines : list (list Z)) :
  ∀ (k : Z) (keys : list Z) (shown : list event),
    Forall (λ line, rejected line = true) lines →
    is_rating k = true →
    rate_keys false t (concat lines ++ k :: keys) shown
    = Some (k - chr "0", shown ++ concat (map (λ _, retry t) lines)).
Proof.
  induction lines as [|line lines IH]; intros k keys shown Hlines Hk.
  - simpl. unfold is_rating in Hk. apply andb_true_iff in Hk as [H1 H2].
    apply bool_decide_eq_true in H1, H2.
    destruct (decide (chr "1" ≤ k ∧ k ≤ chr "5")); [|tauto].
    rewrite app_nil_r. reflexivity.
  - apply Forall_cons in Hlines as [Hline Hlines].
    simpl concat. rewrite <- app_assoc.
    rewrite rate_keys_rejected by exact Hline.
    rewrite IH by assumption.
    simpl. rewrite <- app_assoc. reflexivity.
Qed.

Lemma rate_movie_fields (m m' : Movie) (keys : list Z) (shown : list event) :
  rate_movie (Some m) keys = Some (Some m', shown) → same_fields m m'.
Proof.
  unfold rate_movie. intros Hrun.
  destruct (title m) as [t|].
  - destruct (rate_keys false t keys [rating_prompt t]) as [[r shown0]|];
      [|discriminate].
    simpl in Hrun. injection Hrun as <- <-. repeat split.
  - injection Hrun as <- <-. repeat split.
Qed.

Lemma rate_movie_null (keys : list Z) :
  rate_movie None keys = Some (None, [Printw ("Invalid movie data." +:+ LF)]).
Proof. reflexivity. Qed.

Lemma rate_movie_some (m : Movie) (keys : list Z) (shown : list event) :
  rate_movie (Some m) keys ≠ Some (None, shown).
Proof.
  unfold rate_movie. destruct (title m) as [t|]; [|discriminate].
  destruct (rate_keys false t keys [rating_prompt t]) as [[r shown0]|];
    discriminate.
Qed.

(** X6. A session at the rating prompt: after any number of rejected
    entries (a key other than 1 to 5, together with everything typed up to
    the end of that line), the first key from 1 to 5 becomes the rating;
    each rejected entry costs one warning popup and one new prompt, and
    keys typed behind the accepted one are not read. *)
Theorem rate_movie_session (m : Movie) (t : string) (lines : list (list Z))
    (k : Z) (keys : list Z) :
  title m = Some t →
  Forall (λ line, rejected line = true) lines →
  is_rating k = true →
  rate_movie (Some m) (concat lines ++ k :: keys)
  = Some (Some (set_rating m (float_of_int (k - chr "0"))),
          rating_prompt t :: concat (map (λ _, retry t) lines)).
Proof.
  intros Ht Hlines Hk. unfold rate_movie. rewrite Ht.
  rewrite rate_keys_session by assumption. reflexivity.
Qed.

Lemma rate_movie_session_witness :
  rate_movie (Some inception)
    (concat [[chr "7"; chr "3"; chr "010"]; [chr "010"; chr "5"; chr "010"]]
       ++ chr "4" :: [chr "2"])
  = Some (Some (set_rating inception (float_of_int (chr "4" - chr "0"))),
          rating_prompt "Inception"
            :: concat (map (λ _, retry "Inception")
                 [[chr "7"; chr "3"; chr "010"]; [chr "010"; chr "5"; chr "010"]])).
Proof.
  apply (rate_movie_session inception "Inception").
  - reflexivity.
  - repeat constructor.
  - reflexivity.
Defined.

(** X7. Whatever is typed, [rate_movie] changes nothing but the rating:
    a record without title is left as it is, and a record with a title
    leaves the function with the same title, director and year and with a
    rating that is one of 1.0 to 5.0, which [%.1f] prints as that digit
    followed by [.0]. *)
Theorem rate_movie_only_rating (m m' : Movie) (keys : list Z)
    (shown : list event) :
  rate_movie (Some m) keys = Some (Some m', shown) →
  same_fields m m' ∧
  (title m = None → m' = m) ∧
  (is_Some (title m) →
   ∃ r, 1 ≤ r ≤ 5 ∧ rating m' = float_of_int r ∧
        is_finite (rating m') = true ∧
        fmt_1f (rating m') = fmt_d r +:+ ".0").
Proof.
  unfold rate_movie. intros Hrun.
  destruct (title m) as [t|] eqn:Ht.
  - destruct (rate_keys false t keys [rating_prompt t]) as [[r shown0]|] eqn:Hkeys;
      [|discriminate].
    simpl in Hrun. injection Hrun as <- <-.
    split; [repeat split|]. split; [discriminate|]. intros _.
    apply rate_keys_range in Hkeys. exists r. split; [exact Hkeys|].
    assert (r = 1 ∨ r = 2 ∨ r = 3 ∨ r = 4 ∨ r = 5) as Hr by lia.
    destruct Hr as [->|[->|[->|[->| ->]]]]; repeat split.
  - injection Hrun as <- <-.
    split; [repeat split|]. split; [reflexivity|]. intros [? [=]].
Qed.

Lemma rate_movie_only_rating_witness :
  same_fields inception (set_rating inception (float_of_int 4)) ∧
  (title inception = None →
   set_rating inception (float_of_int 4) = inception) ∧
  (is_Some (title inception) →
   ∃ r, 1 ≤ r ≤ 5 ∧
        rating (set_rating inception (float_of_int 4)) = float_of_int r ∧
        is_finite (rating (set_rating inception (float_of_int 4))) = true ∧
        fmt_1f (rating (set_rating inception (float_of_int 4)))
        = fmt_d r +:+ ".0").
Proof.
  apply (rate_movie_only_rating inception _ [chr "x"; chr "010"; chr "4"]
           [rating_prompt "Inception";
            Popup "Warning" ("Invalid rating. Please try again." +:+ LF);
            rating_prompt "Inception"]).
  reflexivity.
Defined.

End RateFacts.

(** ** The main menu *)

Module MenuFacts.

Lemma presses_cons (k c : Z) (keys : list Z) :
  presses k (c :: keys) = (if decide (c = k) then 1 else 0) + presses k keys.
Proof.
  unfold presses. destruct (decide (c = k)) as [Heq|Hne].
  - rewrite filter_cons_True by exact Heq. simpl length. lia.
  - rewrite filter_cons_False by exact Hne. lia.
Qed.

Lemma menu_loop_enter (keys : list Z) :
  ∀ (highlight : Z) (shown : list drawn) (later : list Z),
    1 ≤ highlight ≤ 5 → 10 ∉ keys →
    ∃ shown',
      menu_loop (keys ++ 10 :: later) highlight shown
      = Some ((highlight - 1 + presses KEY_DOWN keys - presses KEY_UP keys)
                mod 5 + 1, shown').
Proof.
  induction keys as [|c keys IH]; intros highlight shown later Hh Hno.
  - simpl. unfold KEY_UP, KEY_DOWN.
    destruct (decide (10 = 259)); [lia|]. destruct (decide (10 = 258)); [lia|].
    destruct (decide (10 = 10)); [|lia].
    destruct (decide (highlight ≠ 0)); [|lia].
    eexists. do 2 f_equal. unfold presses. simpl.
    rewrite Z.mod_small by lia. lia.
  - apply not_elem_of_cons in Hno as [Hc Hno].
    change ((c :: keys) ++ 10 :: later) with (c :: keys ++ 10 :: later).
    cbn [menu_loop]. rewrite !presses_cons.
    destruct (decide (c = KEY_UP)) as [Hup|Hnup].
    + destruct (decide (c = KEY_DOWN)) as [Hd|_]; [unfold KEY_UP, KEY_DOWN in *; lia|].
      destruct (decide (0 ≠ 0)); [lia|].
      destruct (decide (highlight = 1)) as [->|Hne].
      * destruct (IH 5 (shown ++ [Print_menu 5]) later) as [shown' ->];
          [lia | exact Hno |].
        exists shown'.
        replace (5 - 1 + presses KEY_DOWN keys - presses KEY_UP keys)
          with (1 - 1 + (0 + presses KEY_DOWN keys)
                - (1 + presses KEY_UP keys) + 1 * 5) by lia.
        rewrite Z_mod_plus_full. reflexivity.
      * destruct (IH (highlight - 1) (shown ++ [Print_menu (highlight - 1)]) later)
          as [shown' ->]; [lia | exact Hno |].
        exists shown'.
        replace (highlight - 1 + (0 + presses KEY_DOWN keys)
                 - (1 + presses KEY_UP keys))
          with (highlight - 1 - 1 + presses KEY_DOWN keys - presses KEY_UP keys)
          by lia.
        reflexivity.
    + destruct (decide (c = KEY_DOWN)) as [Hd|Hnd].
      * destruct (decide (0 ≠ 0)); [lia|].
        destruct (decide (highlight = 5)) as [->|Hne].
        -- destruct (IH 1 (shown ++ [Print_menu 1]) later) as [shown' ->];
             [lia | exact Hno |].
           exists shown'.
           replace (5 - 1 + (1 + presses KEY_DOWN keys)
                    - (0 + presses KEY_UP keys))
             with (1 - 1 + presses KEY_DOWN keys - presses KEY_UP keys + 1 * 5)
             by lia.
           rewrite Z_mod_plus_full. reflexivity.
        -- destruct (IH (highlight + 1) (shown ++ [Print_menu (highlight + 1)]) later)
             as [shown' ->]; [lia | exact Hno |].
           exists shown'.
           replace (highlight - 1 + (1 + presses KEY_DOWN keys)
                    - (0 + presses KEY_UP keys))
             with (highlight + 1 - 1 + presses KEY_DOWN keys
                   - presses KEY_UP keys) by lia.
           reflexivity.
      * destruct (decide (c = 10)); [congruence|].
        destruct (decide (0 ≠ 0)); [lia|].
        destruct (IH highlight ((shown ++ [Pressed c]) ++ [Print_menu highlight]) later)
          as [shown' ->]; [lia | exact Hno |].
        exists shown'.
        replace (highlight - 1 + (0 + presses KEY_DOWN keys)
                 - (0 + presses KEY_UP keys))
          with (highlight - 1 + presses KEY_DOWN keys - presses KEY_UP keys)
          by lia.
        reflexivity.
Qed.

(** X9. The main menu: the highlight starts on the first entry, an arrow
    down or up moves it by one and wraps around at either end, every other
    key leaves it in place; at the first Enter [main_menu] returns the
    highlighted entry, which is always one of the five enumerators of
    [MenuOption], and reads no further key. *)
Theorem main_menu_choice (keys later : list Z) :
  10 ∉ keys →
  ∃ shown option,
    main_menu (keys ++ 10 :: later)
    = Some ((presses KEY_DOWN keys - presses KEY_UP keys) mod 5, shown) ∧
    menu_option ((presses KEY_DOWN keys - presses KEY_UP keys) mod 5)
    = Some option.
Proof.
  intros Hno. unfold main_menu.
  destruct (menu_loop_enter keys 1
              [Help "ARROW KEYS TO NAVIGATE, ENTER TO SELECT A CHOICE";
               Print_menu 1] later) as [shown Hrun]; [lia | exact Hno |].
  rewrite Hrun. cbn [mbind option_bind].
  replace (1 - 1 + presses KEY_DOWN keys - presses KEY_UP keys)
    with (presses KEY_DOWN keys - presses KEY_UP keys) by lia.
  set (z := (presses KEY_DOWN keys - presses KEY_UP keys) mod 5).
  assert (Hz : 0 ≤ z < 5) by (apply Z.mod_pos_bound; lia).
  exists shown.
  assert (Hopt : ∃ option, menu_option z = Some option).
  { unfold menu_option. repeat (destruct (decide _); [eauto|]). lia. }
  destruct Hopt as [option Hopt]. exists option. split; [|exact Hopt].
  replace (z + 1 - 1) with z by lia. reflexivity.
Qed.

Lemma main_menu_choice_witness :
  ∃ shown option,
    main_menu ([KEY_UP; chr "x"; KEY_UP; KEY_DOWN] ++ 10 :: [KEY_DOWN])
    = Some ((presses KEY_DOWN [KEY_UP; chr "x"; KEY_UP; KEY_DOWN]
             - presses KEY_UP [KEY_UP; chr "x"; KEY_UP; KEY_DOWN]) mod 5,
            shown) ∧
    menu_option ((presses KEY_DOWN [KEY_UP; chr "x"; KEY_UP; KEY_DOWN]
                  - presses KEY_UP [KEY_UP; chr "x"; KEY_UP; KEY_DOWN]) mod 5)
    = Some option.
Proof.
  apply (main_menu_choice [KEY_UP; chr "x"; KEY_UP; KEY_DOWN] [KEY_DOWN]).
  rewrite !not_elem_of_cons. repeat split; try discriminate.
  apply not_elem_of_nil.
Defined.

End MenuFacts.

(** ** The add dialog *)

Module DialogFacts.

Import RecFacts CatalogFacts.

Lemma nonempty_length (s : string) :
  nonempty s = true ↔ String.length s ≠ 0%nat.
Proof. destruct s; simpl; split; (congruence || lia || auto). Qed.

Lemma input_loop_blank_title (cy : Z) (b : string) (typed : list string)
    (director : option string) (shown : list written) :
  blank_entry 100 b = true →
  input_loop cy (b :: typed) None director shown
  = input_loop cy typed None director (shown ++ [ask_title; blank_title]).
Proof.
  intros H. apply andb_true_iff in H as [Hfit Hblank].
  apply bool_decide_eq_true in Hfit. apply negb_true_iff in Hblank.
  cbn [input_loop]. unfold wgetstr.
  destruct (decide (String.length b < 100)%nat); [|lia].
  cbn [mbind outcome_bind].
  destruct (decide (String.length (c_str b) = 0%nat)) as [_|Hne].
  - rewrite <- app_assoc. reflexivity.
  - apply nonempty_length in Hne. congruence.
Qed.

Lemma input_loop_title (cy : Z) (t : string) (typed : list string)
    (director : option string) (shown : list written) :
  text_entry 100 t = true →
  input_loop cy (t :: typed) None director shown
  = input_loop cy typed (Some (c_str t)) director (shown ++ [ask_title]).
Proof.
  intros H. apply andb_true_iff in H as [Hfit Htext].
  apply bool_decide_eq_true in Hfit.
  cbn [input_loop]. unfold wgetstr.
  destruct (decide (String.length t < 100)%nat); [|lia].
  cbn [mbind outcome_bind].
  destruct (decide (String.length (c_str t) = 0%nat)) as [He|_]; [|reflexivity].
  apply nonempty_length in Htext. contradiction.
Qed.

Lemma input_loop_blank_director (cy : Z) (b t : string) (typed : list string)
    (shown : list written) :
  blank_entry 100 b = true →
  input_loop cy (b :: typed) (Some t) None shown
  = input_loop cy typed (Some t) None (shown ++ [ask_director; blank_director]).
Proof.
  intros H. apply andb_true_iff in H as [Hfit Hblank].
  apply bool_decide_eq_true in Hfit. apply negb_true_iff in Hblank.
  cbn [input_loop]. unfold wgetstr.
  destruct (decide (String.length b < 100)%nat); [|lia].
  cbn [mbind outcome_bind].
  destruct (decide (String.length (c_str b) = 0%nat)) as [_|Hne].
  - rewrite <- app_assoc. reflexivity.
  - apply nonempty_length in Hne. congruence.
Qed.

Lemma input_loop_director (cy : Z) (d t : string) (typed : list string)
    (shown : list written) :
  text_entry 100 d = true →
  input_loop cy (d :: typed) (Some t) None shown
  = input_loop cy typed (Some t) (Some (c_str d)) (shown ++ [ask_director]).
Proof.
  intros H. apply andb_true_iff in H as [Hfit Htext].
  apply bool_decide_eq_true in Hfit.
  cbn [input_loop]. unfold wgetstr.
  destruct (decide (String.length d < 100)%nat); [|lia].
  cbn [mbind outcome_bind].
  destruct (decide (String.length (c_str d) = 0%nat)) as [He|_]; [|reflexivity].
  apply nonempty_length in Htext. contradiction.
Qed.

Lemma input_loop_refused_year (cy : Z) (b t d : string) (typed : list string)
    (shown : list written) :
  refused_year cy b = true →
  input_loop cy (b :: typed) (Some t) (Some d) shown
  = input_loop cy typed (Some t) (Some d) (shown ++ [ask_year; bad_year]).
Proof.
  intros H. apply andb_true_iff in H as [Hfit Hbad].
  apply bool_decide_eq_true in Hfit.
  cbn [input_loop]. unfold wgetstr.
  destruct (decide (String.length b < 10)%nat); [|lia].
  cbn [mbind outcome_bind].
  destruct (atoi (c_str b)) as [year|]; [|discriminate].
  cbn [mbind outcome_bind].
  destruct (decide _) as [_|Hok].
  - rewrite <- app_assoc. reflexivity.
  - exfalso. apply Hok.
    apply orb_true_iff in Hbad as [Hbad|Hbad];
      [apply orb_true_iff in Hbad as [Hbad|Hbad]|].
    + left. apply negb_true_iff in Hbad.
      destruct (c_str b); [reflexivity | discriminate].
    + right. left. apply bool_decide_eq_true in Hbad. exact Hbad.
    + right. right. apply bool_decide_eq_true in Hbad. exact Hbad.
Qed.

Lemma input_loop_blank_titles (cy : Z) (blanks : list string) :
  ∀ typed director shown,
    Forall (λ b, blank_entry 100 b = true) blanks →
    ∃ shown',
      input_loop cy (blanks ++ typed) None director shown
      = input_loop cy typed None director shown'.
Proof.
  induction blanks as [|b blanks IH]; intros typed director shown Hall; [eauto|].
  apply Forall_cons in Hall as [Hb Hall].
  simpl app. rewrite input_loop_blank_title by exact Hb. apply IH, Hall.
Qed.

Lemma input_loop_blank_directors (cy : Z) (blanks : list string) :
  ∀ typed t shown,
    Forall (λ b, blank_entry 100 b = true) blanks →
    ∃ shown',
      input_loop cy (blanks ++ typed) (Some t) None shown
      = input_loop cy typed (Some t) None shown'.
Proof.
  induction blanks as [|b blanks IH]; intros typed t shown Hall; [eauto|].
  apply Forall_cons in Hall as [Hb Hall].
  simpl app. rewrite input_loop_blank_director by exact Hb. apply IH, Hall.
Qed.

Lemma input_loop_refused_years (cy : Z) (bad : list string) :
  ∀ typed t d shown,
    Forall (λ b, refused_year cy b = true) bad →
    ∃ shown',
      input_loop cy (bad ++ typed) (Some t) (Some d) shown
      = input_loop cy typed (Some t) (Some d) shown'.
Proof.
  induction bad as [|b bad IH]; intros typed t d shown Hall; [eauto|].
  apply Forall_cons in Hall as [Hb Hall].
  simpl app. rewrite input_loop_refused_year by exact Hb. apply IH, Hall.
Qed.

(** X10. The add dialog asks for title, director and year in this order
    and repeats only the question whose answer it turned down: the first
    entry that is not blank becomes the title, the next one that is not
    blank the director, and the first entry after that which [atoi] reads
    as a year from 1801 to the current year ends the dialog; what is
    entered behind it is not read. *)
Theorem input_loop_session (cy : Z) (blanks1 blanks2 bad rest : list string)
    (t d ys : string) (y : Z) :
  Forall (λ b, blank_entry 100 b = true) blanks1 →
  text_entry 100 t = true →
  Forall (λ b, blank_entry 100 b = true) blanks2 →
  text_entry 100 d = true →
  Forall (λ b, refused_year cy b = true) bad →
  text_entry 10 ys = true →
  atoi (c_str ys) = Done y → 1800 < y ≤ cy →
  ∃ shown,
    input_loop cy (blanks1 ++ t :: blanks2 ++ d :: bad ++ ys :: rest)
               None None []
    = Done (Some (c_str t, c_str d, y), shown).
Proof.
  intros Hb1 Ht Hb2 Hd Hbad Hys Hatoi Hy.
  destruct (input_loop_blank_titles cy blanks1
              (t :: blanks2 ++ d :: bad ++ ys :: rest) None [] Hb1) as [s1 ->].
  rewrite input_loop_title by exact Ht.
  destruct (input_loop_blank_directors cy blanks2 (d :: bad ++ ys :: rest)
              (c_str t) (s1 ++ [ask_title]) Hb2) as [s2 ->].
  rewrite input_loop_director by exact Hd.
  destruct (input_loop_refused_years cy bad (ys :: rest) (c_str t) (c_str d)
              (s2 ++ [ask_director]) Hbad) as [s3 ->].
  apply andb_true_iff in Hys as [Hfit Htext].
  apply bool_decide_eq_true in Hfit. apply nonempty_length in Htext.
  cbn [input_loop]. unfold wgetstr.
  destruct (decide (String.length ys < 10)%nat); [|lia].
  cbn [mbind outcome_bind]. rewrite Hatoi. cbn [mbind outcome_bind].
  destruct (decide _) as [[H|[H|H]]|_]; [contradiction | lia | lia |].
  eauto.
Qed.

Lemma input_loop_session_witness :
  ∃ shown,
    input_loop 2024 ([""] ++ "Inception" :: ["";""] ++ "Nolan"
                       :: ["";"1800";"soon";"2025"] ++ "2010" :: ["x"])
               None None []
    = Done (Some (c_str "Inception", c_str "Nolan", 2010), shown).
Proof.
  apply (input_loop_session 2024 [""] ["";""] ["";"1800";"soon";"2025"] ["x"]
           "Inception" "Nolan" "2010" 2010);
    try reflexivity; try (repeat constructor); lia.
Defined.

Lemma c_str_clean (s : string) : clean (c_str s) = true.
Proof.
  induction s as [|c s IH]; simpl; [reflexivity|].
  destruct (Ascii.eqb c NUL) eqn:E; simpl; [reflexivity|].
  rewrite E. exact IH.
Qed.

Lemma c_str_length (s : string) :
  (String.length (c_str s) ≤ String.length s)%nat.
Proof.
  induction s as [|c s IH]; simpl; [lia|].
  destruct (Ascii.eqb c NUL); simpl; lia.
Qed.

Lemma input_loop_invariant (cy : Z) (typed : list string) :
  ∀ title director shown t d y shown',
    accepted title → accepted director →
    (title = None → director = None) →
    input_loop cy typed title director shown = Done (Some (t, d, y), shown') →
    accepted (Some t) ∧ accepted (Some d) ∧ 1800 < y ≤ cy.
Proof.
  induction typed as [|text typed IH];
    intros title director shown t d y shown' Ht Hd Horder Hrun.
  - destruct title, director; simpl in Hrun; discriminate.
  - destruct title as [t0|].
    + destruct director as [d0|].
      * cbn [input_loop] in Hrun. unfold wgetstr in Hrun.
        destruct (decide (String.length text < 10)%nat); [|discriminate].
        cbn [mbind outcome_bind] in Hrun.
        destruct (atoi (c_str text)) as [year|]; [|discriminate].
        cbn [mbind outcome_bind] in Hrun.
        destruct (decide _) as [_|Hok].
        -- exact (IH _ _ _ _ _ _ _ Ht Hd Horder Hrun).
        -- injection Hrun as <- <- <- <-.
           split; [exact Ht|]. split; [exact Hd|]. lia.
      * cbn [input_loop] in Hrun. unfold wgetstr in Hrun.
        destruct (decide (String.length text < 100)%nat) as [Hfit|]; [|discriminate].
        cbn [mbind outcome_bind] in Hrun.
        destruct (decide (String.length (c_str text) = 0%nat)) as [|Hne].
        -- exact (IH _ _ _ _ _ _ _ Ht Hd Horder Hrun).
        -- assert (Hnew : accepted (Some (c_str text))).
           { split; [apply nonempty_length, Hne|].
             split; [apply c_str_clean|].
             pose proof (c_str_length text). lia. }
           refine (IH _ _ _ _ _ _ _ Ht Hnew _ Hrun). discriminate.
    + rewrite (Horder eq_refl) in *.
      cbn [input_loop] in Hrun. unfold wgetstr in Hrun.
      destruct (decide (String.length text < 100)%nat) as [Hfit|]; [|discriminate].
      cbn [mbind outcome_bind] in Hrun.
      destruct (decide (String.length (c_str text) = 0%nat)) as [|Hne].
      * exact (IH _ _ _ _ _ _ _ Ht Hd (λ _, eq_refl) Hrun).
      * assert (Hnew : accepted (Some (c_str text))).
        { split; [apply nonempty_length, Hne|].
          split; [apply c_str_clean|].
          pose proof (c_str_length text). lia. }
        refine (IH _ _ _ _ _ _ _ Hnew Hd _ Hrun). discriminate.
Qed.

(** X11. Whatever is entered, a triple that leaves the add dialog has a
    title and a director that are not empty and shorter than 100
    characters and a year from 1801 to the current year; so [create_movie]
    refuses it only when an allocation fails, and with every allocation
    granted builds a record with exactly these three fields. *)
Theorem input_loop_accepts (cy : Z) (typed : list string) (t d : string)
    (y : Z) (shown : list written) :
  input_loop cy typed None None [] = Done (Some (t, d, y), shown) →
  nonempty t = true ∧ nonempty d = true ∧
  (String.length t < 100)%nat ∧ (String.length d < 100)%nat ∧
  1800 < y ≤ cy ∧
  ∀ h, grants h →
       ∃ m, create_movie h (Some t) (Some d) y = (Some m, []) ∧
            title m = Some t ∧ director m = Some d ∧ year m = y.
Proof.
  intros Hrun.
  destruct (input_loop_invariant cy typed None None [] t d y shown I I
              (λ _, eq_refl) Hrun)
    as ((Ht & _ & Htl) & (Hd & _ & Hdl) & Hy).
  repeat (split; [assumption || lia|]).
  intros h ([blk Hblk] & Htc & Hdc).
  assert (Hh : h = mkHeap (Some blk) true true).
  { destruct h; simpl in *. congruence. }
  rewrite Hh, create_movie_granted by lia.
  eexists. split; [reflexivity|]. repeat split.
Qed.

Lemma input_loop_accepts_witness :
  nonempty "Inception" = true ∧ nonempty "Nolan" = true ∧
  (String.length "Inception" < 100)%nat ∧ (String.length "Nolan" < 100)%nat ∧
  1800 < 2010 ≤ 2024 ∧
  ∀ h, grants h →
       ∃ m, create_movie h (Some "Inception") (Some "Nolan") 2010
            = (Some m, []) ∧
            title m = Some "Inception" ∧ director m = Some "Nolan" ∧
            year m = 2010.
Proof.
  apply (input_loop_accepts 2024 [""; "Inception"; "Nolan"; "1492"; "2010"]
           "Inception" "Nolan" 2010
           [ask_title; blank_title; ask_title; ask_director;
            ask_year; bad_year; ask_year]).
  reflexivity.
Defined.

End DialogFacts.

(** ** The list view *)

Module ViewFacts.

Import RecFacts CatalogFacts DeleteFacts RateFacts.

Lemma array_get_at (entries : list slot) (i : Z) (s : slot) :
  0 ≤ i → entries !! Z.to_nat i = Some s → array_get entries i = Done s.
Proof.
  intros Hi H. rewrite <- (array_get_nat _ _ _ H). f_equal. lia.
Qed.

Lemma laid_out_length (c0 : nat) (tail : list slot) (ms : list Movie)
    (entries : list slot) :
  laid_out c0 tail ms entries → length entries = (c0 + length tail)%nat.
Proof.
  intros [Hle ->]. rewrite !length_app, length_map, length_replicate. lia.
Qed.

Lemma laid_out_record (c0 : nat) (tail : list slot) (ms : list Movie)
    (entries : list slot) (i : nat) (m : Movie) :
  laid_out c0 tail ms entries → ms !! i = Some m →
  entries !! i = Some (Ptr m).
Proof.
  intros [Hle ->] Hm.
  rewrite lookup_app_l by (rewrite length_map; eapply lookup_lt_Some; eauto).
  change (map Ptr ms) with (Ptr <$> ms). rewrite list_lookup_fmap, Hm.
  reflexivity.
Qed.

Lemma laid_out_empty (c0 : nat) (tail : list slot) (ms : list Movie)
    (entries : list slot) (i : nat) :
  laid_out c0 tail ms entries → (length ms ≤ i < c0)%nat →
  entries !! i = Some Null.
Proof.
  intros [Hle ->] Hi.
  rewrite lookup_app_r by (rewrite length_map; lia).
  rewrite lookup_app_l by (rewrite length_map, length_replicate; lia).
  apply lookup_replicate_2. rewrite length_map. lia.
Qed.

Lemma laid_out_cell (c0 : nat) (tail : list slot) (ms : list Movie)
    (entries : list slot) (i : nat) :
  laid_out c0 tail ms entries → (i < c0)%nat →
  (∃ m, ms !! i = Some m ∧ entries !! i = Some (Ptr m))
  ∨ ((length ms ≤ i)%nat ∧ entries !! i = Some Null).
Proof.
  intros Hl Hi. destruct (decide (i < length ms)%nat) as [Hlt|Hge].
  - destruct (lookup_lt_is_Some_2 ms i Hlt) as [m Hm].
    left. exists m. split; [exact Hm|]. eapply laid_out_record; eauto.
  - right. split; [lia|]. eapply laid_out_empty; eauto. lia.
Qed.

Lemma laid_out_rated (c0 : nat) (tail : list slot) (ms : list Movie)
    (entries : list slot) (i : nat) (m : Movie) :
  laid_out c0 tail ms entries → (i < length ms)%nat →
  laid_out c0 tail (<[i := m]> ms) (<[i := Ptr m]> entries).
Proof.
  intros [Hle ->] Hi. split; [rewrite length_insert; exact Hle|].
  rewrite insert_app_l by (rewrite length_map; exact Hi).
  rewrite length_insert.
  change (map Ptr ms) with (Ptr <$> ms).
  change (map Ptr (<[i := m]> ms)) with (Ptr <$> <[i := m]> ms).
  rewrite list_fmap_insert. reflexivity.
Qed.

Lemma laid_out_deleted (c0 : nat) (tail : list slot) (ms : list Movie)
    (entries : list slot) (i n : nat) :
  laid_out c0 tail ms entries → (i < length ms ≤ n)%nat → (n ≤ c0)%nat →
  laid_out c0 tail (delete i ms)
    (take i entries ++ drop (S i) (take n entries) ++ Null :: drop n entries).
Proof.
  intros [Hle ->] Hi Hn.
  assert (Hd : length (delete i ms) = (length ms - 1)%nat).
  { apply length_delete, lookup_lt_is_Some_2. lia. }
  split; [lia|]. rewrite Hd.
  set (A := map Ptr ms).
  assert (HA : length A = length ms) by (unfold A; apply length_map).
  replace (c0 - length ms)%nat with ((n - length ms) + (c0 - n))%nat by lia.
  rewrite replicate_add.
  set (N1 := replicate (n - length ms) Null).
  set (N2 := replicate (c0 - n) Null).
  assert (HN1 : length N1 = (n - length ms)%nat) by apply length_replicate.
  rewrite take_app_le by lia.
  assert (Htake : take n (A ++ (N1 ++ N2) ++ tail) = A ++ N1).
  { rewrite <- app_assoc, (app_assoc A N1).
    apply take_app_length'. rewrite length_app. lia. }
  assert (Hdrop : drop n (A ++ (N1 ++ N2) ++ tail) = N2 ++ tail).
  { rewrite <- app_assoc, (app_assoc A N1).
    apply drop_app_length'. rewrite length_app. lia. }
  rewrite Htake, Hdrop. rewrite drop_app_le by lia.
  change (map Ptr (delete i ms)) with (Ptr <$> delete i ms).
  rewrite delete_take_drop, fmap_app, fmap_take, fmap_drop.
  change (Ptr <$> ms) with A.
  replace (c0 - (length ms - 1))%nat
    with ((n - length ms) + S (c0 - n))%nat by lia.
  rewrite replicate_add. fold N1. simpl replicate. fold N2.
  rewrite <- !app_assoc. reflexivity.
Qed.

Lemma laid_out_packed (c0 : nat) (tail : list slot) (ms : list Movie)
    (entries : list slot) :
  laid_out c0 tail ms entries →
  packed entries (Z.of_nat c0) ms ∧ drop c0 entries = tail.
Proof.
  intros Hl. pose proof (laid_out_length _ _ _ _ Hl) as Hlen.
  destruct Hl as [Hle ->].
  assert (Hfront : length (map Ptr ms ++ replicate (c0 - length ms) Null) = c0).
  { rewrite length_app, length_map, length_replicate. lia. }
  split; [split; [lia|split; [lia|]]|].
  - rewrite Nat2Z.id, app_assoc. apply take_app_length'. lia.
  - rewrite app_assoc. apply drop_app_length'. lia.
Qed.

Lemma packed_laid_out (entries : list slot) (count : Z) (ms : list Movie) :
  packed entries count ms →
  laid_out (Z.to_nat count) (drop (Z.to_nat count) entries) ms entries.
Proof.
  intros (Hc & Hms & Htake). split; [lia|].
  rewrite app_assoc, <- Htake. symmetry. apply take_drop.
Qed.

Lemma Forall2_sublist_r {A B} (R : A → B → Prop) (k k' : list B) :
  sublist k' k →
  ∀ l, Forall2 R l k → ∃ l', sublist l' l ∧ Forall2 R l' k'.
Proof.
  induction 1 as [|y k' k _ IH|y k' k _ IH]; intros l Hl.
  - exists []. split; [apply sublist_nil_l | constructor].
  - apply Forall2_cons_inv_r in Hl as (x & l0 & Hx & Hl0 & ->).
    destruct (IH l0 Hl0) as (l' & Hsub & Hall).
    exists (x :: l'). split; [apply sublist_skip, Hsub | constructor; assumption].
  - apply Forall2_cons_inv_r in Hl as (x & l0 & Hx & Hl0 & ->).
    destruct (IH l0 Hl0) as (l' & Hsub & Hall).
    exists l'. split; [apply sublist_cons, Hsub | exact Hall].
Qed.

Lemma same_fields_trans (a b c : Movie) :
  same_fields a b → same_fields b c → same_fields a c.
Proof.
  unfold same_fields. intros (? & ? & ?) (? & ? & ?).
  repeat split; congruence.
Qed.

Lemma same_fields_refl (a : Movie) : same_fields a a.
Proof. repeat split. Qed.

Lemma thinned_refl (ms : list Movie) : thinned ms ms.
Proof.
  exists ms. split; [reflexivity|].
  apply Forall2_same_length_lookup_2; [reflexivity|].
  intros i x y Hx Hy. rewrite Hx in Hy. injection Hy as <-.
  apply same_fields_refl.
Qed.

Lemma thinned_trans (a b c : list Movie) :
  thinned a b → thinned b c → thinned a c.
Proof.
  intros (k1 & Hs1 & Hf1) (k2 & Hs2 & Hf2).
  destruct (Forall2_sublist_r same_fields b k2 Hs2 k1 Hf1) as (k & Hs & Hf).
  exists k. split; [etransitivity; eassumption|].
  eapply Forall2_trans; [|exact Hf|exact Hf2].
  intros x y z. apply same_fields_trans.
Qed.

Lemma thinned_deleted (ms : list Movie) (i : nat) : thinned ms (delete i ms).
Proof.
  exists (delete i ms). split; [apply sublist_delete|].
  apply Forall2_same_length_lookup_2; [reflexivity|].
  intros j x y Hx Hy. rewrite Hx in Hy. injection Hy as <-.
  apply same_fields_refl.
Qed.

Lemma thinned_rated (ms : list Movie) (i : nat) (m m' : Movie) :
  ms !! i = Some m → same_fields m m' → thinned ms (<[i := m']> ms).
Proof.
  intros Hm Hsame. exists ms. split; [reflexivity|].
  rewrite <- (list_insert_id ms i m Hm) at 1.
  apply Forall2_insert; [|exact Hsame].
  apply Forall2_same_length_lookup_2; [reflexivity|].
  intros j x y Hx Hy. rewrite Hx in Hy. injection Hy as <-.
  apply same_fields_refl.
Qed.

Section Steady.

Variables (c0 : nat) (tail : list slot).
Hypothesis Hc0 : Z.of_nat c0 + 5 ≤ INT_MAX.

Ltac steady_done :=
  split; [assumption|]; split; [assumption|]; simpl; lia.

Lemma steady_reverse (ms : list Movie) (v : view) (r : bool) :
  steady c0 tail ms v →
  steady c0 tail ms
    (mkView (cells v) (count v) (current_start v) (current_highlight v) r).
Proof. intros H. exact H. Qed.

Lemma draw_rows_defined (ms : list Movie) (v : view) :
  steady c0 tail ms v →
  ∀ (n : nat) (i : Z) (rev : bool) (rows : list row),
    0 ≤ i → i + Z.of_nat n ≤ 5 →
    ∃ r, draw_rows n v i rev rows = Done r.
Proof.
  intros (Hl & Htitled & Hcount & Hh & Hs).
  induction n as [|n IH]; intros i rev rows Hi Hn; [simpl; eauto|].
  cbn [draw_rows].
  rewrite (int_of_Done (i + current_start v)) by (unfold INT_MIN; lia).
  cbn [mbind outcome_bind].
  destruct (decide (i + current_start v < count v)) as [Hin|]; [|eauto].
  destruct (laid_out_cell c0 tail ms (cells v) (Z.to_nat (i + current_start v)) Hl)
    as [(m & Hm & Hcell)|[Hge Hcell]]; [lia| |].
  - rewrite (array_get_at (cells v) (i + current_start v) _ ltac:(lia) Hcell).
    cbn [mbind outcome_bind is_null deref].
    rewrite (int_of_Done (i + 1 + current_start v)) by (unfold INT_MIN; lia).
    cbn [mbind outcome_bind].
    pose proof (Forall_lookup_1 _ _ _ _ Htitled Hm) as [[t Ht] [d Hd]].
    unfold row_text. rewrite Ht, Hd. cbn [mbind outcome_bind str_arg].
    apply IH; lia.
  - rewrite (array_get_at (cells v) (i + current_start v) _ ltac:(lia) Hcell).
    cbn [mbind outcome_bind is_null]. apply IH; lia.
Qed.

Lemma key_up_steady (ms : list Movie) (v : view) :
  steady c0 tail ms v → steady c0 tail ms (key_up v).
Proof.
  intros (Hl & Htitled & Hcount & Hh & Hs). unfold key_up.
  destruct (decide (current_highlight v > 0)).
  { steady_done. }
  destruct (decide (current_start v > 0)).
  { steady_done. }
  steady_done.
Qed.

Lemma key_down_steady (ms : list Movie) (v : view) :
  steady c0 tail ms v →
  ∃ v', key_down v = Done v' ∧ steady c0 tail ms v'.
Proof.
  intros (Hl & Htitled & Hcount & Hh & Hs). unfold key_down, display_count.
  rewrite (int_of_Done (5 - 1)) by (unfold INT_MIN, INT_MAX; lia).
  cbn [mbind outcome_bind].
  assert (Hmove : ∃ move : bool,
    (if decide (current_highlight v < 5 - 1) then
       index ← int_of (current_highlight v + current_start v);
       last ← int_of (count v - 1);
       Done (bool_decide (index < last))
     else Done false) = Done move ∧
    (move = true → current_highlight v < 4)).
  { destruct (decide (current_highlight v < 5 - 1)).
    - rewrite !int_of_Done by (unfold INT_MIN; lia). cbn [mbind outcome_bind].
      eexists. split; [reflexivity|]. lia.
    - exists false. split; [reflexivity | discriminate]. }
  destruct Hmove as (move & -> & Hmove). cbn [mbind outcome_bind].
  destruct move.
  - specialize (Hmove eq_refl).
    rewrite (int_of_Done (current_highlight v + 1)) by (unfold INT_MIN; lia).
    cbn [mbind outcome_bind].
    eexists. split; [reflexivity|].
    steady_done.
  - rewrite (int_of_Done (current_start v + 5)) by (unfold INT_MIN; lia).
    cbn [mbind outcome_bind].
    destruct (decide (current_start v + 5 < count v)).
    + rewrite (int_of_Done (current_start v + 1)) by (unfold INT_MIN; lia).
      cbn [mbind outcome_bind].
      eexists. split; [reflexivity|].
      steady_done.
    + eexists. split; [reflexivity|].
      steady_done.
Qed.

Lemma key_rate_steady (ms : list Movie) (v : view) (keys : list Z) :
  steady c0 tail ms v →
  ∃ r, key_rate v keys = Done r ∧
       ∀ v' out, r = Some (v', out) →
                 ∃ ms', steady c0 tail ms' v' ∧ thinned ms ms' ∧
                        length ms' = length ms.
Proof.
  intros Hv. pose proof Hv as (Hl & Htitled & Hcount & Hh & Hs).
  assert (Hsame : ∀ r, r = Some (v, ([] : list output)) ∨
                       (∃ out, r = Some (v, out)) →
                       ∀ v' out, r = Some (v', out) →
                       ∃ ms', steady c0 tail ms' v' ∧ thinned ms ms' ∧
                              length ms' = length ms).
  { intros r Hr v' out Heq. exists ms.
    split; [|split; [apply thinned_refl | reflexivity]].
    destruct Hr as [->|[out' ->]]; injection Heq as <- _; exact Hv. }
  unfold key_rate.
  assert (Henter : ∃ enter : bool,
    (if decide (count v > 0) then
       index ← int_of (current_highlight v + current_start v);
       Done (bool_decide (index < count v))
     else Done false) = Done enter ∧
    (enter = true → current_highlight v + current_start v < count v)).
  { destruct (decide (count v > 0)).
    - rewrite int_of_Done by (unfold INT_MIN; lia). cbn [mbind outcome_bind].
      eexists. split; [reflexivity|]. intros H.
      apply bool_decide_eq_true in H. exact H.
    - exists false. split; [reflexivity | discriminate]. }
  destruct Henter as (enter & -> & Henter). cbn [mbind outcome_bind].
  destruct enter; [|eexists; split; [reflexivity | apply Hsame; auto]].
  specialize (Henter eq_refl).
  rewrite int_of_Done by (unfold INT_MIN; lia). cbn [mbind outcome_bind].
  set (index := current_highlight v + current_start v) in *.
  destruct (laid_out_cell c0 tail ms (cells v) (Z.to_nat index) Hl)
    as [(m & Hm & Hcell)|[Hge Hcell]]; [lia| |].
  - rewrite (array_get_at (cells v) index _ ltac:(lia) Hcell).
    cbn [mbind outcome_bind is_null deref].
    destruct (rate_movie (Some m) keys) as [[[m'|] shown]|] eqn:Hrate.
    + pose proof (laid_out_length _ _ _ _ Hl) as Hlen.
      rewrite array_set_inside by lia. cbn [mbind outcome_bind].
      eexists. split; [reflexivity|].
      intros v' out [= <- _]. exists (<[Z.to_nat index := m']> ms).
      pose proof (rate_movie_fields _ _ _ _ Hrate) as Hf.
      assert (Hi : (Z.to_nat index < length ms)%nat)
        by (eapply lookup_lt_Some; eauto).
      split; [|split; [eapply thinned_rated; eauto | apply length_insert]].
      split; [apply laid_out_rated; assumption|].
      split.
      { apply Forall_insert; [exact Htitled|].
        pose proof (Forall_lookup_1 _ _ _ _ Htitled Hm) as [Ht Hd].
        destruct Hf as (Ht' & Hd' & _). unfold titled.
        rewrite Ht', Hd'. auto. }
      simpl. rewrite length_insert. repeat split; lia.
    + exfalso. eapply rate_movie_some, Hrate.
    + eexists. split; [reflexivity|]. discriminate.
  - rewrite (array_get_at (cells v) index _ ltac:(lia) Hcell).
    cbn [mbind outcome_bind is_null]. rewrite rate_movie_null.
    eexists. split; [reflexivity|]. apply Hsame. eauto.
Qed.

Lemma settle (ms : list Movie) (v : view) (entries : list slot) (n : Z)
    (out : list output) :
  steady c0 tail ms v → ∀ ms',
  laid_out c0 tail ms' entries → Forall titled ms' →
  Z.of_nat (length ms') ≤ n ≤ Z.of_nat c0 →
  ∃ v',
    (highlight ← (if decide (current_highlight v >= n)
                  then int_of (n - 1) else Done (current_highlight v));
     let start :=
       if decide (highlight < current_start v) then highlight
       else current_start v in
     let '(highlight, start) :=
       if decide (n = 0) then (0, 0) else (highlight, start) in
     Done (mkView entries n start highlight (reverse v), out))
    = Done (v', out) ∧ steady c0 tail ms' v'.
Proof.
  intros (_ & _ & _ & Hh & Hs) ms' Hl Htitled Hn.
  destruct (decide (current_highlight v >= n)).
  - rewrite int_of_Done by (unfold INT_MIN; lia). cbn [mbind outcome_bind].
    destruct (decide (n = 0)).
    + eexists. split; [reflexivity|].
      steady_done.
    + destruct (decide (n - 1 < current_start v));
        (eexists; split; [reflexivity|];
         steady_done).
  - cbn [mbind outcome_bind].
    destruct (decide (n = 0)); [lia|].
    destruct (decide (current_highlight v < current_start v));
      (eexists; split; [reflexivity|];
       steady_done).
Qed.

Lemma handle_deletion_steady (ms : list Movie) (v : view) (index ch : Z) :
  steady c0 tail ms v → 0 ≤ index →
  ∃ entries n shown ms',
    handle_deletion (cells v) (count v) index ch = Done (entries, n, shown) ∧
    laid_out c0 tail ms' entries ∧ Forall titled ms' ∧
    Z.of_nat (length ms') ≤ n ≤ Z.of_nat c0 ∧ thinned ms ms' ∧
    (n = count v ∨ n = count v - 1) ∧
    (length ms ≤ length ms' + (if confirms ch then 1 else 0))%nat.
Proof.
  intros Hv Hindex. pose proof Hv as (Hl & Htitled & Hcount & Hh & Hs).
  pose proof (laid_out_length _ _ _ _ Hl) as Hlen.
  assert (Hsame : ∀ shown,
    handle_deletion (cells v) (count v) index ch
    = Done (cells v, count v, shown) →
    ∃ entries n shown ms',
      handle_deletion (cells v) (count v) index ch = Done (entries, n, shown) ∧
      laid_out c0 tail ms' entries ∧ Forall titled ms' ∧
      Z.of_nat (length ms') ≤ n ≤ Z.of_nat c0 ∧ thinned ms ms' ∧
      (n = count v ∨ n = count v - 1) ∧
      (length ms ≤ length ms' + (if confirms ch then 1 else 0))%nat).
  { intros shown Hrun. exists (cells v), (count v), shown, ms.
    split; [exact Hrun|]. split; [exact Hl|]. split; [exact Htitled|].
    split; [exact Hcount|]. split; [apply thinned_refl|].
    split; [auto | lia]. }
  destruct (decide (index < 0 ∨ index >= count v)) as [Hout|Hin].
  { eapply Hsame. unfold handle_deletion.
    destruct (decide (index < 0 ∨ index >= count v)); [reflexivity | tauto]. }
  assert (Hhd : handle_deletion (cells v) (count v) index ch
                = delete_movie (cells v) (count v) index ch).
  { unfold handle_deletion.
    destruct (decide (index < 0 ∨ index >= count v)); [tauto | reflexivity]. }
  destruct (laid_out_cell c0 tail ms (cells v) (Z.to_nat index) Hl)
    as [(m & Hm & Hcell)|[Hge Hcell]]; [lia| |].
  - destruct (decide (ch = chr "y" ∨ ch = chr "Y")) as [Hyes|Hno].
    + assert (Hi : (Z.to_nat index < length ms)%nat)
        by (eapply lookup_lt_Some; eauto).
      assert (Hd : length (delete (Z.to_nat index) ms) = (length ms - 1)%nat).
      { apply length_delete. eauto. }
      eexists _, (count v - 1), _, (delete (Z.to_nat index) ms).
      split.
      { rewrite Hhd. apply (delete_movie_closed (cells v) (count v) index ch m);
          (assumption || lia). }
      split.
      { apply (laid_out_deleted c0 tail ms (cells v) (Z.to_nat index)
                 (Z.to_nat (count v)) Hl); lia. }
      split; [apply Forall_delete, Htitled|].
      split; [lia|]. split; [apply thinned_deleted|]. split; [auto|].
      unfold confirms. rewrite bool_decide_eq_true_2 by exact Hyes. lia.
    + destruct (delete_movie_declined (cells v) (count v) index ch)
        as (shown & Hrun & _); [lia | | tauto | tauto |].
      { intros j Hj.
        destruct (laid_out_cell c0 tail ms (cells v) j Hl)
          as [(m' & _ & ->)|[_ ->]]; [lia | discriminate | discriminate]. }
      eapply Hsame. rewrite Hhd. exact Hrun.
  - eapply Hsame. rewrite Hhd. apply delete_movie_refused. auto.
Qed.

Lemma key_delete_steady (ms : list Movie) (v : view) (keys : list Z) :
  steady c0 tail ms v →
  ∃ v' out ms',
    key_delete v keys = Done (v', out) ∧
    steady c0 tail ms' v' ∧ thinned ms ms' ∧
    (length ms ≤ length ms' + (if confirms (hd ERR keys) then 1 else 0))%nat.
Proof.
  intros Hv. pose proof Hv as (Hl & Htitled & Hcount & Hh & Hs).
  unfold key_delete.
  destruct (decide (count v > 0 ∧ current_highlight v < count v)) as [Hgo|];
    [|exists v; eexists; exists ms; split; [reflexivity|];
      split; [exact Hv|]; split; [apply thinned_refl | lia]].
  rewrite int_of_Done by (unfold INT_MIN; lia). cbn [mbind outcome_bind].
  destruct (handle_deletion_steady ms v
              (current_highlight v + current_start v) (hd ERR keys) Hv)
    as (entries & n & shown & ms' & -> & Hl' & Ht' & Hn & Hthin & _ & Hless);
    [lia|].
  cbn [mbind outcome_bind].
  destruct (settle ms v entries n (map Said shown) Hv ms' Hl' Ht' Hn)
    as (v' & Hrun & Hv').
  exists v', (map Said shown), ms'. auto.
Qed.

Lemma view_loop_steady (presses : list press) :
  ∀ (v : view) (shown : list output) (ms : list Movie),
    steady c0 tail ms v →
    ∃ r, view_loop presses v shown = Done r ∧
         ∀ entries out, r = Some (entries, out) →
           ∃ ms', laid_out c0 tail ms' entries ∧ Forall titled ms' ∧
                  thinned ms ms' ∧
                  (length ms ≤ length ms' + confirmed presses)%nat.
Proof.
  induction presses as [|p presses IH]; intros v shown ms Hv;
    destruct (draw_rows_defined ms v Hv (Z.to_nat display_count) 0 (reverse v) [])
      as [[rows rev] Hdraw];
    try (unfold display_count; lia);
    cbn [view_loop]; rewrite Hdraw; cbn [mbind outcome_bind].
  - eexists. split; [reflexivity | discriminate].
  - set (v1 := mkView (cells v) (count v) (current_start v)
                      (current_highlight v) rev).
    assert (Hv1 : steady c0 tail ms v1) by exact Hv.
    assert (Hnext : ∀ v2 shown2,
              steady c0 tail ms v2 →
              ∃ r, view_loop presses v2 shown2 = Done r ∧
                   ∀ entries out, r = Some (entries, out) →
                     ∃ ms', laid_out c0 tail ms' entries ∧ Forall titled ms' ∧
                            thinned ms ms' ∧
                            (length ms ≤ length ms' + confirmed (p :: presses))%nat).
    { intros v2 shown2 Hv2.
      destruct (IH v2 shown2 ms Hv2) as (r & Hrun & Hres).
      exists r. split; [exact Hrun|].
      intros entries out Heq.
      destruct (Hres entries out Heq) as (ms' & Hl' & Ht' & Hthin' & Hless).
      exists ms'. split; [exact Hl'|]. split; [exact Ht'|].
      split; [exact Hthin'|]. cbn [confirmed]. lia. }
    destruct (decide (key p = KEY_UP)).
    { apply Hnext, key_up_steady, Hv1. }
    destruct (decide (key p = KEY_DOWN)).
    { destruct (key_down_steady ms v1 Hv1) as (v2 & -> & Hv2).
      cbn [mbind outcome_bind]. apply Hnext, Hv2. }
    destruct (decide (key p = chr "r")).
    { destruct (key_rate_steady ms v1 (answers p) Hv1) as (r & -> & Hr).
      cbn [mbind outcome_bind]. destruct r as [[v2 more]|].
      - destruct (Hr v2 more eq_refl) as (ms1 & Hv2 & Hthin & Hlen).
        destruct (IH v2 ((shown ++ [Frame rows]) ++ more) ms1 Hv2)
          as (r & Hrun & Hres).
        exists r. split; [exact Hrun|].
        intros entries out Heq.
        destruct (Hres entries out Heq) as (ms' & Hl' & Ht' & Hthin' & Hless).
        exists ms'. split; [exact Hl'|]. split; [exact Ht'|].
        split; [eapply thinned_trans; eassumption|].
        cbn [confirmed]. lia.
      - eexists. split; [reflexivity | discriminate]. }
    destruct (decide (key p = chr "d")) as [Hd|].
    { destruct (key_delete_steady ms v1 (answers p) Hv1)
        as (v2 & more & ms1 & -> & Hv2 & Hthin & Hone).
      cbn [mbind outcome_bind].
      destruct (IH v2 ((shown ++ [Frame rows]) ++ more) ms1 Hv2)
        as (r & Hrun & Hres).
      exists r. split; [exact Hrun|].
      intros entries out Heq.
      destruct (Hres entries out Heq) as (ms' & Hl' & Ht' & Hthin' & Hless).
      exists ms'. split; [exact Hl'|]. split; [exact Ht'|].
      split; [eapply thinned_trans; eassumption|].
      cbn [confirmed]. rewrite bool_decide_eq_true_2 by exact Hd.
      cbn [andb]. lia. }
    destruct (decide (key p = chr "q")).
    { eexists. split; [reflexivity|].
      intros entries out [= <- _]. exists ms.
      destruct Hv as (Hl & Htitled & _).
      split; [exact Hl|]. split; [exact Htitled|].
      split; [apply thinned_refl | lia]. }
    apply Hnext, Hv1.
Qed.

End Steady.

(** X19. Pressing [d] makes a scrolled list jump back: when the list has
    been scrolled further than the highlight is away from the top of the
    window, the [d] case sets [current_start] to the highlight, whether
    the deletion is confirmed, declined or refused; the window then shows
    the rows from the highlight (at most the fifth) on, not the rows
    around the record that was selected. *)
Theorem delete_key_scrolls_back (c0 : nat) (tail : list slot)
    (ms : list Movie) (v : view) (keys : list Z) :
  Z.of_nat c0 + 5 ≤ INT_MAX → steady c0 tail ms v →
  0 < count v → current_highlight v < count v →
  current_highlight v < current_start v →
  ∃ v' out,
    key_delete v keys = Done (v', out) ∧
    current_start v' = current_highlight v' ∧
    current_highlight v' ≤ current_highlight v.
Proof.
  intros Hc0 Hv Hpos Hsel Hscrolled.
  pose proof Hv as (Hl & Htitled & Hcount & Hh & Hs).
  unfold key_delete.
  destruct (decide (count v > 0 ∧ current_highlight v < count v)); [|lia].
  rewrite int_of_Done by (unfold INT_MIN; lia). cbn [mbind outcome_bind].
  destruct (handle_deletion_steady c0 tail Hc0 ms v
              (current_highlight v + current_start v) (hd ERR keys) Hv)
    as (entries & n & shown & ms' & -> & Hl' & Ht' & Hn & Hthin & Hcases & _);
    [lia|].
  cbn [mbind outcome_bind].
  destruct (decide (current_highlight v >= n)).
  - rewrite int_of_Done by (unfold INT_MIN; lia). cbn [mbind outcome_bind].
    destruct (decide (n = 0)).
    + eexists _, _. split; [reflexivity|]. simpl. lia.
    + destruct (decide (n - 1 < current_start v)); [|lia].
      eexists _, _. split; [reflexivity|]. simpl. lia.
  - cbn [mbind outcome_bind].
    destruct (decide (n = 0)); [lia|].
    destruct (decide (current_highlight v < current_start v)); [|lia].
    eexists _, _. split; [reflexivity|]. simpl. lia.
Qed.

Lemma delete_key_scrolls_back_witness :
  ∃ v' out,
    key_delete (mkView (map Ptr (replicate 12 movie_a)) 12 7 2 false)
               [chr "n"]
    = Done (v', out) ∧
    current_start v' = current_highlight v' ∧
    current_highlight v' ≤
      current_highlight (mkView (map Ptr (replicate 12 movie_a)) 12 7 2 false).
Proof.
  apply (delete_key_scrolls_back 12 [] (replicate 12 movie_a)).
  - unfold INT_MAX. lia.
  - split; [split; [simpl; lia | reflexivity]|].
    split; [|simpl; lia].
    apply Forall_replicate. split; eexists; reflexivity.
  - simpl. lia.
  - simpl. lia.
  - simpl. lia.
Defined.

(** X13. The list view is safe and keeps the catalogue in shape, whatever
    is typed: on an array whose counted cells hold records with title and
    director first and empty cells behind them, [display_movie_list_ui]
    never faults; when it returns, the same holds for the count the caller
    still has, the records left are records that were there, in their old
    order and with their title, director and year, and the cells beyond the
    count are untouched. *)
Theorem list_view_keeps_packed (entries : list slot) (count : Z)
    (presses : list press) (ms : list Movie) :
  packed entries count ms → Forall titled ms → count + 5 ≤ INT_MAX →
  ∃ r,
    display_movie_list_ui (Some entries) count presses = Done r ∧
    ∀ entries' shown,
      r = Some (entries', shown) →
      ∃ cells' ms',
        entries' = Some cells' ∧ packed cells' count ms' ∧
        Forall titled ms' ∧ thinned ms ms' ∧
        drop (Z.to_nat count) cells' = drop (Z.to_nat count) entries.
Proof.
  intros Hp Htitled Hmax.
  pose proof (packed_laid_out _ _ _ Hp) as Hl.
  destruct Hp as (Hc & Hms & _).
  set (c0 := Z.to_nat count) in *.
  set (tail := drop c0 entries) in *.
  assert (Hv : steady c0 tail ms (mkView entries count 0 0 false)).
  { split; [exact Hl|]. split; [exact Htitled|]. simpl. lia. }
  destruct (view_loop_steady c0 tail ltac:(lia) presses _ [] ms Hv)
    as (r & Hrun & Hres).
  unfold display_movie_list_ui. rewrite Hrun. cbn [mbind outcome_bind].
  destruct r as [[cells' shown]|].
  - eexists. split; [reflexivity|].
    intros entries' shown' [= <- _].
    destruct (Hres cells' shown eq_refl) as (ms' & Hl' & Ht' & Hthin & _).
    destruct (laid_out_packed _ _ _ _ Hl') as [Hp' Htail].
    exists cells', ms'. split; [reflexivity|].
    replace (Z.of_nat c0) with count in Hp' by lia.
    auto.
  - eexists. split; [reflexivity | discriminate].
Qed.

Lemma list_view_keeps_packed_witness :
  ∃ r,
    display_movie_list_ui (Some shelf) 3
      [mkPress KEY_DOWN []; mkPress (chr "d") [chr "y"];
       mkPress (chr "r") [chr "4"]; mkPress (chr "q") []] = Done r ∧
    ∀ entries' shown,
      r = Some (entries', shown) →
      ∃ cells' ms',
        entries' = Some cells' ∧ packed cells' 3 ms' ∧
        Forall titled ms' ∧ thinned [movie_a; movie_b; movie_c] ms' ∧
        drop (Z.to_nat 3) cells' = drop (Z.to_nat 3) shelf.
Proof.
  apply (list_view_keeps_packed shelf 3 _ [movie_a; movie_b; movie_c]).
  - split; [simpl; lia|]. split; [simpl; lia | reflexivity].
  - repeat constructor; eexists; reflexivity.
  - unfold INT_MAX. lia.
Defined.

(** A session in the list view: one step down, the second record deleted,
    the record that moved up rated 4, and back to the menu. The caller's
    count is still 3. *)
Example view_delete_and_rate :
  ∃ shown,
    display_movie_list_ui (Some shelf) 3
      [mkPress KEY_DOWN []; mkPress (chr "d") [chr "y"];
       mkPress (chr "r") [chr "4"]; mkPress (chr "q") []]
    = Done (Some (Some [Ptr movie_a;
                        Ptr (set_rating movie_c (float_of_int 4));
                        Null; Wild], shown)).
Proof. eexists. vm_compute. reflexivity. Qed.

End ViewFacts.

(** ** The program *)

Module ProgramFacts.

Import RecFacts CatalogFacts MainFacts SaveFacts LoadFacts DeleteFacts.
Import RoundTripFacts ViewFacts.

#[local] Arguments create_movie : simpl never.

Lemma occupied_front (ms : list Movie) (k : nat) :
  occupied (map Ptr ms ++ replicate k Null) = ms.
Proof.
  induction ms as [|m ms IH]; simpl; [|rewrite IH; reflexivity].
  induction k as [|k IH]; simpl; [reflexivity | exact IH].
Qed.

Lemma writable_front (ms : list Movie) (k : nat) :
  Forall titled ms → Forall writable (map Ptr ms ++ replicate k Null).
Proof.
  intros Hms. apply Forall_app. split.
  - induction Hms; simpl; constructor; assumption.
  - apply Forall_replicate. exact I.
Qed.

Lemma save_loop_titled (n : nat) :
  ∀ (entries : list slot) (i : nat) (out : string),
    (i + n ≤ length entries)%nat →
    Forall writable (take n (drop i entries)) →
    save_loop n (Some entries) (Z.of_nat i) out
    = Done (out +:+ join (map record_line (occupied (take n (drop i entries))))).
Proof.
  induction n as [|n IH]; intros entries i out Hlen Hall.
  - simpl. rewrite append_nil_r. reflexivity.
  - destruct (lookup_lt_is_Some_2 entries i) as [p Hp]; [lia|].
    rewrite (drop_S _ _ _ Hp) in *. simpl in Hall.
    apply Forall_cons in Hall as [Hprint Hall].
    cbn [save_loop block_of mbind outcome_bind].
    rewrite (array_get_nat _ _ _ Hp). cbn [mbind outcome_bind].
    replace (Z.of_nat i + 1) with (Z.of_nat (S i)) by lia.
    destruct p as [|m|]; simpl in Hprint; [| |destruct Hprint].
    + cbn [is_null mbind outcome_bind take occupied].
      apply IH; [lia | exact Hall].
    + destruct Hprint as ([t Ht] & [d Hd]).
      cbn [is_null deref mbind outcome_bind take occupied map].
      unfold save_line. rewrite Ht, Hd. cbn [str_arg mbind outcome_bind].
      rewrite IH by (lia || exact Hall).
      unfold record_line. rewrite Ht, Hd. cbn [default join foldr].
      rewrite append_assoc. reflexivity.
Qed.

Lemma release_titled (n : nat) :
  ∀ (entries : list slot) (i : nat),
    (i + n ≤ length entries)%nat →
    Forall writable (take n (drop i entries)) →
    release n (Some entries) (Z.of_nat i)
    = Done (map Free_movie (occupied (take n (drop i entries)))).
Proof.
  induction n as [|n IH]; intros entries i Hlen Hall; [reflexivity|].
  destruct (lookup_lt_is_Some_2 entries i) as [p Hp]; [lia|].
  rewrite (drop_S _ _ _ Hp) in *. simpl in Hall.
  apply Forall_cons in Hall as [Hprint Hall].
  cbn [release block_of mbind outcome_bind].
  rewrite (array_get_nat _ _ _ Hp). cbn [mbind outcome_bind].
  replace (Z.of_nat i + 1) with (Z.of_nat (S i)) by lia.
  rewrite IH by (lia || exact Hall). cbn [mbind outcome_bind].
  destruct p as [|m|]; simpl in Hprint; [reflexivity | reflexivity |].
  destruct Hprint.
Qed.

Lemma tidy_front (st : catalog) (ms : list Movie) :
  tidy st ms →
  ∃ entries,
    movies st = Some entries ∧
    (Z.to_nat (movie_count st) ≤ length entries)%nat ∧
    take (Z.to_nat (movie_count st)) entries
    = map Ptr ms ++ replicate (Z.to_nat (movie_count st) - length ms) Null ∧
    Forall titled ms.
Proof.
  intros (Hcap & Hcount & _ & entries & Hblock & Hlen & (Hc & Hms & Htake) & Ht).
  exists entries. split; [exact Hblock|]. split; [lia|]. auto.
Qed.

Lemma tidy_save (st : catalog) (ms : list Movie) (old : option string) :
  tidy st ms →
  save_movies_to_file true old (movies st) (movie_count st)
  = Done (Some (join (map record_line ms)), []).
Proof.
  intros Ht. destruct (tidy_front st ms Ht) as (entries & -> & Hlen & Htake & Hms).
  unfold save_movies_to_file. change 0 with (Z.of_nat 0).
  rewrite (save_loop_titled _ entries 0 EmptyString).
  - rewrite drop_0, Htake, occupied_front. reflexivity.
  - lia.
  - rewrite drop_0, Htake. apply writable_front, Hms.
Qed.

Lemma tidy_release (st : catalog) (ms : list Movie) :
  tidy st ms →
  release (Z.to_nat (movie_count st)) (movies st) 0
  = Done (map Free_movie ms).
Proof.
  intros Ht. destruct (tidy_front st ms Ht) as (entries & -> & Hlen & Htake & Hms).
  change 0 with (Z.of_nat 0).
  rewrite (release_titled _ entries 0).
  - rewrite drop_0, Htake, occupied_front. reflexivity.
  - lia.
  - rewrite drop_0, Htake. apply writable_front, Hms.
Qed.

(** X14. Leaving the program: behind the loop the file is written once
    more, whether or not anything changed; with the catalogue in shape it
    then holds exactly the lines of the records, in order. Every record
    block is released, but none of the title and director strings, and
    [main] returns 0. *)
Theorem finish_saves_and_releases (t : turn) (s : session) (ms : list Movie)
    (shown : list trace) :
  tidy (store s) ms → reopened t = true →
  finish t s shown
  = Done (0, Some (join (map record_line ms)),
          shown ++ map Effect (map Free_movie ms)
            ++ [Free_array;
                Effect (Popup "WARNING" ("Exiting Program..." +:+ LF))]).
Proof.
  intros Ht Hopen. unfold finish. rewrite Hopen.
  rewrite (tidy_save _ _ _ Ht). cbn [mbind outcome_bind].
  rewrite (tidy_release _ _ Ht). reflexivity.
Qed.

Lemma finish_saves_and_releases_witness :
  finish (mkTurn [] true fresh 2024 [] [] true true)
         (mkSession (mkCatalog (Some sparse_tail) 3 4) false None) []
  = Done (0, Some (join (map record_line [movie_a; movie_b])),
          [] ++ map Effect (map Free_movie [movie_a; movie_b])
            ++ [Free_array;
                Effect (Popup "WARNING" ("Exiting Program..." +:+ LF))]).
Proof.
  apply (finish_saves_and_releases
           (mkTurn [] true fresh 2024 [] [] true true)
           (mkSession (mkCatalog (Some sparse_tail) 3 4) false None)
           [movie_a; movie_b] []); [|reflexivity].
  split; [simpl; lia|]. split; [simpl; lia|]. split; [simpl; lia|].
  exists sparse_tail. split; [reflexivity|]. split; [reflexivity|].
  split.
  - split; [simpl; lia|]. split; [simpl; lia | reflexivity].
  - repeat constructor; eexists; reflexivity.
Defined.

Lemma laid_out_filled (c0 : nat) (tail : list slot) (ms : list Movie)
    (entries : list slot) (m : Movie) :
  laid_out c0 tail ms entries → (length ms < c0)%nat →
  laid_out c0 tail (ms ++ [m]) (<[length ms := Ptr m]> entries).
Proof.
  intros [Hle ->] Hlt. split; [rewrite length_app; simpl; lia|].
  rewrite length_app. simpl length.
  rewrite insert_app_r_alt by (rewrite length_map; lia).
  rewrite length_map, Nat.sub_diag.
  replace (c0 - length ms)%nat with (S (c0 - (length ms + 1)))%nat by lia.
  change (map Ptr (ms ++ [m])) with (Ptr <$> (ms ++ [m])).
  rewrite fmap_app, <- app_assoc. reflexivity.
Qed.

Lemma laid_out_appended (c0 : nat) (tail : list slot) (ms : list Movie)
    (entries : list slot) (m : Movie) :
  laid_out c0 tail ms entries → length ms = c0 →
  (c0 < length entries)%nat →
  laid_out (S c0) (drop 1 tail) (ms ++ [m]) (<[c0 := Ptr m]> entries).
Proof.
  intros [Hle ->] Heq Hlen. split; [rewrite length_app; simpl; lia|].
  rewrite !length_app, length_map, length_replicate in Hlen.
  rewrite length_app. simpl length.
  replace (c0 - length ms)%nat with 0%nat by lia.
  replace (S c0 - (length ms + 1))%nat with 0%nat by lia.
  simpl replicate. simpl app at 2 4.
  destruct tail as [|x tail]; [simpl in Hlen; lia|].
  rewrite insert_app_r_alt by (rewrite length_map; lia).
  rewrite length_map, <- Heq, Nat.sub_diag.
  change (map Ptr (ms ++ [m])) with (Ptr <$> (ms ++ [m])).
  rewrite fmap_app, <- app_assoc. reflexivity.
Qed.

Lemma tidy_laid_out (st : catalog) (ms : list Movie) :
  tidy st ms →
  ∃ entries,
    movies st = Some entries ∧
    Z.of_nat (length entries) = movie_capacity st ∧
    laid_out (Z.to_nat (movie_count st))
             (drop (Z.to_nat (movie_count st)) entries) ms entries ∧
    Forall titled ms ∧ 0 ≤ movie_count st.
Proof.
  intros (Hcap & Hcount & _ & entries & Hblock & Hlen & Hp & Ht).
  exists entries. split; [exact Hblock|]. split; [exact Hlen|].
  split; [apply packed_laid_out, Hp|]. split; [exact Ht|].
  destruct Hp as (? & _). lia.
Qed.

Lemma laid_out_tidy (entries tail : list slot) (count capacity : Z)
    (ms : list Movie) :
  laid_out (Z.to_nat count) tail ms entries → Forall titled ms →
  Z.of_nat (length entries) = capacity →
  0 ≤ count ≤ capacity → 0 < capacity →
  capacity ≤ Z.max 10 (2 * count) →
  tidy (mkCatalog (Some entries) count capacity) ms.
Proof.
  intros Hl Ht Hlen Hcount Hcap Hbound.
  split; [exact Hcap|]. split; [simpl; lia|]. split; [exact Hbound|].
  exists entries. split; [reflexivity|]. split; [exact Hlen|].
  split; [|exact Ht].
  destruct (laid_out_packed _ _ _ _ Hl) as [Hp _].
  simpl. replace (Z.of_nat (Z.to_nat count)) with count in Hp by lia.
  exact Hp.
Qed.

Lemma tidy_grown (st : catalog) (ms : list Movie) (entries : list slot) :
  tidy st ms → movies st = Some entries →
  movie_count st = movie_capacity st →
  tidy (mkCatalog (Some (resize (Z.to_nat (2 * movie_capacity st)) Wild entries))
                  (movie_count st) (2 * movie_capacity st)) ms.
Proof.
  intros (Hcap & Hcount & Hbound & e & Hblock & Hlen & Hp & Ht) Hb Hfull.
  rewrite Hb in Hblock. injection Hblock as <-.
  split; [cbn [movie_capacity]; lia|].
  split; [cbn [movie_capacity movie_count]; lia|].
  split; [cbn [movie_capacity movie_count]; lia|].
  eexists. split; [reflexivity|].
  split; [cbn [movie_capacity]; rewrite length_resize; lia|].
  split; [|exact Ht]. cbn [movie_count].
  destruct Hp as (Hc & Hms & Htake).
  split; [rewrite length_resize; lia|]. split; [exact Hms|].
  rewrite take_resize_le by lia. rewrite resize_le by lia. exact Htake.
Qed.

Lemma insert_tidy (h : heap) (t d : string) (y : Z) (st : catalog)
    (ms : list Movie) :
  tidy st ms → movie_count st < movie_capacity st →
  movie_count st + 1 ≤ INT_MAX →
  ∃ st' said,
    insert_movie h t d y st = Done (st', said) ∧
    match fst (create_movie h (Some t) (Some d) y) with
    | None => st' = st
    | Some m =>
        tidy st' (ms ++ [m]) ∧
        movie_count st'
        = (if decide (Z.of_nat (length ms) < movie_count st)
           then movie_count st else movie_count st + 1)
    end.
Proof.
  intros Ht Hroom Hmax.
  destruct (tidy_laid_out st ms Ht) as (entries & Hblock & Hlen & Hl & Hms & Hc).
  destruct Ht as (Hcap & Hcount & Hbound & _).
  set (c0 := Z.to_nat (movie_count st)) in *.
  set (tail := drop c0 entries) in *.
  destruct (insert_movie_step h t d y st entries Hblock)
    as (st' & said & Hrun & Hres); [lia | lia | |].
  { intros j Hj.
    destruct (laid_out_cell c0 tail ms entries j Hl Hj)
      as [(m' & _ & ->)|[_ ->]]; discriminate. }
  exists st', said. split; [exact Hrun|].
  destruct (fst (create_movie h (Some t) (Some d) y)) as [m|] eqn:Hnew;
    [|exact Hres].
  apply create_movie_Some in Hnew
    as (t' & d' & blk & _ & _ & _ & _ & _ & _ & Hm).
  assert (Htm : titled m) by (rewrite Hm; split; eexists; reflexivity).
  assert (Hms' : Forall titled (ms ++ [m])).
  { apply Forall_app. split; [exact Hms | repeat constructor; apply Htm]. }
  destruct Hl as [Hle Heq]. pose proof (conj Hle Heq) as Hl.
  destruct Hres as [(k & (Hk & Hnull & Hlow) & ->)|(Hnone & ->)].
  - assert (Hkm : k = length ms).
    { destruct (Nat.lt_trichotomy k (length ms)) as [Hlt|[He|Hgt]];
        [|exact He|].
      - destruct (lookup_lt_is_Some_2 ms k Hlt) as [m' Hm'].
        rewrite (laid_out_record _ _ _ _ _ _ Hl Hm') in Hnull. discriminate.
      - exfalso. apply (Hlow (length ms) Hgt).
        eapply laid_out_empty; [exact Hl|]. lia. }
    subst k. split; [|simpl; destruct (decide _); lia].
    eapply laid_out_tidy; try eassumption.
    + replace (Z.to_nat (movie_count st)) with c0 by reflexivity.
      apply laid_out_filled; [exact Hl | lia].
    + rewrite length_insert. exact Hlen.
    + lia.
  - assert (Hfull : length ms = c0).
    { destruct (decide (length ms = c0)) as [|Hne]; [assumption|].
      exfalso. apply (Hnone (length ms)); [lia|].
      eapply laid_out_empty; [exact Hl|]. lia. }
    split; [|simpl; destruct (decide _); lia].
    eapply laid_out_tidy; try eassumption.
    + replace (Z.to_nat (movie_count st + 1)) with (S c0) by lia.
      apply laid_out_appended; [exact Hl | exact Hfull | lia].
    + rewrite length_insert. exact Hlen.
    + lia.
    + lia.
Qed.

Lemma case_add_step (t : turn) (s : session) (ms : list Movie)
    (entered : option (string * string * Z)) (shown : list written) :
  tidy (store s) ms → granted t = true →
  2 * movie_count (store s) + 2 ≤ INT_MAX →
  input_loop (current_year t) (typed t) None None [] = Done (entered, shown) →
  match entered with
  | None => case_add t s = Done None
  | Some (title, director, year) =>
      ∃ st' said,
        case_add t s
        = Done (Some (mkSession st' true (disk s),
                      map Dialog shown ++ map Effect said)) ∧
        match fst (create_movie (allocator t) (Some title) (Some director) year)
        with
        | None => tidy st' ms ∧ movie_count st' = movie_count (store s)
        | Some m =>
            tidy st' (ms ++ [m]) ∧
            movie_count st'
            = (if decide (Z.of_nat (length ms) < movie_count (store s))
               then movie_count (store s) else movie_count (store s) + 1)
        end
  end.
Proof.
  intros Ht Hgrant Hmax Hdialog.
  pose proof Ht as (Hcap & Hcount & Hbound & entries & Hblock & Hlen & Hp & Hms).
  assert (Hc : 0 ≤ movie_count (store s)) by (destruct Hp as (? & _); lia).
  unfold case_add. rewrite Hgrant, Hblock. cbn [default].
  assert (Hstep : ∀ st, tidy st ms → movie_count st = movie_count (store s) →
    movie_count st < movie_capacity st →
    match entered with
    | None =>
        ('(entered, shown) ← input_loop (current_year t) (typed t) None None [];
         match entered with
         | Some (title, director, year) =>
             '(st, said) ← insert_movie (allocator t) title director year st;
             Done (Some (mkSession st true (disk s),
                         map Dialog shown ++ map Effect said))
         | None => Done None
         end) = Done None
    | Some (title, director, year) =>
        ∃ st' said,
          ('(entered, shown) ← input_loop (current_year t) (typed t) None None [];
           match entered with
           | Some (title, director, year) =>
               '(st, said) ← insert_movie (allocator t) title director year st;
               Done (Some (mkSession st true (disk s),
                           map Dialog shown ++ map Effect said))
           | None => Done None
           end)
          = Done (Some (mkSession st' true (disk s),
                        map Dialog shown ++ map Effect said)) ∧
          match fst (create_movie (allocator t) (Some title) (Some director) year)
          with
          | None => tidy st' ms ∧ movie_count st' = movie_count (store s)
          | Some m =>
              tidy st' (ms ++ [m]) ∧
              movie_count st'
              = (if decide (Z.of_nat (length ms) < movie_count (store s))
                 then movie_count (store s) else movie_count (store s) + 1)
          end
    end).
  { intros st Hst Hsame Hroom. rewrite Hdialog. cbn [mbind outcome_bind].
    destruct entered as [[[title director] year]|]; [|reflexivity].
    destruct (insert_tidy (allocator t) title director year st ms Hst Hroom)
      as (st' & said & Hrun & Hres); [lia|].
    exists st', said. rewrite Hrun. cbn [mbind outcome_bind].
    split; [reflexivity|].
    destruct (fst (create_movie _ _ _ _)) as [m|].
    - rewrite <- Hsame. exact Hres.
    - subst st'. auto. }
  destruct (decide (movie_count (store s) = movie_capacity (store s)))
    as [Hfull|Hroom].
  - rewrite resize_entries_granted by lia. cbn [mbind outcome_bind].
    apply Hstep; [apply tidy_grown; assumption | reflexivity |].
    cbn [movie_count movie_capacity]. lia.
  - cbn [mbind outcome_bind]. apply Hstep; [exact Ht | reflexivity | lia].
Qed.

(** X16. Where a new record goes: with the catalogue in shape, the
    reallocation (if one is needed) and the allocations of [create_movie]
    granted, the add case builds a record with the title, director and
    year that left the dialog and puts it directly behind the last record:
    into the first empty cell when the count is ahead of the records, as it
    is after a deletion in the list view, with the count unchanged, and
    else into cell [count], with the count increased. *)
Theorem add_puts_record_last (t : turn) (s : session) (ms : list Movie)
    (title director : string) (year : Z) (shown : list written) :
  tidy (store s) ms → granted t = true → grants (allocator t) →
  2 * movie_count (store s) + 2 ≤ INT_MAX →
  input_loop (current_year t) (typed t) None None []
  = Done (Some (title, director, year), shown) →
  ∃ st' said m,
    case_add t s
    = Done (Some (mkSession st' true (disk s),
                  map Dialog shown ++ map Effect said)) ∧
    tidy st' (ms ++ [m]) ∧
    Rec.title m = Some title ∧ Rec.director m = Some director ∧
    Rec.year m = year ∧
    movie_count st'
    = (if decide (Z.of_nat (length ms) < movie_count (store s))
       then movie_count (store s) else movie_count (store s) + 1).
Proof.
  intros Ht Hgrant ([blk Hblk] & Htc & Hdc) Hmax Hdialog.
  destruct (case_add_step t s ms _ shown Ht Hgrant Hmax Hdialog)
    as (st' & said & Hrun & Hres).
  destruct (DialogFacts.input_loop_invariant _ _ None None [] _ _ _ _ I I
              (λ _, eq_refl) Hdialog) as (_ & _ & Hy).
  assert (Hh : allocator t = mkHeap (Some blk) true true).
  { destruct (allocator t); simpl in *. congruence. }
  rewrite Hh, create_movie_granted in Hres by lia.
  cbn [fst] in Hres. destruct Hres as [Ht' Hcount].
  eexists st', said, _. split; [exact Hrun|]. split; [exact Ht'|].
  repeat split. exact Hcount.
Qed.

Lemma add_puts_record_last_witness :
  ∃ st' said m,
    case_add (mkTurn [] true fresh 2024 [""; "Inception"; "Nolan"; "2010"]
                     [] true true)
             (mkSession (mkCatalog (Some sparse_tail) 3 4) false None)
    = Done (Some (mkSession st' true None,
                  map Dialog [ask_title; blank_title; ask_title;
                              ask_director; ask_year]
                    ++ map Effect said)) ∧
    tidy st' ([movie_a; movie_b] ++ [m]) ∧
    Rec.title m = Some "Inception" ∧ Rec.director m = Some "Nolan" ∧
    Rec.year m = 2010 ∧
    movie_count st'
    = (if decide (Z.of_nat (length [movie_a; movie_b]) < 3) then 3 else 3 + 1).
Proof.
  apply (add_puts_record_last
           (mkTurn [] true fresh 2024 [""; "Inception"; "Nolan"; "2010"]
                   [] true true)
           (mkSession (mkCatalog (Some sparse_tail) 3 4) false None)
           [movie_a; movie_b] "Inception" "Nolan" 2010).
  - split; [simpl; lia|]. split; [simpl; lia|]. split; [simpl; lia|].
    exists sparse_tail. split; [reflexivity|]. split; [reflexivity|].
    split.
    + split; [simpl; lia|]. split; [simpl; lia | reflexivity].
    + repeat constructor; eexists; reflexivity.
  - reflexivity.
  - split; [eexists; reflexivity | split; reflexivity].
  - simpl. unfold INT_MAX. lia.
  - reflexivity.
Defined.

Lemma case_display_tidy (t : turn) (s : session) (ms : list Movie) :
  tidy (store s) ms → movie_count (store s) + 5 ≤ INT_MAX →
  ∃ r, case_display t s = Done r ∧
       ∀ s' more, r = Some (s', more) →
         ∃ ms', tidy (store s') ms' ∧ thinned ms ms' ∧
                movie_count (store s') = movie_count (store s) ∧
                disk s' = disk s ∧
                (length ms ≤ length ms' + confirmed (list_keys t))%nat.
Proof.
  intros Ht Hmax.
  destruct (tidy_laid_out _ _ Ht) as (entries & Hblock & Hlen & Hl & Hms & Hc).
  pose proof Ht as (Hcap & Hcount & Hbound & _).
  unfold case_display.
  destruct (decide (movie_count (store s) = 0)).
  { eexists. split; [reflexivity|]. intros s' more [= <- _].
    exists ms. split; [exact Ht|]. split; [apply thinned_refl|].
    split; [reflexivity|]. split; [reflexivity | lia]. }
  rewrite Hblock. unfold display_movie_list_ui.
  set (c0 := Z.to_nat (movie_count (store s))) in *.
  set (tail := drop c0 entries) in *.
  assert (Hv : steady c0 tail ms
                 (mkView entries (movie_count (store s)) 0 0 false)).
  { split; [exact Hl|]. split; [exact Hms|]. destruct Hl as [Hle _].
    simpl. lia. }
  destruct (view_loop_steady c0 tail ltac:(lia) (list_keys t) _ [] ms Hv)
    as (r & Hrun & Hres).
  rewrite Hrun. cbn [mbind outcome_bind].
  destruct r as [[cells' shown]|].
  - eexists. split; [reflexivity|]. intros s' more [= <- _].
    destruct (Hres cells' shown eq_refl) as (ms' & Hl' & Ht' & Hthin & Hless).
    exists ms'. split; [|auto].
    cbn [store].
    eapply laid_out_tidy; try eassumption; [|lia].
    rewrite (laid_out_length _ _ _ _ Hl'), <- (laid_out_length _ _ _ _ Hl).
    exact Hlen.
  - eexists. split; [reflexivity | discriminate].
Qed.

Lemma case_exit_tidy (t : turn) (s : session) :
  (∃ ms, tidy (store s) ms) →
  ∃ s' more, case_exit t s = Done (s', more) ∧ store s' = store s.
Proof.
  intros [ms Ht]. unfold case_exit. destruct (data_changed s); [|eauto].
  destruct (opened t).
  - rewrite (tidy_save _ _ _ Ht). cbn [mbind outcome_bind]. eauto.
  - cbn [save_movies_to_file mbind outcome_bind]. eauto.
Qed.

Lemma chooses_once (t : turn) (choice : Z) (drawn : list drawn)
    (o o' : MenuOption) :
  main_menu (menu_keys t) = Some (choice, drawn) →
  menu_option choice = Some o → chooses t o' → o' = o.
Proof.
  intros Hmenu Hopt (choice' & drawn' & Hmenu' & Hopt').
  rewrite Hmenu in Hmenu'. injection Hmenu' as <- <-. congruence.
Qed.

Lemma chooses_none (t : turn) (choice : Z) (drawn : list drawn)
    (o : MenuOption) :
  main_menu (menu_keys t) = Some (choice, drawn) →
  menu_option choice = None → ¬ chooses t o.
Proof.
  intros Hmenu Hopt (choice' & drawn' & Hmenu' & Hopt').
  rewrite Hmenu in Hmenu'. injection Hmenu' as <- <-. congruence.
Qed.

Lemma main_loop_tidy (turns : list turn) :
  ∀ (s : session) (shown : list trace) (ms : list Movie),
    tidy (store s) ms → Forall sound turns →
    2 * (movie_count (store s) + Z.of_nat (length turns)) + 5 ≤ INT_MAX →
    ∃ r, main_loop turns s shown = Done r ∧
         ∀ status file out,
           r = Some (status, file, out) →
           status = 0 ∧
           ∃ ms', follows turns ms ms' ∧
                  file = Some (join (map record_line ms')).
Proof.
  induction turns as [|t turns IH]; intros s shown ms Ht Hturns Hmax.
  { eexists. split; [reflexivity | discriminate]. }
  apply Forall_cons in Hturns as [(Hgrant & Hopen & [[entered asked] Hdialog]) Hturns].
  assert (Hc : 0 ≤ movie_count (store s)).
  { destruct Ht as (_ & _ & _ & e & _ & _ & (? & _) & _). lia. }
  simpl length in Hmax.
  cbn [main_loop].
  destruct (main_menu (menu_keys t)) as [[choice drawn]|] eqn:Hmenu;
    [|eexists; split; [reflexivity | discriminate]].
  assert (Hother : ∀ o, menu_option choice = Some o →
            o = MENU_TV_SERIES_ADD ∨ o = MENU_TV_SERIES_DISPLAY →
            ∀ shown',
            ∃ r, main_loop turns s shown' = Done r ∧
                 ∀ status file out,
                   r = Some (status, file, out) →
                   status = 0 ∧
                   ∃ ms', follows (t :: turns) ms ms' ∧
                          file = Some (join (map record_line ms'))).
  { intros o Hopt Ho shown'.
    destruct (IH s shown' ms Ht Hturns) as (r & Hrun & Hres); [lia|].
    exists r. split; [exact Hrun|].
    intros status file out Heq.
    destruct (Hres status file out Heq) as (Hst & ms' & Hev & Hfile).
    split; [exact Hst|]. exists ms'. split; [|exact Hfile].
    apply follows_other; [| | |exact Hev];
      intros Hch; pose proof (chooses_once t choice drawn o _ Hmenu Hopt Hch);
      destruct Ho; congruence. }
  destruct (menu_option choice) as [[| | | |]|] eqn:Hopt.
  - assert (Hch : chooses t MENU_MOVIE_ADD) by (exists choice, drawn; auto).
    pose proof (case_add_step t s ms entered asked Ht Hgrant ltac:(lia) Hdialog)
      as Hadd.
    destruct entered as [[[title director] year]|].
    + destruct Hadd as (st' & said & -> & Hres).
      cbn [mbind outcome_bind].
      destruct (DialogFacts.input_loop_invariant _ _ None None [] _ _ _ _ I I
                  (λ _, eq_refl) Hdialog) as (_ & _ & Hy).
      destruct (fst (create_movie _ _ _ _)) as [m|] eqn:Hnew.
      * destruct Hres as [Ht' Hcount'].
        destruct (IH (mkSession st' true (disk s))
                     ((shown ++ map Menu drawn)
                        ++ map Dialog asked ++ map Effect said)
                     (ms ++ [m]) Ht' Hturns) as (r & Hrun & Hres).
        { cbn [store]. destruct (decide _); lia. }
        exists r. split; [exact Hrun|].
        intros status file out Heq.
        destruct (Hres status file out Heq) as (Hst & ms' & Hev & Hfile).
        split; [exact Hst|]. exists ms'. split; [|exact Hfile].
        apply create_movie_Some in Hnew
          as (t' & d' & blk & [= <-] & [= <-] & _ & Hblk & Htc & Hdc & ->).
        apply (follows_add t turns ms ms'
                 (mkMovie (Some title) (Some director) year (rating blk))
                 title director year asked);
          [exact Hch | exact Hdialog | | reflexivity | reflexivity
           | reflexivity | exact Hev].
        split; [eexists; exact Hblk | auto].
      * destruct Hres as [Ht' Hcount'].
        destruct (IH (mkSession st' true (disk s))
                     ((shown ++ map Menu drawn)
                        ++ map Dialog asked ++ map Effect said)
                     ms Ht' Hturns) as (r & Hrun & Hres).
        { cbn [store]. lia. }
        exists r. split; [exact Hrun|].
        intros status file out Heq.
        destruct (Hres status file out Heq) as (Hst & ms' & Hev & Hfile).
        split; [exact Hst|]. exists ms'. split; [|exact Hfile].
        apply follows_add_refused; [exact Hch | | exact Hev].
        intros ([blk Hblk] & Htc & Hdc).
        assert (Hh : allocator t = mkHeap (Some blk) true true).
        { destruct (allocator t); simpl in *. congruence. }
        rewrite Hh, create_movie_granted in Hnew by lia. discriminate.
    + rewrite Hadd. cbn [mbind outcome_bind].
      eexists. split; [reflexivity | discriminate].
  - assert (Hch : chooses t MENU_MOVIE_DISPLAY) by (exists choice, drawn; auto).
    destruct (case_display_tidy t s ms Ht ltac:(lia)) as (r & -> & Hr).
    cbn [mbind outcome_bind]. destruct r as [[s' more]|];
      [|eexists; split; [reflexivity | discriminate]].
    destruct (Hr s' more eq_refl) as (ms1 & Ht' & Hthin & Hcount' & _ & Hless).
    destruct (IH s' ((shown ++ map Menu drawn) ++ more) ms1 Ht' Hturns)
      as (r & Hrun & Hres); [lia|].
    exists r. split; [exact Hrun|].
    intros status file out Heq.
    destruct (Hres status file out Heq) as (Hst & ms' & Hev & Hfile).
    split; [exact Hst|]. exists ms'. split; [|exact Hfile].
    eapply follows_display; eassumption.
  - apply (Hother MENU_TV_SERIES_ADD eq_refl); auto.
  - apply (Hother MENU_TV_SERIES_DISPLAY eq_refl); auto.
  - assert (Hch : chooses t MENU_EXIT) by (exists choice, drawn; auto).
    destruct (case_exit_tidy t s (ex_intro _ ms Ht)) as (s' & more & -> & Hstore).
    cbn [mbind outcome_bind].
    assert (Ht' : tidy (store s') ms) by (rewrite Hstore; exact Ht).
    unfold finish. rewrite Hopen.
    rewrite (tidy_save _ _ _ Ht'). cbn [mbind outcome_bind].
    rewrite (tidy_release _ _ Ht'). cbn [mbind outcome_bind].
    eexists. split; [reflexivity|].
    intros status file out [= <- <- _].
    split; [reflexivity|]. exists ms.
    split; [apply follows_exit, Hch | reflexivity].
  - destruct (IH s (shown ++ map Menu drawn
                      ++ [Ui_print_error "Invalid choice, please try again."])
                 ms Ht Hturns) as (r & Hrun & Hres); [lia|].
    rewrite app_assoc in Hrun.
    exists r. split; [exact Hrun|].
    intros status file out Heq.
    destruct (Hres status file out Heq) as (Hst & ms' & Hev & Hfile).
    split; [exact Hst|]. exists ms'. split; [|exact Hfile].
    apply follows_other; [| | |exact Hev];
      apply (chooses_none t choice drawn _ Hmenu Hopt).
Qed.

Lemma load_tidy (file : option string) (ms0 : list Movie)
    (env : nat → line_heap) :
  holds file ms0 → Forall storable ms0 →
  (∀ j, line_granted (env j) = true ∧ grants (line_block (env j))) →
  2 * Z.of_nat (length ms0) ≤ INT_MAX →
  ∃ st said loaded,
    load_movies_from_file file env (initial 10) = Done (st, said) ∧
    tidy st loaded ∧ Forall2 same_fields ms0 loaded ∧
    movie_count st = Z.of_nat (length ms0).
Proof.
  intros Hfile Hms Henv Hmax. destruct file as [text|]; simpl in Hfile.
  - subst text.
    destruct (load_loop_records ms0
                (String.length (join (map record_line ms0))) env O
                (initial 10) (replicate (Z.to_nat 10) Wild) Hms Henv)
      as (st & e' & loaded & Hrun & Hwf & Hblock & Hc & Htake & Hsame & Hcapb).
    { apply initial_well_formed. lia. }
    { reflexivity. }
    { simpl. lia. }
    { lia. }
    exists st, [], loaded. split; [exact Hrun|].
    simpl in Hc, Htake, Hcapb.
    assert (Hl : length loaded = length ms0).
    { symmetry. eapply Forall2_length. exact Hsame. }
    assert (Hfields : Forall2 same_fields ms0 loaded).
    { eapply Forall2_impl; [exact Hsame|]. intros ? ? [? _]. assumption. }
    split; [|split; [exact Hfields | exact Hc]].
    destruct Hwf as (Hcap & Hcount & e0 & Hblock0 & Hlen & _).
    rewrite Hblock in Hblock0. injection Hblock0 as <-.
    split; [exact Hcap|]. split; [lia|]. split; [lia|].
    exists e'. split; [exact Hblock|]. split; [exact Hlen|]. split.
    + split; [lia|]. split; [lia|]. rewrite Htake.
      replace (Z.to_nat (movie_count st) - length loaded)%nat with 0%nat by lia.
      rewrite app_nil_r. reflexivity.
    + clear -Hms Hfields.
      induction Hfields as [|m m' ms loaded (Ht & Hd & _) _ IH]; [constructor|].
      apply Forall_cons in Hms as [(t & d & Ht0 & Hd0 & _) Hms].
      constructor; [|apply IH, Hms].
      unfold titled. rewrite Ht, Hd, Ht0, Hd0. eauto.
  - subst ms0. exists (initial 10). eexists. exists []. split; [reflexivity|].
    split; [|split; [constructor | reflexivity]].
    split; [simpl; lia|]. split; [simpl; lia|]. split; [simpl; lia|].
    eexists. split; [reflexivity|]. split; [reflexivity|].
    split; [|constructor].
    split; [simpl; lia|]. split; [simpl; lia | reflexivity].
Qed.

(** X15. A whole run of the program. Started on no file or on a file of
    well-formed lines, with every reallocation granted, the file writable
    at the end and no dialog entry longer than its buffer, [main] never
    faults, whatever is chosen in the menu and typed in the dialog and in
    the list view; when it returns, it returns 0, and the file holds
    exactly the lines of the list of records that the passes make of the
    records read at the start: every pass through the add case puts the
    record with the title, director and year accepted by its dialog behind
    the last (none when the allocator refuses), every pass through the
    list view may rate records anew and takes out at most as many records
    as deletions were confirmed in it, and no other pass changes the
    list. *)
Theorem main_session (file : option string) (ms0 : list Movie)
    (env : nat → line_heap) (turns : list turn) :
  holds file ms0 → Forall storable ms0 →
  (∀ j, line_granted (env j) = true ∧ grants (line_block (env j))) →
  Forall sound turns →
  2 * (Z.of_nat (length ms0) + Z.of_nat (length turns)) + 5 ≤ INT_MAX →
  ∃ r,
    main true file env turns = Done r ∧
    ∀ status file' shown,
      r = Some (status, file', shown) →
      status = 0 ∧
      ∃ loaded ms',
        Forall2 same_fields ms0 loaded ∧ follows turns loaded ms' ∧
        file' = Some (join (map record_line ms')).
Proof.
  intros Hfile Hms Henv Hturns Hmax.
  destruct (load_tidy file ms0 env Hfile Hms Henv ltac:(lia))
    as (st & said & loaded & Hload & Ht & Hsame & Hcount).
  unfold main. rewrite Hload. cbn [mbind outcome_bind].
  destruct (main_loop_tidy turns (mkSession st false file) (map Effect said)
              loaded Ht Hturns) as (r & Hrun & Hres).
  { cbn [store]. lia. }
  exists r. split; [exact Hrun|].
  intros status file' shown Heq.
  destruct (Hres status file' shown Heq) as (Hst & ms' & Hev & Hfile').
  split; [exact Hst|]. exists loaded, ms'. auto.
Qed.

Lemma main_session_witness :
  ∃ r,
    main true (Some (join (map record_line [movie_b]))) calm
      [mkTurn [10] true fresh 2024 ["Inception"; "Nolan"; "2010"] [] true true;
       mkTurn [KEY_DOWN; 10] true fresh 2024 []
              [mkPress (chr "d") [chr "y"]; mkPress (chr "q") []] true true;
       mkTurn [KEY_UP; 10] true fresh 2024 [] [] true true] = Done r ∧
    ∀ status file' shown,
      r = Some (status, file', shown) →
      status = 0 ∧
      ∃ loaded ms',
        Forall2 same_fields [movie_b] loaded ∧
        follows
          [mkTurn [10] true fresh 2024 ["Inception"; "Nolan"; "2010"] []
                  true true;
           mkTurn [KEY_DOWN; 10] true fresh 2024 []
                  [mkPress (chr "d") [chr "y"]; mkPress (chr "q") []] true true;
           mkTurn [KEY_UP; 10] true fresh 2024 [] [] true true]
          loaded ms' ∧
        file' = Some (join (map record_line ms')).
Proof.
  apply (main_session (Some (join (map record_line [movie_b]))) [movie_b] calm).
  - reflexivity.
  - repeat constructor.
    exists "B"%string, "b"%string. repeat split; simpl; try lia.
    unfold INT_MAX. lia.
  - intros j. split; [reflexivity|]. split; [eexists; reflexivity|].
    split; reflexivity.
  - repeat constructor; eexists; reflexivity.
  - simpl. unfold INT_MAX. lia.
Defined.

(** The run of the witness: a record is added behind the one read from the
    file, the first record is deleted in the list view, and the program is
    left; the file then holds the new record alone. *)
Example session_add_delete_exit :
  ∃ shown,
    main true (Some (join (map record_line [movie_b]))) calm
      [mkTurn [10] true fresh 2024 ["Inception"; "Nolan"; "2010"] [] true true;
       mkTurn [KEY_DOWN; 10] true fresh 2024 []
              [mkPress (chr "d") [chr "y"]; mkPress (chr "q") []] true true;
       mkTurn [KEY_UP; 10] true fresh 2024 [] [] true true]
    = Done (Some (0, Some ("Inception|Nolan|2010|0.0" +:+ LF), shown)).
Proof. eexists. vm_compute. reflexivity. Qed.

End ProgramFacts.

(** ** Updating a record *)

Module UpdateFacts.

(** X18. [update_movie] does not check its two [strdup] calls: when one of
    them fails it still releases the old strings, stores the null pointer
    and reports [MOVIE_SUCCESS]; printing the record with [display_movie]
    or writing it with [save_movies_to_file] then hands a null pointer to
    [%s]. *)
Theorem update_hides_failed_copy (title_copy director_copy : bool)
    (m : Movie) (t d : string) (y : Z) :
  0 < y → title_copy = false ∨ director_copy = false →
  ∃ m',
    update_movie title_copy director_copy (Some m) (Some t) (Some d) y
    = (MOVIE_SUCCESS, Some m', [Free_str (title m); Free_str (director m)]) ∧
    title m' = strdup title_copy t ∧ director m' = strdup director_copy d ∧
    display_movie (Some m') = Undef ∧ save_line m' = Undef.
Proof.
  intros Hy Hfail. unfold update_movie.
  destruct (decide (y ≤ 0)); [lia|].
  eexists. split; [reflexivity|].
  split; [reflexivity|]. split; [reflexivity|].
  unfold display_movie, save_line.
  destruct title_copy, director_copy, Hfail; try discriminate; split; reflexivity.
Qed.

Lemma update_hides_failed_copy_witness :
  ∃ m',
    update_movie true false (Some inception) (Some "Tenet") (Some "Nolan") 2020
    = (MOVIE_SUCCESS, Some m',
       [Free_str (title inception); Free_str (director inception)]) ∧
    title m' = strdup true "Tenet" ∧ director m' = strdup false "Nolan" ∧
    display_movie (Some m') = Undef ∧ save_line m' = Undef.
Proof.
  apply (update_hides_failed_copy true false inception "Tenet" "Nolan" 2020).
  - lia.
  - right. reflexivity.
Defined.

End UpdateFacts.

(** ** The popup window *)

Module PopupFacts.

Import LoadFacts.

Lemma strchr_Some (s : string) (c : ascii) :
  ∀ k, strchr s c = Some k →
       (k < String.length s)%nat ∧
       String.length (behind (S k) s) = (String.length s - S k)%nat.
Proof.
  induction s as [|a s IH]; intros k; simpl; [discriminate|].
  destruct (Ascii.eqb a c).
  - intros [= <-]. split; [lia|]. destruct s; simpl; lia.
  - destruct (strchr s c) as [j|]; [|discriminate].
    intros [= <-]. destruct (IH j eq_refl) as [Hj Hlen].
    split; [lia|]. exact Hlen.
Qed.

Lemma prefix_length (k : nat) :
  ∀ s, String.length (prefix k s) = Nat.min k (String.length s).
Proof.
  induction k as [|k IH]; intros s; [reflexivity|].
  destruct s as [|a s]; [reflexivity|]. simpl. rewrite IH. reflexivity.
Qed.

(** Every pass of the loop moves on by at least one character: more
    iterations than the message has characters change nothing. *)
Lemma wrap_loop_enough (n : nat) :
  ∀ (m : nat) (s : string) (line column width : Z) (shown : list placed),
    (String.length s < n)%nat → (String.length s < m)%nat →
    wrap_loop n s line column width shown
    = wrap_loop m s line column width shown.
Proof.
  induction n as [|n IH]; intros m s line column width shown Hn Hm; [lia|].
  destruct m as [|m]; [lia|]. cbn [wrap_loop].
  destruct (strchr s " ") as [k|] eqn:Hnext; [|reflexivity].
  destruct (strchr_Some s " " k Hnext) as [Hk Hrest].
  rewrite bool_decide_eq_false_2 by discriminate. cbn [andb].
  destruct (decide (column + Z.of_nat k < width)); apply IH; lia.
Qed.

Section Fits.

Variables (total width first : Z).
Hypothesis Htotal : 1 ≤ total.
Hypothesis Hwidth : total + 6 ≤ width.
Hypothesis Hfirst : 1 ≤ first ≤ 3.

(** Between two passes of the loop: on the first line the column tells
    how much of the message has been placed; later every new line costs a
    character of what is left, of which there are at most two. *)
Lemma wrap_loop_inside (n : nat) :
  ∀ (s : string) (line column : Z) (shown : list placed),
    strlen s ≤ total → 3 ≤ column →
    (line = first ∧ column = 3 + total - strlen s)
    ∨ (first < line ∧ line - first + strlen s ≤ 3) →
    Forall (inside 8 width first) shown →
    Forall (inside 8 width first) (wrap_loop n s line column total shown).
Proof.
  induction n as [|n IH]; intros s line column shown Hs Hcol Hinv Hshown;
    [exact Hshown|].
  cbn [wrap_loop]. unfold POPUP_MARGIN.
  destruct (strchr s " ") as [k|] eqn:Hnext.
  - cbn [bool_decide andb]. rewrite bool_decide_eq_false_2 by discriminate.
    cbn [andb].
    destruct (strchr_Some s " " k Hnext) as [Hk Hrest].
    assert (Hr : strlen (behind (S k) s) = strlen s - Z.of_nat k - 1).
    { unfold strlen. rewrite Hrest. lia. }
    assert (Htext : strlen (prefix (Z.to_nat (Z.of_nat k)) s) = Z.of_nat k).
    { unfold strlen. rewrite prefix_length. lia. }
    unfold strlen in Hs, Hinv.
    destruct (decide (column + Z.of_nat k < total)).
    + apply IH.
      * rewrite Hr. unfold strlen. lia.
      * lia.
      * rewrite Hr. unfold strlen. destruct Hinv as [[-> ->]|[Hl Hb]]; [left|right]; lia.
      * apply Forall_app. split; [exact Hshown|].
        repeat constructor; destruct Hinv as [[-> ->]|[Hl Hb]]; lia.
    + apply IH.
      * rewrite Hr. unfold strlen. lia.
      * lia.
      * rewrite Hr. unfold strlen. right.
        destruct Hinv as [[-> ->]|[Hl Hb]]; lia.
      * apply Forall_app. split; [exact Hshown|].
        assert (Hlen : strlen (prefix (Z.to_nat (Z.of_nat k)) s +:+ " ")
                       = Z.of_nat k + 1).
        { unfold strlen in *. rewrite length_append. simpl. lia. }
        repeat constructor; try rewrite Hlen;
          destruct Hinv as [[-> ->]|[Hl Hb]]; lia.
  - rewrite bool_decide_eq_true_2 by reflexivity. cbn [andb].
    destruct (bool_decide (strlen s ≤ 0)) eqn:Hempty; [exact Hshown|].
    apply bool_decide_eq_false in Hempty.
    assert (Htext : strlen (prefix (Z.to_nat (strlen s)) s) = strlen s).
    { unfold strlen. rewrite prefix_length. lia. }
    unfold strlen in Hs, Hinv, Hempty.
    destruct (decide (column + strlen s < total)); cbv beta iota zeta.
    + apply Forall_app. split; [exact Hshown|].
      constructor; [|constructor]. unfold inside, strlen in *.
      destruct Hinv as [[-> ->]|[Hl Hb]]; lia.
    + apply Forall_app. split; [exact Hshown|].
      assert (Hlen : strlen (prefix (Z.to_nat (strlen s)) s +:+ " ")
                     = strlen s + 1).
      { unfold strlen in *. rewrite length_append. simpl. lia. }
      constructor; [|constructor]. unfold inside. rewrite Hlen.
      unfold strlen in *.
      destruct Hinv as [[-> ->]|[Hl Hb]]; lia.
Qed.

End Fits.

Lemma words_blank (s : string) :
  ∀ k, strchr s " " = Some k →
       words s = prefix k s :: words (behind (S k) s).
Proof.
  induction s as [|c s IH]; intros k; simpl; [discriminate|].
  destruct (Ascii.eqb c " ").
  - intros [= <-]. destruct s; reflexivity.
  - destruct (strchr s " ") as [j|]; [|discriminate].
    intros [= <-]. rewrite (IH j eq_refl). reflexivity.
Qed.

Lemma words_single (s : string) :
  strchr s " " = None → s ≠ EmptyString → words s = [s].
Proof.
  induction s as [|c s IH]; intros Hnone Hne; [congruence|].
  simpl in *. destruct (Ascii.eqb c " "); [discriminate|].
  destruct (strchr s " ") as [j|]; [discriminate|].
  destruct s as [|c' s]; [reflexivity|].
  rewrite IH by (reflexivity || discriminate). reflexivity.
Qed.

Lemma prefix_all (s : string) : prefix (String.length s) s = s.
Proof. induction s as [|c s IH]; simpl; [reflexivity | f_equal; exact IH]. Qed.

(** The loop sets out the words of the message, one after the other. *)
Lemma wrap_loop_words (n : nat) :
  ∀ (s : string) (line column width : Z) (shown : list placed),
    (String.length s < n)%nat →
    ∃ more,
      wrap_loop n s line column width shown = shown ++ more ∧
      set_out width line column more (words s).
Proof.
  induction n as [|n IH]; intros s line column width shown Hn; [lia|].
  cbn [wrap_loop].
  destruct (strchr s " ") as [k|] eqn:Hnext.
  - rewrite bool_decide_eq_false_2 by discriminate. cbn [andb].
    destruct (strchr_Some s " " k Hnext) as [Hk Hrest].
    rewrite Nat2Z.id, (words_blank s k Hnext).
    assert (Hw : strlen (prefix k s) = Z.of_nat k).
    { unfold strlen. rewrite prefix_length. lia. }
    destruct (decide (column + Z.of_nat k < width)).
    + destruct (IH (behind (S k) s) line (column + (Z.of_nat k + 1)) width
                   (shown ++ [At line column (prefix k s)]))
        as (more & -> & Hmore); [lia|].
      exists (At line column (prefix k s) :: more).
      split; [rewrite <- app_assoc; reflexivity|].
      cbn [set_out]. rewrite Hw, decide_True by assumption.
      split; [reflexivity | exact Hmore].
    + destruct (IH (behind (S k) s) (line + 1)
                   (POPUP_MARGIN + (Z.of_nat k + 1)) width
                   (shown ++ [At (line + 1) POPUP_MARGIN (prefix k s +:+ " ")]))
        as (more & -> & Hmore); [lia|].
      exists (At (line + 1) POPUP_MARGIN (prefix k s +:+ " ") :: more).
      split; [rewrite <- app_assoc; reflexivity|].
      cbn [set_out]. rewrite Hw, decide_False by assumption.
      split; [reflexivity | exact Hmore].
  - rewrite bool_decide_eq_true_2 by reflexivity. cbn [andb].
    destruct (bool_decide (strlen s ≤ 0)) eqn:Hempty.
    + apply bool_decide_eq_true in Hempty. unfold strlen in Hempty.
      destruct s; [|simpl in Hempty; lia].
      exists []. split; [rewrite app_nil_r; reflexivity | exact I].
    + apply bool_decide_eq_false in Hempty.
      assert (Hne : s ≠ EmptyString)
        by (intros ->; unfold strlen in Hempty; simpl in Hempty; lia).
      rewrite (words_single s Hnext Hne).
      assert (Hp : prefix (Z.to_nat (strlen s)) s = s)
        by (unfold strlen; rewrite Nat2Z.id; apply prefix_all).
      rewrite Hp.
      destruct (decide (column + strlen s < width)) as [Hfit|Hfit];
        cbv beta iota zeta; eexists; (split; [reflexivity|]);
        cbn [set_out]; [rewrite decide_True by exact Hfit
                       | rewrite decide_False by exact Hfit];
        split; reflexivity || exact I.
Qed.

(** X20. The popup window. For a message of 1 to 54 characters (every
    message of this program is one) the window is 8 lines high and 6
    columns wider than the message, at most 60, and it is centred on the
    screen; a title that is not wider than the window is centred on line
    1; the words of the message are written one after the other, each once
    and in their order, from column 3 of the first text line on: a word
    goes behind the last one, a column apart, when it ends before the
    column that is the length of the message, else to column 3 of the next
    line, with a blank behind it; every one of them lies inside the frame,
    at most three lines below the first; the loop that places the words
    ends after at most as many passes as the message has characters, plus
    one. An empty message makes [show_popup] divide by zero. *)
Theorem show_popup_fits (rows cols : Z) (title : cstr) (formatted : string) :
  (c_str (prefix 255 formatted) = EmptyString →
   show_popup rows cols title formatted = Undef) ∧
  (1 ≤ strlen (c_str (prefix 255 formatted)) ≤ 54 →
   ∃ p,
     show_popup rows cols title formatted = Done p ∧
     win_width p = Z.min (strlen (c_str (prefix 255 formatted)) + 6) 60 ∧
     win_length p = 8 ∧
     win_startx p = (cols - win_width p) ÷ 2 ∧
     win_starty p = (rows - 8) ÷ 2 ∧
     Forall (inside 8 (win_width p) (if title is Some _ then 3 else 1))
            (body p) ∧
     (∀ n, (String.length (c_str (prefix 255 formatted)) < n)%nat →
           wrap_loop n (c_str (prefix 255 formatted))
                     (if title is Some _ then 3 else 1) 3
                     (strlen (c_str (prefix 255 formatted))) []
           = body p) ∧
     set_out (strlen (c_str (prefix 255 formatted)))
             (if title is Some _ then 3 else 1) 3
             (body p) (words (c_str (prefix 255 formatted))) ∧
     ∀ t, title = Some t → strlen t ≤ win_width p →
          heading p = Some (At 1 ((win_width p - strlen t) / 2) t)).
Proof.
  unfold show_popup, MAX_POPUP_WIDTH, POPUP_MARGIN.
  set (message := c_str (prefix 255 formatted)).
  split.
  - intros ->. reflexivity.
  - intros Hlen.
    set (width := if decide (strlen message + 2 * 3 < 60)
                  then strlen message + 2 * 3 else 60).
    assert (Hw : width = Z.min (strlen message + 6) 60 ∧
                 width - 2 * 3 = strlen message).
    { unfold width. destruct (decide _); lia. }
    destruct Hw as [Hw Hmw].
    destruct (decide (width - 2 * 3 = 0)); [lia|].
    rewrite Hmw. rewrite Z.div_same by lia.
    eexists. split; [reflexivity|]. cbn [win_width win_length win_startx
                                           win_starty body heading].
    split; [exact Hw|]. split; [reflexivity|]. split; [reflexivity|].
    split; [reflexivity|]. split; [|split; [|split]].
    + apply wrap_loop_inside; try lia.
      * destruct title; lia.
      * constructor.
    + intros k Hk. apply wrap_loop_enough; [exact Hk | lia].
    + destruct (wrap_loop_words (S (String.length message)) message
                  (if title is Some _ then 3 else 1) 3 (strlen message) [])
        as (more & -> & Hmore); [lia|].
      exact Hmore.
    + intros t -> Ht. do 2 f_equal.
      assert (Hs : 0 ≤ strlen t) by (unfold strlen; lia).
      assert (Hd : 0 ≤ (width - strlen t) / 2 ≤ 30).
      { split; [apply Z.div_pos; lia|].
        apply Z.div_le_upper_bound; lia. }
      unfold int_cast. rewrite (Z.mod_small (width - strlen t)) by lia.
      rewrite Z.mod_small by lia. lia.
Qed.

Lemma show_popup_fits_witness :
  show_popup 24 80 (Some "INFO") "Deletion canceled."
  = Done (mkPopup 8 24 8 28 (Some (At 1 10 "INFO"))
                  [At 3 3 "Deletion"; At 4 3 "canceled. "]) ∧
  ∃ p,
    show_popup 24 80 (Some "INFO") "Deletion canceled." = Done p ∧
    win_width p = Z.min (strlen (c_str (prefix 255 "Deletion canceled.")) + 6) 60 ∧
    win_length p = 8 ∧
    win_startx p = (80 - win_width p) ÷ 2 ∧
    win_starty p = (24 - 8) ÷ 2 ∧
    Forall (inside 8 (win_width p) 3) (body p) ∧
    (∀ n, (String.length (c_str (prefix 255 "Deletion canceled.")) < n)%nat →
          wrap_loop n (c_str (prefix 255 "Deletion canceled.")) 3 3
                    (strlen (c_str (prefix 255 "Deletion canceled."))) []
          = body p) ∧
    set_out (strlen (c_str (prefix 255 "Deletion canceled."))) 3 3
            (body p) (words (c_str (prefix 255 "Deletion canceled."))) ∧
    ∀ t, Some "INFO"%string = Some t → strlen t ≤ win_width p →
         heading p = Some (At 1 ((win_width p - strlen t) / 2) t).
Proof.
  split; [reflexivity|].
  apply (proj2 (show_popup_fits 24 80 (Some "INFO") "Deletion canceled.")).
  vm_compute. split; discriminate.
Defined.

End PopupFacts.

(** ** TV series *)

Module SeriesFacts.

Import Series CatalogFacts.

Lemma strcmp_opp (a : string) : ∀ b, strcmp b a = CompOpp (strcmp a b).
Proof.
  induction a as [|x a IH]; intros [|y b]; simpl; try reflexivity.
  rewrite (Nat.compare_antisym (nat_of_ascii x) (nat_of_ascii y)).
  destruct (nat_of_ascii x ?= nat_of_ascii y)%nat; simpl; [apply IH | ..];
    reflexivity.
Qed.

Lemma strcmp_Eq (a : string) : ∀ b, strcmp a b = Eq ↔ a = b.
Proof.
  induction a as [|x a IH]; intros [|y b]; simpl;
    try (split; [discriminate || reflexivity | discriminate || reflexivity]).
  destruct (Nat.compare_spec (nat_of_ascii x) (nat_of_ascii y)) as [He|Hl|Hg].
  - assert (x = y).
    { rewrite <- (ascii_nat_embedding x), <- (ascii_nat_embedding y), He.
      reflexivity. }
    subst y. rewrite IH. split; [intros ->; reflexivity | intros [= ->]; reflexivity].
  - split; [discriminate|]. intros [= -> _]. lia.
  - split; [discriminate|]. intros [= -> _]. lia.
Qed.

Lemma strcmp_trans (a : string) :
  ∀ b c, strcmp a b ≠ Gt → strcmp b c ≠ Gt → strcmp a c ≠ Gt.
Proof.
  induction a as [|x a IH]; intros [|y b] [|z c]; simpl; try congruence.
  destruct (Nat.compare_spec (nat_of_ascii x) (nat_of_ascii y)) as [He|Hl|Hg],
           (Nat.compare_spec (nat_of_ascii y) (nat_of_ascii z)) as [He'|Hl'|Hg'],
           (Nat.compare_spec (nat_of_ascii x) (nat_of_ascii z)) as [He''|Hl''|Hg''];
    try congruence; try lia.
  apply IH.
Qed.

Lemma behind_of_antisym (s s' : TV_Series) :
  behind_of s s' = true → behind_of s' s = false.
Proof.
  unfold behind_of. destruct (title s) as [a|], (title s') as [b|];
    try discriminate.
  rewrite (strcmp_opp a b). destruct (strcmp a b); simpl; congruence.
Qed.

Lemma behind_of_in_order (s s' : TV_Series) :
  named s → named s' → behind_of s s' = false → in_order s s'.
Proof.
  intros [a Ha] [b Hb]. unfold behind_of, in_order. rewrite Ha, Hb.
  intros H. exists a, b. repeat split.
  destruct (strcmp a b); congruence.
Qed.

Lemma in_order_trans (s1 s2 s3 : TV_Series) :
  in_order s1 s2 → in_order s2 s3 → in_order s1 s3.
Proof.
  intros (a & b & Ha & Hb & Hab) (b' & c & Hb' & Hc & Hbc).
  rewrite Hb in Hb'. injection Hb' as <-.
  exists a, c. repeat split; try assumption.
  eapply strcmp_trans; eassumption.
Qed.

Lemma ascending_sorted (l : list TV_Series) :
  ascending l → sorted_by_title l.
Proof.
  induction l as [|s l IH]; intros Hasc i j x y Hij Hx Hy.
  { rewrite lookup_nil in Hx. discriminate. }
  assert (Htail : ascending l).
  { destruct l; [exact I | apply Hasc]. }
  assert (Hhead : ∀ k z, l !! k = Some z → in_order s z).
  { clear i j x y Hij Hx Hy.
    induction l as [|s' l IHl]; intros k z Hz.
    { rewrite lookup_nil in Hz. discriminate. }
    destruct Hasc as [Hss' Hasc].
    destruct k as [|k]; [injection Hz as <-; exact Hss'|].
    simpl in Hz. eapply in_order_trans; [exact Hss'|].
    assert (Hs' : sorted_by_title (s' :: l)) by (apply IH, Hasc).
    apply (Hs' O (S k) s' z); [lia | reflexivity | exact Hz]. }
  destruct j as [|j]; [lia|]. simpl in Hy.
  destruct i as [|i].
  - injection Hx as <-. apply (Hhead j y Hy).
  - simpl in Hx. apply (IH Htail i j x y); [lia | assumption | assumption].
Qed.

Lemma bubble_perm (l : list TV_Series) :
  ∀ s, Permutation (fst (bubble s l)) (s :: l).
Proof.
  induction l as [|s' l IH]; intros s; simpl; [reflexivity|].
  destruct (behind_of s s').
  - specialize (IH s). destruct (bubble s l) as [r sw]. simpl in *.
    rewrite IH. apply Permutation_swap.
  - specialize (IH s'). destruct (bubble s' l) as [r sw]. simpl in *.
    rewrite IH. reflexivity.
Qed.

Lemma count_perm (P : TV_Series → Prop) `{∀ x, Decision (P x)}
    (l l' : list TV_Series) :
  Permutation l l' → length (filter P l) = length (filter P l').
Proof. intros Hp. rewrite Hp. reflexivity. Qed.

Lemma bubble_disorder (l : list TV_Series) :
  ∀ s, (disorder (fst (bubble s l)) + (if snd (bubble s l) then 1 else 0)
        ≤ disorder (s :: l))%nat.
Proof.
  induction l as [|s' l IH]; intros s; [simpl; lia|].
  cbn [bubble]. destruct (behind_of s s') eqn:Hb.
  - specialize (IH s). pose proof (bubble_perm l s) as Hp.
    destruct (bubble s l) as [r sw]. cbn [fst snd] in *.
    cbn [disorder] in *.
    rewrite (count_perm (λ x, behind_of s' x = true) r (s :: l) Hp).
    rewrite filter_cons_False
      by (rewrite (behind_of_antisym s s' Hb); discriminate).
    rewrite filter_cons_True by exact Hb. simpl length.
    destruct sw; lia.
  - specialize (IH s'). pose proof (bubble_perm l s') as Hp.
    destruct (bubble s' l) as [r sw]. cbn [fst snd] in *.
    cbn [disorder] in *.
    rewrite (count_perm (λ x, behind_of s x = true) r (s' :: l) Hp).
    rewrite !filter_cons_False by (rewrite Hb; discriminate).
    destruct sw; lia.
Qed.

Lemma bubble_unswapped (l : list TV_Series) :
  ∀ s, Forall named (s :: l) → snd (bubble s l) = false →
       fst (bubble s l) = s :: l ∧ ascending (s :: l).
Proof.
  induction l as [|s' l IH]; intros s Hn; [simpl; auto|].
  cbn [bubble]. destruct (behind_of s s') eqn:Hb.
  - destruct (bubble s l); discriminate.
  - apply Forall_cons in Hn as [Hs Hn].
    specialize (IH s' Hn). destruct (bubble s' l) as [r sw]. cbn [fst snd] in *.
    intros ->. destruct (IH eq_refl) as [-> Hasc].
    split; [reflexivity|]. split; [|exact Hasc].
    apply behind_of_in_order; [exact Hs | | exact Hb].
    apply Forall_cons in Hn as [Hs' _]. exact Hs'.
Qed.

Lemma behind_of_differ (s s' : TV_Series) (w : string) :
  behind_of s s' = true → title s = Some w → title s' = Some w → False.
Proof.
  unfold behind_of. intros Hb Hs Hs'. rewrite Hs, Hs' in Hb.
  rewrite (proj2 (strcmp_Eq w w) eq_refl) in Hb. discriminate.
Qed.

Lemma bubble_stable (w : string) (l : list TV_Series) :
  ∀ s, filter (λ x, title x = Some w) (fst (bubble s l))
       = filter (λ x, title x = Some w) (s :: l).
Proof.
  induction l as [|s' l IH]; intros s; [reflexivity|].
  cbn [bubble]. destruct (behind_of s s') eqn:Hb.
  - specialize (IH s). destruct (bubble s l) as [r sw]. cbn [fst] in *.
    rewrite (filter_cons _ s' r), IH, !filter_cons.
    destruct (decide (title s' = Some w)) as [Hs'|Hs'],
             (decide (title s = Some w)) as [Hs|Hs];
      try reflexivity.
    destruct (behind_of_differ s s' w Hb Hs Hs').
  - specialize (IH s'). destruct (bubble s' l) as [r sw]. cbn [fst] in *.
    rewrite (filter_cons _ s r), IH. rewrite (filter_cons _ s (s' :: l)).
    reflexivity.
Qed.

Lemma find_first (w : string) (l : list TV_Series) :
  find (has_title w) l = head (filter (λ x, title x = Some w) l).
Proof.
  induction l as [|s l IH]; [reflexivity|].
  cbn [find]. rewrite filter_cons. unfold has_title at 1.
  destruct (decide (title s = Some w)) as [H|H].
  - rewrite bool_decide_eq_true_2 by exact H. reflexivity.
  - rewrite bool_decide_eq_false_2 by exact H. exact IH.
Qed.

Lemma disorder_bound (l : list TV_Series) :
  (disorder l ≤ length l * length l)%nat.
Proof.
  induction l as [|s l IH]; simpl; [lia|].
  pose proof (length_filter (λ s', behind_of s s' = true) l). nia.
Qed.

Lemma element_at (series : list (option TV_Series)) (i : nat)
    (p : option TV_Series) :
  series !! i = Some p → element series (Z.of_nat i) = Done p.
Proof.
  intros H. unfold element. destruct (decide (0 ≤ Z.of_nat i)); [|lia].
  rewrite Nat2Z.id, H. reflexivity.
Qed.

Lemma store_element_at (series : list (option TV_Series)) (i : nat)
    (p : option TV_Series) :
  (i < length series)%nat →
  store_element series (Z.of_nat i) p = Done (<[i := p]> series).
Proof.
  intros H. unfold store_element. destruct (decide _); [|lia].
  rewrite Nat2Z.id. reflexivity.
Qed.

Lemma adjacent (A B : list (option TV_Series)) (x y : option TV_Series) :
  (A ++ x :: y :: B) !! length A = Some x ∧
  (A ++ x :: y :: B) !! S (length A) = Some y ∧
  <[S (length A) := x]> (<[length A := y]> (A ++ x :: y :: B))
  = (A ++ [y]) ++ x :: B.
Proof.
  induction A as [|a A (H1 & H2 & H3)]; simpl; [auto|].
  split; [exact H1|]. split; [exact H2|]. f_equal. exact H3.
Qed.

Lemma sort_pass_bubble (l : list TV_Series) :
  ∀ (pre : list TV_Series) (s : TV_Series) (tail : list (option TV_Series))
    (swapped : bool),
    Forall named (s :: l) →
    sort_pass (length l) (map Some (pre ++ s :: l) ++ tail)
              (Z.of_nat (length pre)) swapped
    = Done (map Some (pre ++ fst (bubble s l)) ++ tail,
            swapped || snd (bubble s l)).
Proof.
  induction l as [|s' l IH]; intros pre s tail swapped Hn.
  { simpl. rewrite orb_false_r. reflexivity. }
  apply Forall_cons in Hn as [[a Ha] Hn].
  pose proof Hn as Hn'. apply Forall_cons in Hn' as [[b Hb] _].
  cbn [length sort_pass].
  change (map Some (pre ++ s :: s' :: l)) with (Some <$> (pre ++ s :: s' :: l)).
  rewrite fmap_app. cbn [fmap list_fmap]. rewrite <- app_assoc.
  cbn [app].
  destruct (adjacent (Some <$> pre) ((Some <$> l) ++ tail) (Some s) (Some s'))
    as (H1 & H2 & H3).
  rewrite length_fmap in H1, H2, H3.
  rewrite (element_at _ _ _ H1). cbn [mbind outcome_bind title_of].
  rewrite Ha. cbn [str_arg mbind outcome_bind].
  replace (Z.of_nat (length pre) + 1) with (Z.of_nat (S (length pre))) by lia.
  rewrite (element_at _ _ _ H2). cbn [mbind outcome_bind title_of].
  rewrite Hb. cbn [str_arg mbind outcome_bind].
  cbn [bubble]. unfold behind_of at 1 2. rewrite Ha, Hb.
  destruct (strcmp a b) eqn:Hcmp.
  - specialize (IH (pre ++ [s]) s' tail swapped Hn).
    rewrite length_app in IH. simpl length in IH.
    replace (length pre + 1)%nat with (S (length pre)) in IH by lia.
    change (map Some ((pre ++ [s]) ++ s' :: l))
      with (Some <$> ((pre ++ [s]) ++ s' :: l)) in IH.
    rewrite <- app_assoc, fmap_app in IH. cbn [app fmap list_fmap] in IH.
    rewrite <- app_assoc in IH. cbn [app] in IH.
    rewrite IH. destruct (bubble s' l) as [r sw]. cbn [fst snd].
    rewrite <- app_assoc. reflexivity.
  - specialize (IH (pre ++ [s]) s' tail swapped Hn).
    rewrite length_app in IH. simpl length in IH.
    replace (length pre + 1)%nat with (S (length pre)) in IH by lia.
    change (map Some ((pre ++ [s]) ++ s' :: l))
      with (Some <$> ((pre ++ [s]) ++ s' :: l)) in IH.
    rewrite <- app_assoc, fmap_app in IH. cbn [app fmap list_fmap] in IH.
    rewrite <- app_assoc in IH. cbn [app] in IH.
    rewrite IH. destruct (bubble s' l) as [r sw]. cbn [fst snd].
    rewrite <- app_assoc. reflexivity.
  - assert (Hlen : (S (length pre)
                    < length ((Some <$> pre) ++ Some s :: Some s'
                                :: (Some <$> l) ++ tail))%nat).
    { rewrite length_app, length_fmap. simpl. lia. }
    rewrite store_element_at by lia. cbn [mbind outcome_bind].
    rewrite store_element_at by (rewrite length_insert; lia).
    cbn [mbind outcome_bind]. rewrite H3.
    specialize (IH (pre ++ [s']) s tail true
                   (Forall_cons_2 _ _ _ (ex_intro _ a Ha)
                      (proj2 (proj1 (Forall_cons _ _ _) Hn)))).
    rewrite length_app in IH. simpl length in IH.
    replace (length pre + 1)%nat with (S (length pre)) in IH by lia.
    change (map Some ((pre ++ [s']) ++ s :: l))
      with (Some <$> ((pre ++ [s']) ++ s :: l)) in IH.
    rewrite fmap_app, fmap_app in IH. cbn [fmap list_fmap] in IH.
    rewrite <- (app_assoc _ _ tail) in IH. cbn [app] in IH.
    rewrite IH. destruct (bubble s l) as [r sw]. cbn [fst snd].
    rewrite orb_true_r. cbn [orb]. rewrite <- app_assoc. reflexivity.
Qed.

Lemma sort_loop_sorts (passes : nat) :
  ∀ (recs : list TV_Series) (tail : list (option TV_Series)),
    Forall named recs → (disorder recs < passes)%nat →
    Z.of_nat (length recs) ≤ INT_MAX →
    ∃ sorted,
      sort_tv_series passes (map Some recs ++ tail) (Z.of_nat (length recs))
      = Done (Some (map Some sorted ++ tail)) ∧
      Permutation recs sorted ∧ ascending sorted ∧
      ∀ w, filter (λ x, title x = Some w) sorted
           = filter (λ x, title x = Some w) recs.
Proof.
  induction passes as [|passes IH]; intros recs tail Hn Hd Hmax; [lia|].
  cbn [sort_tv_series].
  rewrite int_of_Done by (unfold INT_MIN; lia). cbn [mbind outcome_bind].
  destruct recs as [|s l].
  { exists []. split; [reflexivity|]. split; [constructor|].
    split; [exact I | reflexivity]. }
  replace (Z.to_nat (Z.of_nat (length (s :: l)) - 1)) with (length l)
    by (simpl length; lia).
  pose proof (sort_pass_bubble l [] s tail false Hn) as Hpass.
  cbn [app length] in Hpass. change (Z.of_nat 0) with 0 in Hpass.
  rewrite Hpass. cbn [mbind outcome_bind orb].
  pose proof (bubble_perm l s) as Hp.
  pose proof (bubble_disorder l s) as Hless.
  destruct (snd (bubble s l)) eqn:Hsw.
  - destruct (IH (fst (bubble s l)) tail)
      as (sorted & Hrun & Hperm & Hasc & Hstable).
    + rewrite Hp. exact Hn.
    + lia.
    + rewrite (Permutation_length Hp). exact Hmax.
    + rewrite (Permutation_length Hp) in Hrun.
      exists sorted. split; [exact Hrun|]. split; [|split; [exact Hasc|]].
      * rewrite <- Hperm, Hp. reflexivity.
      * intros w. rewrite (Hstable w). apply bubble_stable.
  - destruct (bubble_unswapped l s Hn Hsw) as [Heq Hasc].
    exists (s :: l). rewrite Heq. split; [reflexivity|].
    split; [reflexivity|]. split; [exact Hasc | reflexivity].
Qed.

(** X21. [sort_tv_series] sorts: on an array whose first [count] cells
    point to records with titles, the passes end (fewer than [count]
    squared plus one are needed), and the array then holds the same
    records, each exactly once, ordered by title as [strcmp] compares
    them: no record comes behind a later one. The cells beyond [count]
    are untouched. *)
Theorem sort_tv_series_sorts (passes : nat) (recs : list TV_Series)
    (tail : list (option TV_Series)) :
  Forall named recs → (length recs * length recs < passes)%nat →
  Z.of_nat (length recs) ≤ INT_MAX →
  ∃ sorted,
    sort_tv_series passes (map Some recs ++ tail) (Z.of_nat (length recs))
    = Done (Some (map Some sorted ++ tail)) ∧
    Permutation recs sorted ∧ sorted_by_title sorted.
Proof.
  intros Hn Hpasses Hmax.
  pose proof (disorder_bound recs) as Hb.
  destruct (sort_loop_sorts passes recs tail Hn ltac:(lia) Hmax)
    as (sorted & Hrun & Hperm & Hasc & _).
  exists sorted. split; [exact Hrun|]. split; [exact Hperm|].
  apply ascending_sorted, Hasc.
Qed.

Lemma sort_tv_series_sorts_witness :
  ∃ sorted,
    sort_tv_series 10
      (map Some [mkSeries (Some "Lost") (Some "Abrams") 6 121;
                 mkSeries (Some "Dark") (Some "Odar") 3 26;
                 mkSeries (Some "Fargo") (Some "Hawley") 5 51] ++ [None])
      (Z.of_nat 3)
    = Done (Some (map Some sorted ++ [None])) ∧
    Permutation [mkSeries (Some "Lost") (Some "Abrams") 6 121;
                 mkSeries (Some "Dark") (Some "Odar") 3 26;
                 mkSeries (Some "Fargo") (Some "Hawley") 5 51] sorted ∧
    sorted_by_title sorted.
Proof.
  apply (sort_tv_series_sorts 10
           [mkSeries (Some "Lost") (Some "Abrams") 6 121;
            mkSeries (Some "Dark") (Some "Odar") 3 26;
            mkSeries (Some "Fargo") (Some "Hawley") 5 51] [None]).
  - repeat constructor; eexists; reflexivity.
  - simpl. lia.
  - simpl. unfold INT_MAX. lia.
Defined.

Lemma search_loop_find (wanted : string) (l : list TV_Series) :
  ∀ (pre : list TV_Series) (tail : list (option TV_Series)),
    Forall named l →
    search_loop (length l) (map Some (pre ++ l) ++ tail)
                (Z.of_nat (length pre)) (Some wanted)
    = Done (find (has_title wanted) l).
Proof.
  induction l as [|s l IH]; intros pre tail Hn; [reflexivity|].
  apply Forall_cons in Hn as [[a Ha] Hn].
  cbn [length search_loop find].
  assert (Hs : (map Some (pre ++ s :: l) ++ tail) !! length pre = Some (Some s)).
  { change (map Some (pre ++ s :: l)) with (Some <$> (pre ++ s :: l)).
    rewrite lookup_app_l by (rewrite length_fmap, length_app; simpl; lia).
    rewrite list_lookup_fmap, lookup_app_r by lia.
    rewrite Nat.sub_diag. reflexivity. }
  rewrite (element_at _ _ _ Hs). cbn [mbind outcome_bind title_of].
  rewrite Ha. cbn [str_arg mbind outcome_bind].
  unfold has_title at 1. rewrite Ha.
  destruct (strcmp a wanted) eqn:Hcmp.
  - apply strcmp_Eq in Hcmp. subst a.
    rewrite bool_decide_eq_true_2 by reflexivity. reflexivity.
  - rewrite bool_decide_eq_false_2
      by (intros [= ->]; rewrite (proj2 (strcmp_Eq wanted wanted) eq_refl) in Hcmp;
          discriminate).
    specialize (IH (pre ++ [s]) tail Hn).
    rewrite length_app, <- app_assoc in IH. simpl in IH.
    replace (Z.of_nat (length pre) + 1) with (Z.of_nat (length pre + 1)) by lia.
    exact IH.
  - rewrite bool_decide_eq_false_2
      by (intros [= ->]; rewrite (proj2 (strcmp_Eq wanted wanted) eq_refl) in Hcmp;
          discriminate).
    specialize (IH (pre ++ [s]) tail Hn).
    rewrite length_app, <- app_assoc in IH. simpl in IH.
    replace (Z.of_nat (length pre) + 1) with (Z.of_nat (length pre + 1)) by lia.
    exact IH.
Qed.

Lemma search_loop_null_title (wanted : string) (l : list TV_Series) :
  ∀ (pre : list TV_Series) (s : TV_Series) (after : list TV_Series),
    Forall named l → find (has_title wanted) l = None → title s = None →
    search_loop (length (l ++ s :: after)) (map Some (pre ++ l ++ s :: after))
                (Z.of_nat (length pre)) (Some wanted)
    = Undef.
Proof.
  induction l as [|x l IH]; intros pre s after Hn Hnone Hs.
  - cbn [app length search_loop].
    assert (Hl : map Some (pre ++ s :: after) !! length pre = Some (Some s)).
    { change (map Some (pre ++ s :: after)) with (Some <$> (pre ++ s :: after)).
      rewrite list_lookup_fmap, lookup_app_r by lia.
      rewrite Nat.sub_diag. reflexivity. }
    rewrite (element_at _ _ _ Hl). cbn [mbind outcome_bind title_of].
    rewrite Hs. reflexivity.
  - apply Forall_cons in Hn as [[a Ha] Hn].
    cbn [find] in Hnone. unfold has_title at 1 in Hnone.
    destruct (decide (title x = Some wanted)) as [Hw|Hw];
      [rewrite bool_decide_eq_true_2 in Hnone by exact Hw; discriminate|].
    rewrite bool_decide_eq_false_2 in Hnone by exact Hw.
    rewrite Ha in Hw.
    cbn [app length search_loop].
    assert (Hl : map Some (pre ++ x :: l ++ s :: after) !! length pre
                 = Some (Some x)).
    { change (map Some (pre ++ x :: l ++ s :: after))
        with (Some <$> (pre ++ x :: l ++ s :: after)).
      rewrite list_lookup_fmap, lookup_app_r by lia.
      rewrite Nat.sub_diag. reflexivity. }
    rewrite (element_at _ _ _ Hl). cbn [mbind outcome_bind title_of].
    rewrite Ha. cbn [str_arg mbind outcome_bind].
    specialize (IH (pre ++ [x]) s after Hn Hnone Hs).
    rewrite (length_app pre [x]), <- app_assoc in IH. simpl in IH.
    replace (Z.of_nat (length pre) + 1)
      with (Z.of_nat (length pre + 1)) by lia.
    destruct (strcmp a wanted) eqn:Hcmp;
      [apply strcmp_Eq in Hcmp; congruence | exact IH | exact IH].
Qed.

(** X22. [search_tv_series] returns the first record, in array order,
    whose title is the wanted one, and null when there is none, provided
    the first [count] cells point to records with titles. A record without
    title that stands before the first hit is handed to [strcmp] with its
    null pointer. *)
Theorem search_tv_series_first (recs : list TV_Series)
    (tail : list (option TV_Series)) (wanted : string) :
  Forall named recs →
  search_tv_series (map Some recs ++ tail) (Z.of_nat (length recs))
                   (Some wanted)
  = Done (find (has_title wanted) recs) ∧
  ∀ s after,
    find (has_title wanted) recs = None → title s = None →
    search_tv_series (map Some (recs ++ s :: after))
                     (Z.of_nat (length (recs ++ s :: after))) (Some wanted)
    = Undef.
Proof.
  intros Hn. split.
  - unfold search_tv_series. rewrite Nat2Z.id.
    apply (search_loop_find wanted recs [] tail Hn).
  - intros s after Hnone Hs.
    unfold search_tv_series. rewrite Nat2Z.id.
    apply (search_loop_null_title wanted recs [] s after Hn Hnone Hs).
Qed.

Lemma search_tv_series_first_witness :
  search_tv_series
    (map Some [mkSeries (Some "Lost") (Some "Abrams") 6 121;
               mkSeries (Some "Dark") (Some "Odar") 3 26;
               mkSeries (Some "Dark") (Some "Friese") 1 10] ++ [None])
    (Z.of_nat 3) (Some "Fargo")
  = Done (find (has_title "Fargo")
               [mkSeries (Some "Lost") (Some "Abrams") 6 121;
                mkSeries (Some "Dark") (Some "Odar") 3 26;
                mkSeries (Some "Dark") (Some "Friese") 1 10]) ∧
  ∀ s after,
    find (has_title "Fargo")
         [mkSeries (Some "Lost") (Some "Abrams") 6 121;
          mkSeries (Some "Dark") (Some "Odar") 3 26;
          mkSeries (Some "Dark") (Some "Friese") 1 10] = None →
    title s = None →
    search_tv_series
      (map Some ([mkSeries (Some "Lost") (Some "Abrams") 6 121;
                  mkSeries (Some "Dark") (Some "Odar") 3 26;
                  mkSeries (Some "Dark") (Some "Friese") 1 10] ++ s :: after))
      (Z.of_nat (length ([mkSeries (Some "Lost") (Some "Abrams") 6 121;
                          mkSeries (Some "Dark") (Some "Odar") 3 26;
                          mkSeries (Some "Dark") (Some "Friese") 1 10]
                           ++ s :: after))) (Some "Fargo")
    = Undef.
Proof.
  apply (search_tv_series_first
           [mkSeries (Some "Lost") (Some "Abrams") 6 121;
            mkSeries (Some "Dark") (Some "Odar") 3 26;
            mkSeries (Some "Dark") (Some "Friese") 1 10] [None] "Fargo").
  repeat constructor; eexists; reflexivity.
Defined.

(** X23. [sort_tv_series] is stable, and a search is not disturbed by
    it: on an array whose first [count] cells point to records with
    titles, the records that share a title stand in the sorted array in
    the order they had before, so that [search_tv_series] returns for
    every title the record it returned before the sort. *)
Theorem sort_tv_series_stable (passes : nat) (recs : list TV_Series)
    (tail : list (option TV_Series)) :
  Forall named recs → (length recs * length recs < passes)%nat →
  Z.of_nat (length recs) ≤ INT_MAX →
  ∃ sorted,
    sort_tv_series passes (map Some recs ++ tail) (Z.of_nat (length recs))
    = Done (Some (map Some sorted ++ tail)) ∧
    (∀ w, filter (λ s, title s = Some w) sorted
          = filter (λ s, title s = Some w) recs) ∧
    ∀ wanted,
      search_tv_series (map Some sorted ++ tail) (Z.of_nat (length recs))
                       (Some wanted)
      = search_tv_series (map Some recs ++ tail) (Z.of_nat (length recs))
                         (Some wanted).
Proof.
  intros Hn Hpasses Hmax.
  pose proof (disorder_bound recs) as Hb.
  destruct (sort_loop_sorts passes recs tail Hn ltac:(lia) Hmax)
    as (sorted & Hrun & Hperm & _ & Hstable).
  exists sorted. split; [exact Hrun|]. split; [exact Hstable|].
  intros wanted. unfold search_tv_series. rewrite Nat2Z.id.
  assert (Hn' : Forall named sorted) by (rewrite <- Hperm; exact Hn).
  transitivity (Done (find (has_title wanted) recs));
    [|symmetry; apply (search_loop_find wanted recs [] tail Hn)].
  rewrite (Permutation_length Hperm).
  rewrite find_first, <- (Hstable wanted), <- find_first.
  apply (search_loop_find wanted sorted [] tail Hn').
Qed.

Lemma sort_tv_series_stable_witness :
  ∃ sorted,
    sort_tv_series 10
      (map Some [mkSeries (Some "Lost") (Some "Abrams") 6 121;
                 mkSeries (Some "Dark") (Some "Odar") 3 26;
                 mkSeries (Some "Dark") (Some "Friese") 1 10] ++ [None])
      (Z.of_nat
         (length [mkSeries (Some "Lost") (Some "Abrams") 6 121;
                  mkSeries (Some "Dark") (Some "Odar") 3 26;
                  mkSeries (Some "Dark") (Some "Friese") 1 10]))
    = Done (Some (map Some sorted ++ [None])) ∧
    (∀ w, filter (λ s, title s = Some w) sorted
          = filter (λ s, title s = Some w)
              [mkSeries (Some "Lost") (Some "Abrams") 6 121;
               mkSeries (Some "Dark") (Some "Odar") 3 26;
               mkSeries (Some "Dark") (Some "Friese") 1 10]) ∧
    ∀ wanted,
      search_tv_series (map Some sorted ++ [None])
        (Z.of_nat
           (length [mkSeries (Some "Lost") (Some "Abrams") 6 121;
                    mkSeries (Some "Dark") (Some "Odar") 3 26;
                    mkSeries (Some "Dark") (Some "Friese") 1 10]))
        (Some wanted)
      = search_tv_series
          (map Some [mkSeries (Some "Lost") (Some "Abrams") 6 121;
                     mkSeries (Some "Dark") (Some "Odar") 3 26;
                     mkSeries (Some "Dark") (Some "Friese") 1 10] ++ [None])
          (Z.of_nat
             (length [mkSeries (Some "Lost") (Some "Abrams") 6 121;
                      mkSeries (Some "Dark") (Some "Odar") 3 26;
                      mkSeries (Some "Dark") (Some "Friese") 1 10]))
          (Some wanted).
Proof.
  apply (sort_tv_series_stable 10
           [mkSeries (Some "Lost") (Some "Abrams") 6 121;
            mkSeries (Some "Dark") (Some "Odar") 3 26;
            mkSeries (Some "Dark") (Some "Friese") 1 10] [None]).
  - repeat constructor; eexists; reflexivity.
  - simpl. lia.
  - simpl. unfold INT_MAX. lia.
Defined.

End SeriesFacts.
